(** * convert_dicom.py: a verification development

    The script walks a directory tree, converts every DICOM file found at a
    fixed depth into an 8-bit JPEG and stores it in a folder per patient.
    The development embeds its four functions

      - [find_dicom_files]       (the file discoverer),
      - [get_patient_folder]     (the patient path resolver),
      - [convert_dicom_to_jpeg]  (the single-file converter),
      - [convert_dicom]          (the batch orchestrator),

    and proves the properties the specification states about them. *)

From Stdlib Require Import ZArith QArith Qround Qabs Qpower Lia String Ascii List.
From Stdlib Require Import DecimalString DecimalNat SpecFloat.
From stdpp Require Import gmap strings list fin_maps.

#[local] Open Scope string_scope.
#[local] Open Scope list_scope.
#[local] Open Scope Z_scope.

(** ** Paths

    Every path the script handles descends from [Path(...).resolve()], so a
    path is absolute and free of [..]: it is modelled as the list of its
    components below the root, the root itself being the empty list. *)

Module Paths.

Abbreviation Path := (list string).

(** [p / name] *)
Definition joinpath (p : Path) (name : string) : Path :=
  if decide (name = "") then p else p ++ [name].

(** [p.name]: the last component, the empty string for the root. *)
Definition name (p : Path) : string := List.last p "".

(** [p.parent]: the root is its own parent. *)
Definition parent (p : Path) : Path := List.removelast p.

(** [p.parents]: the sequence [p.parent], [p.parent.parent], ... up to and
    including the root; it has one element per component of [p]. *)
Fixpoint parents_from (n : nat) (p : Path) : list Path :=
  match n with
  | O => []
  | S n' => parent p :: parents_from n' (parent p)
  end.

Definition parents (p : Path) : list Path := parents_from (length p) p.

(** [str(p)] *)
Definition str (p : Path) : string :=
  match p with
  | [] => "/"
  | _ => String.concat "" (List.map (fun c => "/" +:+ c) p)
  end.

End Paths.
Export Paths.

Infix "//" := joinpath (at level 40, left associativity).

(** ** The input tree

    What [iterdir], [is_file] and [is_dir] show of the input directory: an
    entry is a regular file, a directory with its listing in enumeration
    order, or anything else (a socket, a device, a dangling link).  Both
    tests follow symbolic links, so a link counts as what it points to.
    The tree holds the directories that can be listed; a directory that
    cannot makes [iterdir] raise, which the discoverer passes on. *)

Inductive entry : Type :=
| File
| Special
| Subdir (d : directory)
with directory : Type :=
| Directory (children : list (string * entry)).

Definition iterdir (d : directory) : list (string * entry) :=
  match d with Directory children => children end.

Definition is_file (e : entry) : bool :=
  match e with File => true | _ => false end.

Definition is_dir (e : entry) : bool :=
  match e with Subdir _ => true | _ => false end.

(** ** File discoverer *)

Fixpoint find_dicom_files (input_path : Path) (d : directory) (depth : Z)
  {struct d} : list Path :=
  match d with
  | Directory children =>
      if depth =? 0 then
        flat_map (fun f => if is_file f.2 then [input_path ++ [f.1]] else [])
                 children
      else
        flat_map (fun subdir =>
                    match subdir.2 with
                    | Subdir sub =>
                        find_dicom_files (input_path ++ [subdir.1]) sub
                                         (depth - 1)
                    | _ => []
                    end)
                 children
  end.

(** ** Patient path resolver *)

(** [str(n)] for a natural number: its decimal digits. *)
Definition str_nat (n : nat) : string :=
  NilEmpty.string_of_uint (Nat.to_uint n).

(** Python exceptions: the class and the message [str(e)] shows. *)
Inductive exn : Type := Exception (cls msg : string).

Definition exn_str (e : exn) : string :=
  match e with Exception _ msg => msg end.

Definition IndexError (i : nat) : exn :=
  Exception "IndexError" (str_nat i).

(** [dicom_path.parents[levels_up].name] *)
Definition get_patient_folder (dicom_path : Path) (levels_up : nat)
  : exn + string :=
  match parents dicom_path !! levels_up with
  | Some ancestor => inr (name ancestor)
  | None => inl (IndexError levels_up)
  end.

(** ** Pixel arithmetic

    [dataset.pixel_array] is a numpy array whose integer dtype pydicom takes
    from the bits allocated and the pixel representation of the file; line
    68 subtracts inside that dtype (with wrap-around), divides and
    multiplies in float64, and line 69 converts to uint8. *)

Module Float64.

#[local] Open Scope Q_scope.

Definition prec : Z := 53.
Definition emin : Z := -1074.
Definition emax : Z := 1024.

(** [floor (log2 q)] for a positive rational. *)
Definition Qlog2 (q : Q) : Z :=
  let e0 := (Z.log2 (Qnum q) - Z.log2 (Zpos (Qden q)))%Z in
  if Qle_bool (2 ^ e0) q then e0 else (e0 - 1)%Z.

(** The exponent of the unit in the last place of the binary64 numbers
    around [q]: 53 significant bits, subnormals below [2 ^ -1022]. *)
Definition ulp_exp (q : Q) : Z :=
  Z.max (Qlog2 (Qabs q) - (prec - 1)) emin.

(** The integer nearest to [s], ties to the even one. *)
Definition round_half_even (s : Q) : Z :=
  let f := Qfloor s in
  match Qcompare (s - inject_Z f) (1 # 2) with
  | Lt => f
  | Gt => (f + 1)%Z
  | Eq => if Z.even f then f else (f + 1)%Z
  end.

(** Round to nearest even onto the binary64 grid (no upper bound yet). *)
Definition round_binary64 (q : Q) : Q :=
  if Qeq_bool q 0 then 0
  else
    let e := ulp_exp q in
    inject_Z (round_half_even (q / 2 ^ e)) * 2 ^ e.

(** A float64 value.  The sign of a zero is not kept: nothing below can
    tell the two zeros apart, since the only divisor ever used is the
    conversion of an integer. *)
Inductive float64 : Type :=
| Finite (q : Q)
| Inf (negative : bool)
| NaN.

Definition Qneg (q : Q) : bool := negb (Qle_bool 0 q).

(** The float64 result of an exact value: rounded, or infinite on
    overflow. *)
Definition fl (q : Q) : float64 :=
  let r := round_binary64 q in
  if Qle_bool (2 ^ emax) (Qabs r) then Inf (Qneg r) else Finite r.

(** Conversion of an integer of any width to float64. *)
Definition of_int (z : Z) : float64 := fl (inject_Z z).

(** numpy's [true_divide]: division by zero gives [nan] or an infinity
    together with a RuntimeWarning, never an exception. *)
Definition true_divide (x y : float64) : float64 :=
  match x, y with
  | NaN, _ | _, NaN => NaN
  | Inf _, Inf _ => NaN
  | Inf s, Finite d => Inf (xorb s (Qneg d))
  | Finite _, Inf _ => Finite 0
  | Finite a, Finite d =>
      if Qeq_bool d 0 then (if Qeq_bool a 0 then NaN else Inf (Qneg a))
      else fl (a / d)
  end.

Definition multiply (x y : float64) : float64 :=
  match x, y with
  | NaN, _ | _, NaN => NaN
  | Inf s, Inf t => Inf (xorb s t)
  | Inf s, Finite b => if Qeq_bool b 0 then NaN else Inf (xorb s (Qneg b))
  | Finite a, Inf t => if Qeq_bool a 0 then NaN else Inf (xorb (Qneg a) t)
  | Finite a, Finite b => fl (a * b)
  end.

(** Truncation towards zero. *)
Definition Qtrunc (q : Q) : Z :=
  if Qle_bool 0 q then Qfloor q else Qceiling q.

(** [astype(np.uint8)] on one float64: the C conversion, which truncates
    and is defined only when the truncated value fits the target.  For
    [nan], the infinities and everything outside 0..255 numpy documents the
    result as undefined (it differs between processors): [None]. *)
Definition astype_uint8 (x : float64) : option Z :=
  match x with
  | Finite q =>
      let t := Qtrunc q in
      if ((0 <=? t) && (t <=? 255))%Z then Some t else None
  | _ => None
  end.

End Float64.
Export Float64.

(** *** The reference

    The Standard Library specifies IEEE 754 arithmetic on the mantissa and
    exponent of a float ([SpecFloat]).  The model above is checked against
    that specification, instantiated to binary64, on the computation of
    line 68. *)

Module Reference.

Definition of_int (z : Z) : spec_float := binary_normalize 53 1024 z 0 false.

Definition same_value (x : float64) (y : spec_float) : bool :=
  match x, y with
  | NaN, S754_nan => true
  | Inf s, S754_infinity t => Bool.eqb s t
  | Finite q, S754_zero _ => Qeq_bool q 0
  | Finite q, S754_finite s m e =>
      Qeq_bool q ((if s then -1 else 1) * inject_Z (Zpos m) * 2 ^ e)%Q
  | _, _ => false
  end.

(** The model and the reference agree on [x / d * 255]. *)
Definition agree (x d : Z) : bool :=
  same_value
    (multiply (true_divide (Float64.of_int x) (Float64.of_int d))
              (Float64.of_int 255))
    (SFmul 53 1024 (SFdiv 53 1024 (of_int x) (of_int d)) (of_int 255)).

End Reference.

(** The integer dtypes pydicom hands out. *)
Inductive dtype : Type :=
| UInt8 | Int8 | UInt16 | Int16 | UInt32 | Int32 | UInt64 | Int64.

Definition bits (dt : dtype) : Z :=
  match dt with
  | UInt8 | Int8 => 8
  | UInt16 | Int16 => 16
  | UInt32 | Int32 => 32
  | UInt64 | Int64 => 64
  end.

Definition signed (dt : dtype) : bool :=
  match dt with
  | Int8 | Int16 | Int32 | Int64 => true
  | _ => false
  end.

Definition min_int (dt : dtype) : Z :=
  if signed dt then - 2 ^ (bits dt - 1) else 0.

Definition max_int (dt : dtype) : Z :=
  if signed dt then 2 ^ (bits dt - 1) - 1 else 2 ^ bits dt - 1.

(** Integer arithmetic inside a dtype wraps around silently. *)
Definition wrap (dt : dtype) (z : Z) : Z :=
  (z - min_int dt) mod 2 ^ bits dt + min_int dt.

Record ndarray : Type := {
  arr_dtype : dtype;
  arr_shape : list nat;
  arr_data : list Z;
}.

(** The elements of an array lie in the range of its dtype. *)
Definition in_range (dt : dtype) (z : Z) : Prop :=
  min_int dt <= z <= max_int dt.

Definition wf_ndarray (a : ndarray) : Prop :=
  Forall (in_range (arr_dtype a)) (arr_data a).

(** A uint8 array; an element is [None] where the conversion that made it
    is undefined. *)
Record u8array : Type := {
  u8_shape : list nat;
  u8_data : list (option Z);
}.

Definition ValueError (msg : string) : exn := Exception "ValueError" msg.

(** [a.min()] and [a.max()]; both raise on an array without elements. *)
Definition arr_min (a : ndarray) : exn + Z :=
  match arr_data a with
  | [] => inl (ValueError
      "zero-size array to reduction operation minimum which has no identity")
  | x :: xs => inr (foldr Z.min x xs)
  end.

Definition arr_max (a : ndarray) : exn + Z :=
  match arr_data a with
  | [] => inl (ValueError
      "zero-size array to reduction operation maximum which has no identity")
  | x :: xs => inr (foldr Z.max x xs)
  end.

(** One pixel through lines 68 and 69, [lo] and [hi] being the minimum and
    the maximum of the array. *)
Definition rescale_pixel (dt : dtype) (lo hi p : Z) : option Z :=
  astype_uint8
    (multiply
       (true_divide (of_int (wrap dt (p - lo))) (of_int (wrap dt (hi - lo))))
       (of_int 255)).

(** Lines 68 and 69. *)
Definition normalize (pixel_array : ndarray) : exn + u8array :=
  match arr_min pixel_array with
  | inl e => inl e
  | inr lo =>
      match arr_max pixel_array with
      | inl e => inl e
      | inr hi =>
          inr {| u8_shape := arr_shape pixel_array;
                 u8_data := List.map (rescale_pixel (arr_dtype pixel_array) lo hi)
                                     (arr_data pixel_array) |}
      end
  end.




(** ** Formatting *)

(** [f"{n:02d}"]: decimal, padded with zeros on the left to two digits. *)
Definition format_02d (n : nat) : string :=
  let s := str_nat n in
  if (String.length s <? 2)%nat then "0" +:+ s else s.

(** [str(z)] for an integer. *)
Definition str_Z (z : Z) : string := NilEmpty.string_of_int (Z.to_int z).

(** [s.endswith(suffix)] *)
Fixpoint endswith (s suffix : string) : bool :=
  String.eqb s suffix ||
  match s with
  | EmptyString => false
  | String _ s' => endswith s' suffix
  end.

(** ** The world outside

    What the libraries the script calls answer: pydicom for a file of the
    input tree, Pillow for an array. *)

Record Dataset : Type := {
  PixelData : bool;               (* hasattr(dataset, 'PixelData') *)
  pixel_array : exn + ndarray;    (* dataset.pixel_array, which may raise *)
}.

Record World : Type := {
  (* pydicom.dcmread(dicom_path, force=True) *)
  dcmread : Path → exn + Dataset;
  (* the exception Image.fromarray raises for an array, if any *)
  fromarray_error : u8array → option exn;
  (* the exception the JPEG encoder raises for a picture, if any *)
  jpeg_error : u8array → option exn;
}.

(** [Image.fromarray(pixel_array)] *)
Definition Image_fromarray (w : World) (a : u8array) : exn + u8array :=
  match fromarray_error w a with
  | Some e => inl e
  | None => inr a
  end.

(** ** The output file system

    A finite map from paths to what is there; the root is a directory and
    is not recorded.  A file holds the picture that was encoded into it;
    a file that was opened for writing and never written holds
    [truncated]. *)

Inductive node : Type :=
| DirNode
| FileNode (content : u8array).

(** What is in a file after it was opened for writing and before anything
    is written: nothing. *)
Definition truncated : u8array := {| u8_shape := []; u8_data := [] |}.

(** [repr(s)] of a string, which is how [str(e)] shows the file name of an
    [OSError]: in single quotes, or in double quotes when the string has a
    single quote and no double one; the backslash, the quote in use and
    the control characters are escaped.  Characters outside ASCII are
    kept, as Python keeps the printable ones. *)
Definition hex_digit (d : nat) : ascii :=
  ascii_of_nat (if (d <? 10)%nat then 48 + d else 87 + d).

Definition repr_char (quote c : ascii) : string :=
  let n := nat_of_ascii c in
  if Ascii.eqb c "\" then "\\"
  else if Ascii.eqb c quote then String "\" (String c "")
  else if (n =? 9)%nat then "\t"
  else if (n =? 10)%nat then "\n"
  else if (n =? 13)%nat then "\r"
  else if ((n <? 32) || (n =? 127))%nat then
    "\x" +:+ String (hex_digit (n / 16)) (String (hex_digit (n mod 16)) "")
  else String c "".

Fixpoint repr_body (quote : ascii) (s : string) : string :=
  match s with
  | EmptyString => String quote ""
  | String c s' => repr_char quote c +:+ repr_body quote s'
  end.

Fixpoint has_char (c : ascii) (s : string) : bool :=
  match s with
  | EmptyString => false
  | String c' s' => Ascii.eqb c c' || has_char c s'
  end.

Definition repr (s : string) : string :=
  let quote :=
    if has_char "'" s && negb (has_char "034" s) then "034"%char
    else "'"%char in
  String quote (repr_body quote s).

(** An [OSError] of the operating system for the path [p]; [str(e)] is
    [[Errno n] strerror: 'path'].  The numbers and texts are those of
    Linux and macOS. *)
Definition OSError (cls : string) (errno : nat) (strerror : string)
  (p : Path) : exn :=
  Exception cls ("[Errno " +:+ str_nat errno +:+ "] " +:+ strerror +:+ ": "
                 +:+ repr (str p)).

Definition FileNotFoundError : Path → exn :=
  OSError "FileNotFoundError" 2 "No such file or directory".
Definition FileExistsError : Path → exn :=
  OSError "FileExistsError" 17 "File exists".
Definition NotADirectoryError : Path → exn :=
  OSError "NotADirectoryError" 20 "Not a directory".
Definition IsADirectoryError : Path → exn :=
  OSError "IsADirectoryError" 21 "Is a directory".

Definition is_directory (fs : gmap Path node) (p : Path) : bool :=
  match p with
  | [] => true
  | _ => match fs !! p with Some DirNode => true | _ => false end
  end.

(** [p.mkdir(parents=True, exist_ok=True)]: every missing directory on the
    way is made, a directory that is there is accepted, a file in the way
    is an error that leaves the disk as it was. *)
Fixpoint mkdir_from (made : Path) (rest : list string) (fs : gmap Path node)
  : exn + gmap Path node :=
  match rest with
  | [] => inr fs
  | c :: rest' =>
      let q := made ++ [c] in
      match fs !! q with
      | Some (FileNode _) =>
          inl (match rest' with
               | [] => FileExistsError (made ++ rest)
               | _ => NotADirectoryError (made ++ rest)
               end)
      | Some DirNode => mkdir_from q rest' fs
      | None => mkdir_from q rest' (<[q := DirNode]> fs)
      end
  end.

Definition do_mkdir (fs : gmap Path node) (p : Path)
  : option exn * gmap Path node :=
  match mkdir_from [] p fs with
  | inl e => (Some e, fs)
  | inr fs' => (None, fs')
  end.

(** [p.glob("*.jpg")]: the entries directly inside [p] whose name ends in
    [.jpg], whatever they are. *)
Definition jpg_in (p : Path) (q : Path) : Prop :=
  q ≠ [] ∧ parent q = p ∧ endswith (name q) ".jpg" = true.

#[global] Instance jpg_in_dec p q : Decision (jpg_in p q).
Proof. unfold jpg_in. apply _. Defined.

Definition do_glob (fs : gmap Path node) (p : Path) : list Path :=
  (map_to_list (filter (λ kv, jpg_in p kv.1) fs)).*1.

(** The error of opening [p] when its folder is not a directory: the
    first component on the way that is a file makes it
    [NotADirectoryError], the first that is missing
    [FileNotFoundError]. *)
Fixpoint open_error (made : Path) (rest : list string) (fs : gmap Path node)
  (p : Path) : exn :=
  match rest with
  | [] => FileNotFoundError p
  | c :: rest' =>
      match fs !! (made ++ [c]) with
      | Some DirNode => open_error (made ++ [c]) rest' fs p
      | Some (FileNode _) => NotADirectoryError p
      | None => FileNotFoundError p
      end
  end.

(** [img.save(new_filename, quality=95)] on the disk.  Pillow opens the
    file for writing first, which creates it or empties the file that is
    there, and raises when the path is a directory or the folder is not
    there; then the encoder runs, [picture] being what it gives.  When
    the encoder raises, Pillow closes the file and removes it if the call
    created it: a file that was there before stays, emptied. *)
Definition do_save (fs : gmap Path node) (p : Path) (picture : exn + u8array)
  : option exn * gmap Path node :=
  if is_directory fs p then (Some (IsADirectoryError p), fs)
  else if is_directory fs (parent p) then
    match picture with
    | inr img => (None, <[p := FileNode img]> fs)
    | inl e => (Some e, match fs !! p with
                        | Some _ => <[p := FileNode truncated]> fs
                        | None => fs
                        end)
    end
  else (Some (open_error [] (parent p) fs p), fs).

(** ** Programs over the disk

    A conversion is a short sequence of operations on the output disk, each
    atomic; between two of them other workers may act.  [prog A] is such a
    sequence ending in an [A]. *)

Inductive prog (A : Type) : Type :=
| Ret (a : A)
| Mkdir (p : Path) (k : option exn → prog A)
| Glob (p : Path) (k : list Path → prog A)
| Save (p : Path) (picture : exn + u8array) (k : option exn → prog A).

Arguments Ret {A} a.
Arguments Mkdir {A} p k.
Arguments Glob {A} p k.
Arguments Save {A} p picture k.

Fixpoint bind {A B} (m : prog A) (f : A → prog B) : prog B :=
  match m with
  | Ret a => f a
  | Mkdir p k => Mkdir p (λ r, bind (k r) f)
  | Glob p k => Glob p (λ r, bind (k r) f)
  | Save p picture k => Save p picture (λ r, bind (k r) f)
  end.

(** A program that may raise. *)
Definition raising (A : Type) : Type := prog (exn + A).

#[global] Instance raising_ret : MRet raising := λ A a, Ret (inr a).
#[global] Instance raising_bind : MBind raising := λ A B f m,
  bind m (λ r, match r with inl e => Ret (inl e) | inr a => f a end).

(** The value of an expression that may raise. *)
Definition lift {A} (r : exn + A) : raising A := Ret r.

Definition of_error (r : option exn) : exn + unit :=
  match r with Some e => inl e | None => inr tt end.

Definition mkdir (p : Path) : raising unit :=
  Mkdir p (λ r, Ret (of_error r)).

Definition glob (p : Path) : raising (list Path) :=
  Glob p (λ l, Ret (inr l)).

(** What the JPEG encoder makes of a picture. *)
Definition encode (w : World) (img : u8array) : exn + u8array :=
  match jpeg_error w img with
  | Some e => inl e
  | None => inr img
  end.

Definition save (w : World) (img : u8array) (p : Path) : raising unit :=
  Save p (encode w img) (λ r, Ret (of_error r)).

(** [try: body except Exception as e: return handler(e)] *)
Definition try_except {A} (body : raising A) (handler : exn → A) : prog A :=
  bind body (λ r, match r with inl e => Ret (handler e) | inr a => Ret a end).

(** Running a program alone on a disk. *)
Fixpoint run {A} (m : prog A) (fs : gmap Path node) : A * gmap Path node :=
  match m with
  | Ret a => (a, fs)
  | Mkdir p k => let r := do_mkdir fs p in run (k r.1) r.2
  | Glob p k => run (k (do_glob fs p)) fs
  | Save p picture k => let r := do_save fs p picture in run (k r.1) r.2
  end.

(** ** Single-file converter *)

Definition skip_message (dicom_path : Path) : string :=
  "Skipping " +:+ str dicom_path +:+ " - No Pixel Data Found".

Definition saved_message (new_filename : Path) : string :=
  "✔ Saved: " +:+ str new_filename.

Definition error_message (dicom_path : Path) (e : exn) : string :=
  "❌ Error processing " +:+ str dicom_path +:+ ": " +:+ exn_str e.

(** The body of the [try].  [sorted] only reorders what [glob] found, and
    the length is all that is used of it. *)
Definition convert_body (w : World) (dicom_path output_base_dir : Path)
  : raising string :=
  dataset ← lift (dcmread w dicom_path);
  if negb (PixelData dataset) then mret (skip_message dicom_path)
  else
    patient_folder ← lift (get_patient_folder dicom_path 2);
    let patient_output_dir := output_base_dir // patient_folder in
    _ ← mkdir patient_output_dir;
    existing_files ← glob patient_output_dir;
    let new_filename :=
      patient_output_dir // (format_02d (length existing_files) +:+ ".jpg") in
    pixel_array ← lift (pixel_array dataset);
    pixel_array ← lift (normalize pixel_array);
    img ← lift (Image_fromarray w pixel_array);
    _ ← save w img new_filename;
    mret (saved_message new_filename).

Definition convert_dicom_to_jpeg (w : World) (dicom_path output_base_dir : Path)
  : prog string :=
  try_except (convert_body w dicom_path output_base_dir)
             (error_message dicom_path).

(** ** The worker pool

    [ThreadPoolExecutor(max_workers=n)] with the tasks of one
    [executor.map]: a queue of submitted tasks, [n] workers that are idle or
    inside a task, and one future per task, numbered in submission order.
    The workers share the output disk. *)

Record pool : Type := {
  queue : list (nat * prog string);              (* submitted, not started *)
  workers : list (option (nat * prog string));   (* idle, or future and rest *)
  futures : gmap nat string;                     (* results of done tasks *)
  started : list nat;                            (* tasks taken, in order *)
  disk : gmap Path node;
}.

Definition set_worker (w : nat) (job : option (nat * prog string))
  (st : pool) : pool :=
  {| queue := queue st; workers := <[w := job]> (workers st);
     futures := futures st; started := started st; disk := disk st |}.

(** One step of worker [w]: take the next task when idle, do the next disk
    operation of its task, or deliver the result into the task's future. *)
Definition pool_step (w : nat) (st : pool) : pool :=
  match workers st !! w with
  | None => st
  | Some None =>
      match queue st with
      | [] => st
      | job :: rest =>
          {| queue := rest; workers := <[w := Some job]> (workers st);
             futures := futures st; started := started st ++ [job.1];
             disk := disk st |}
      end
  | Some (Some (i, Ret s)) =>
      {| queue := queue st; workers := <[w := None]> (workers st);
         futures := <[i := s]> (futures st); started := started st;
         disk := disk st |}
  | Some (Some (i, Mkdir p k)) =>
      let r := do_mkdir (disk st) p in
      {| queue := queue st; workers := <[w := Some (i, k r.1)]> (workers st);
         futures := futures st; started := started st; disk := r.2 |}
  | Some (Some (i, Glob p k)) =>
      set_worker w (Some (i, k (do_glob (disk st) p))) st
  | Some (Some (i, Save p picture k)) =>
      let r := do_save (disk st) p picture in
      {| queue := queue st; workers := <[w := Some (i, k r.1)]> (workers st);
         futures := futures st; started := started st; disk := r.2 |}
  end.

(** A schedule names the worker that moves at each step. *)
Definition run_schedule (schedule : list nat) (st : pool) : pool :=
  foldl (λ st w, pool_step w st) st schedule.

(** The schedule in which the first worker makes every step. *)
Definition alone (steps : nat) : list nat := replicate steps 0%nat.

(** [executor.map(fn, items)] submits one task per item, in order. *)
Definition submit_all (fn : Path → prog string) (items : list Path)
  (num_threads : nat) (fs : gmap Path node) : pool :=
  {| queue := imap (λ i item, (i, fn item)) items;
     workers := replicate num_threads None;
     futures := ∅; started := []; disk := fs |}.

(** The pool of one batch after the steps of a schedule. *)
Definition batch (w : World) (dicom_files : list Path) (output_path : Path)
  (num_threads : nat) (schedule : list nat) (fs : gmap Path node) : pool :=
  run_schedule schedule
    (submit_all (λ d, convert_dicom_to_jpeg w d output_path)
                dicom_files num_threads fs).

(** Nothing queued and no worker inside a task: the [with] block ends. *)
Definition finished (st : pool) : bool :=
  match queue st with
  | [] => forallb (λ job, match job with None => true | Some _ => false end)
                  (workers st)
  | _ => false
  end.

(** What iterating the result of [executor.map] collects: the results of
    the futures in submission order ([None] while one is still missing). *)
Definition collect (n : nat) (st : pool) : option (list string) :=
  mapM (λ i, futures st !! i) (seq 0 n).

(** ** Batch orchestrator *)

Inductive outcome : Type :=
| Completed (printed : list string) (fs : gmap Path node)
| Raised (printed : list string) (e : exn)
| Running (printed : list string).   (* the schedule ends before the pool *)

(** [if res:] *)
Definition truthy (res : string) : bool := negb (String.eqb res "").

(** [convert_dicom(input_dir, output_dir, num_threads)], both paths
    resolved, when the input path is a directory: on the input tree
    [input_tree] and the output disk [fs], the workers interleaved as
    [schedule] says.  The result is what was printed and the disk at the
    end.  [convert_dicom_at] below adds the input paths that are not a
    directory. *)
Definition convert_dicom (w : World) (input_path : Path)
  (input_tree : directory) (output_path : Path) (num_threads : Z)
  (schedule : list nat) (fs : gmap Path node) : outcome :=
  let dicom_files := find_dicom_files input_path input_tree 3 in
  match dicom_files with
  | [] => Completed ["❌ No DICOM files found."] fs
  | _ =>
      let banner :=
        [ "🚀 Starting DICOM to JPEG conversion with " +:+ str_Z num_threads
            +:+ " threads...";
          "📂 Found " +:+ str_nat (length dicom_files) +:+ " DICOM files.";
          "📂 Input Directory: " +:+ str input_path;
          "💾 Output Directory: " +:+ str output_path ] in
      if num_threads <=? 0 then
        Raised banner (ValueError "max_workers must be greater than 0")
      else
        let st := batch w dicom_files output_path (Z.to_nat num_threads)
                        schedule fs in
        match collect (length dicom_files) st with
        | Some results =>
            if finished st then
              Completed (banner ++ filter (λ res, truthy res = true) results
                                ++ ["✅ Conversion complete!"])
                        (disk st)
            else Running banner
        | None => Running banner
        end
  end.


(** ** What a task is answered

    The answers the disk gives to the operations of a task decide what
    the task returns. *)

Inductive answer : Type :=
| Made (r : option exn)            (* to [mkdir] *)
| Listed (files : list Path)       (* to [glob] *)
| Written (r : option exn).        (* to [save] *)

(** The operation worker [v] does in its next step, if that step is a
    disk operation: the number of the task and the answer it gets. *)
Definition observe (v : nat) (st : pool) : option (nat * answer) :=
  match workers st !! v with
  | Some (Some (i, Mkdir p _)) => Some (i, Made (do_mkdir (disk st) p).1)
  | Some (Some (i, Glob p _)) => Some (i, Listed (do_glob (disk st) p))
  | Some (Some (i, Save p picture _)) =>
      Some (i, Written (do_save (disk st) p picture).1)
  | _ => None
  end.

(** The same as a list: empty, or the one operation. *)
Definition seen (v : nat) (st : pool) : list (nat * answer) :=
  match observe v st with Some ev => [ev] | None => [] end.

(** The disk operations of a run, in the order they happen. *)
Fixpoint observed (schedule : list nat) (st : pool) : list (nat * answer) :=
  match schedule with
  | [] => []
  | v :: rest =>
      match observe v st with
      | Some ev => ev :: observed rest (pool_step v st)
      | None => observed rest (pool_step v st)
      end
  end.

(** The answers task [i] got, in order. *)
Definition answers_to (i : nat) (log : list (nat * answer)) : list answer :=
  (filter (λ ev, ev.1 = i) log).*2.

(** What a program returns when its operations are answered by
    [answers], one answer for each operation and none left over. *)
Fixpoint replay {A} (m : prog A) (answers : list answer) : option A :=
  match answers with
  | [] => match m with Ret a => Some a | _ => None end
  | given :: rest =>
      match m, given with
      | Mkdir _ k, Made r => replay (k r) rest
      | Glob _ k, Listed files => replay (k files) rest
      | Save _ _ k, Written r => replay (k r) rest
      | _, _ => None
      end
  end.

(** The disk operations of a batch. *)
Definition batch_log (w : World) (dicom_files : list Path)
  (output_path : Path) (num_threads : nat) (schedule : list nat)
  (fs : gmap Path node) : list (nat * answer) :=
  observed schedule
    (submit_all (λ d, convert_dicom_to_jpeg w d output_path)
                dicom_files num_threads fs).

(** ** Schedules that let every worker move *)

(** The number of steps [schedule] gives worker [v]. *)
Definition steps_of (v : nat) (schedule : list nat) : nat :=
  length (filter (λ u, u = v) schedule).

(** A schedule that gives each of the [num_threads] workers at least [k]
    steps. *)
Definition gives_each (num_threads k : nat) (schedule : list nat) : Prop :=
  ∀ v, (v < num_threads)%nat → (k ≤ steps_of v schedule)%nat.

(** The schedule in which the workers move in turn, [rounds] times. *)
Definition round_robin (num_threads rounds : nat) : list nat :=
  mjoin (replicate rounds (seq 0 num_threads)).

(** The result a program can end in, whatever the other workers do to the
    disk between its operations. *)
Inductive may_return {A} : prog A → A → Prop :=
| may_ret a : may_return (Ret a) a
| may_mkdir p k fs a :
    may_return (k (do_mkdir fs p).1) a → may_return (Mkdir p k) a
| may_glob p k fs a :
    may_return (k (do_glob fs p)) a → may_return (Glob p k) a
| may_save p picture k fs a :
    may_return (k (do_save fs p picture).1) a →
    may_return (Save p picture k) a.

(** ** Vocabulary of the statements *)

(** [reaches d rel e]: following the names [rel] down from directory [d],
    through directories only, ends at entry [e]. *)
Inductive reaches : directory → list string → entry → Prop :=
| reaches_here children n e :
    (n, e) ∈ children → reaches (Directory children) [n] e
| reaches_down children n sub rel e :
    (n, Subdir sub) ∈ children → reaches sub rel e →
    reaches (Directory children) (n :: rel) e.

(** The number of directory levels below [d]. *)
Fixpoint height (d : directory) : nat :=
  match d with
  | Directory children =>
      foldr (λ c h, match c.2 with
                    | Subdir sub => Nat.max (S (height sub)) h
                    | _ => h
                    end) O children
  end.

(** The discoverer as Python runs it, with a budget of nested calls:
    [None] when the budget is used up before the answer is there. *)
Fixpoint find_dicom_files_within (budget : nat) (input_path : Path)
  (d : directory) (depth : Z) : option (list Path) :=
  match budget with
  | O => None
  | S budget' =>
      if depth =? 0 then
        Some (flat_map (fun f => if is_file f.2 then [input_path ++ [f.1]]
                                 else [])
                       (iterdir d))
      else
        foldl (λ dicom_files subdir,
                 match subdir.2 with
                 | Subdir sub =>
                     found ← find_dicom_files_within budget'
                               (input_path ++ [subdir.1]) sub (depth - 1);
                     acc ← dicom_files;
                     Some (acc ++ found)
                 | _ => dicom_files
                 end)
              (Some []) (iterdir d)
  end.

(** [sub in s] *)
Definition contains (s sub : string) : Prop :=
  ∃ before after, s = before +:+ sub +:+ after.

(** Conversions one after the other, each on the disk the one before left:
    the results in order and the disk at the end. *)
Fixpoint convert_each (w : World) (output_base_dir : Path)
  (dicom_files : list Path) (fs : gmap Path node)
  : list string * gmap Path node :=
  match dicom_files with
  | [] => ([], fs)
  | dicom_path :: rest =>
      let r := run (convert_dicom_to_jpeg w dicom_path output_base_dir) fs in
      let rs := convert_each w output_base_dir rest r.2 in
      (r.1 :: rs.1, rs.2)
  end.

(** The name the converter gives the file with sequence number [i]. *)
Definition jpg_name (i : nat) : string := format_02d i +:+ ".jpg".

(** Tasks run one after the other, each result stored in its future. *)
Fixpoint run_each (tasks : list (nat * prog string))
  (results : gmap nat string) (fs : gmap Path node)
  : gmap nat string * gmap Path node :=
  match tasks with
  | [] => (results, fs)
  | (i, m) :: rest =>
      let r := run m fs in
      run_each rest (<[i := r.1]> results) r.2
  end.

(** Neither [p] nor anything below it is on the disk. *)
Definition absent (fs : gmap Path node) (p : Path) : Prop :=
  ∀ q, p `prefix_of` q → fs !! q = None.

(** No file sits where [p] or one of its ancestors should be. *)
Definition unobstructed (fs : gmap Path node) (p : Path) : Prop :=
  ∀ q content, q `prefix_of` p → fs !! q ≠ Some (FileNode content).

(** A file that decodes, has pixels and can be encoded, and whose patient
    folder is [patient_folder]. *)
Definition convertible (w : World) (patient_folder : string)
  (dicom_path : Path) : Prop :=
  ∃ dataset a img,
    dcmread w dicom_path = inr dataset
    ∧ PixelData dataset = true
    ∧ get_patient_folder dicom_path 2 = inr patient_folder
    ∧ pixel_array dataset = inr a
    ∧ normalize a = inr img
    ∧ fromarray_error w img = None
    ∧ jpeg_error w img = None.

(** A program that ends after at most [n] disk operations, whatever they
    answer. *)
Inductive ends_within {A} : nat → prog A → Prop :=
| ends_ret n a : ends_within n (Ret a)
| ends_mkdir n p k :
    (∀ r, ends_within n (k r)) → ends_within (S n) (Mkdir p k)
| ends_glob n p k :
    (∀ r, ends_within n (k r)) → ends_within (S n) (Glob p k)
| ends_save n p picture k :
    (∀ r, ends_within n (k r)) → ends_within (S n) (Save p picture k).

(** What holds of a pool at every moment of an [executor.map] over
    [items]: tasks are taken in submission order, each taken task is inside
    a worker or done, and what a worker holds or a future stores belongs to
    the item the future was made for. *)
Record pool_inv (fn : Path → prog string) (items : list Path) (st : pool)
  : Prop := {
  inv_started : started st = seq 0 (length (started st));
  inv_queue :
    queue st = drop (length (started st)) (imap (λ i item, (i, fn item)) items);
  inv_bound : (length (started st) ≤ length items)%nat;
  inv_accounted : ∀ i, (i < length (started st))%nat →
    is_Some (futures st !! i) ∨ ∃ w m, workers st !! w = Some (Some (i, m));
  inv_worker : ∀ w i m, workers st !! w = Some (Some (i, m)) →
    ∃ item, items !! i = Some item ∧ ∀ s, may_return m s → may_return (fn item) s;
  inv_future : ∀ i s, futures st !! i = Some s →
    ∃ item, items !! i = Some item ∧ may_return (fn item) s;
}.

(** The steps a worker needs at most for what it holds: one for each disk
    operation left and one to deliver the result. *)
Definition job_work (job : option (nat * prog string)) (b : nat) : Prop :=
  match job with
  | None => b = 0%nat
  | Some (_, m) => ∃ n, ends_within n m ∧ b = S n
  end.

(** [pool_work st P]: at most [P] steps that do something are left before
    the pool is at rest, a queued task counting five. *)
Definition pool_work (st : pool) (P : nat) : Prop :=
  ∃ bounds, Forall2 job_work (workers st) bounds
            ∧ Forall (λ job, ends_within 3 job.2) (queue st)
            ∧ P = (5 * length (queue st) + sum_list bounds)%nat.

(** Worker [v] has nothing left to do, now and later. *)
Definition retired (v : nat) (st : pool) : Prop :=
  workers st !! v = Some None ∧ queue st = [].

(** What links a pool to the disk operations [log] that led to it: a task
    is in one place only, what a worker holds is what is left of the
    task of its item after the answers the task got, and what a future
    stores is what the task of its item returns on those answers. *)
Record pool_traced (fn : Path → prog string) (items : list Path) (st : pool)
  (log : list (nat * answer)) : Prop := {
  traced_worker : ∀ v i m, workers st !! v = Some (Some (i, m)) →
    (i < length (started st))%nat
    ∧ futures st !! i = None
    ∧ (∀ v' m', workers st !! v' = Some (Some (i, m')) → v' = v)
    ∧ ∃ item, items !! i = Some item
              ∧ ∀ more, replay (fn item) (answers_to i log ++ more)
                        = replay m more;
  traced_future : ∀ i s, futures st !! i = Some s →
    (i < length (started st))%nat
    ∧ ∃ item, items !! i = Some item
              ∧ replay (fn item) (answers_to i log) = Some s;
  traced_queued : ∀ i, (length (started st) ≤ i)%nat → answers_to i log = [];
}.

(** The [.jpg] entries of [folder] are exactly the first [k] numbered
    names, and no file is in the way of the folder. *)
Definition numbered (fs : gmap Path node) (folder : Path) (k : nat) : Prop :=
  unobstructed fs folder
  ∧ ∀ q, jpg_in folder q →
         (is_Some (fs !! q) ↔ ∃ i, (i < k)%nat ∧ q = folder ++ [jpg_name i]).

(** The float64 value line 68 computes for a pixel at distance [x] from the
    minimum in an array of spread [d], when neither subtraction wraps. *)
Definition scaled (x d : Z) : Q :=
  (round_binary64
     (round_binary64 (round_binary64 (inject_Z x) / round_binary64 (inject_Z d))
      * round_binary64 (inject_Z 255)))%Q.

(** Every directory of the tree lists a name once, as a file system
    does. *)
Fixpoint unique_names (d : directory) : Prop :=
  match d with
  | Directory children =>
      NoDup children.*1
      ∧ foldr (λ c rest, match c.2 with
                         | Subdir sub => unique_names sub ∧ rest
                         | _ => rest
                         end) True children
  end.

(** What lines 67 to 72 make of a decoded file: the picture handed to
    [save], or the exception of the first step that fails (reading the
    pixel array, rescaling it, wrapping it into an image). *)
Definition image_stage (w : World) (dataset : Dataset) : exn + u8array :=
  match pixel_array dataset with
  | inl e => inl e
  | inr a =>
      match normalize a with
      | inl e => inl e
      | inr img => Image_fromarray w img
      end
  end.

(** What lines 67 to 73 make of a decoded file, the encoder included: the
    picture that goes into the file, or the exception of the first step
    that fails (reading the pixel array, rescaling it, wrapping it into an
    image, encoding it). *)
Definition pixel_stage (w : World) (dataset : Dataset) : exn + u8array :=
  match pixel_array dataset with
  | inl e => inl e
  | inr a =>
      match normalize a with
      | inl e => inl e
      | inr img =>
          match fromarray_error w img with
          | Some e => inl e
          | None =>
              match jpeg_error w img with
              | Some e => inl e
              | None => inr img
              end
          end
      end
  end.

(** A file with pixel data whose patient folder resolves to
    [patient_folder]. *)
Definition resolves (w : World) (dicom_path : Path) (dataset : Dataset)
  (patient_folder : string) : Prop :=
  dcmread w dicom_path = inr dataset
  ∧ PixelData dataset = true
  ∧ get_patient_folder dicom_path 2 = inr patient_folder.

(** A program whose directory and file operations all lie at or below
    [root]. *)
Inductive confined {A} (root : Path) : prog A → Prop :=
| confined_ret a : confined root (Ret a)
| confined_mkdir p k :
    root `prefix_of` p → (∀ r, confined root (k r)) →
    confined root (Mkdir p k)
| confined_glob p k :
    (∀ r, confined root (k r)) → confined root (Glob p k)
| confined_save p picture k :
    root `prefix_of` p → p ≠ root → (∀ r, confined root (k r)) →
    confined root (Save p picture k).

(** How a disk may differ from an earlier one when only programs confined
    to [root] have run: nothing is gone, directories are still
    directories, nothing changed away from [root] and its ancestors, and
    new files lie below [root]. *)
Record grown (root : Path) (fs fs' : gmap Path node) : Prop := {
  grown_kept : ∀ q, is_Some (fs !! q) → is_Some (fs' !! q);
  grown_dirs : ∀ q, fs !! q = Some DirNode → fs' !! q = Some DirNode;
  grown_elsewhere : ∀ q, ¬ q `prefix_of` root → ¬ root `prefix_of` q →
                         fs' !! q = fs !! q;
  grown_files : ∀ q content, fs' !! q = Some (FileNode content) →
                             fs !! q = Some (FileNode content)
                             ∨ (root `prefix_of` q ∧ q ≠ root);
}.

(** Every task of the pool, queued or under way, is confined to [root]. *)
Definition pool_confined (root : Path) (st : pool) : Prop :=
  Forall (λ job, confined root job.2) (queue st)
  ∧ ∀ w i m, workers st !! w = Some (Some (i, m)) → confined root m.

(** ** Sample inputs

    A small input tree with two images of one patient, a file without
    pixel data and a file pydicom cannot read, and the arrays used to run
    the pixel arithmetic. *)

Module Samples.

Definition gradient : ndarray :=
  {| arr_dtype := UInt8; arr_shape := [2%nat; 2%nat];
     arr_data := [0; 1; 2; 3] |}.

(** A signed image whose spread, 40000, does not fit int16. *)
Definition wide_signed : ndarray :=
  {| arr_dtype := Int16; arr_shape := [2%nat; 2%nat];
     arr_data := [-20000; -19800; -19700; 20000] |}.

(** An image of one grey level. *)
Definition flat : ndarray :=
  {| arr_dtype := UInt16; arr_shape := [2%nat; 2%nat];
     arr_data := [7; 7; 7; 7] |}.

Definition series : Path := ["in"; "patientA"; "study"; "series"].

Definition world : World :=
  {| dcmread := λ p,
       if decide (name p = "bad") then
         inl (Exception "InvalidDicomError" "not a DICOM file")
       else if decide (name p = "nopix") then
         inr {| PixelData := false;
                pixel_array := inl (Exception "AttributeError" "PixelData") |}
       else inr {| PixelData := true; pixel_array := inr gradient |};
     fromarray_error := λ _, None;
     jpeg_error := λ _, None |}.

Definition tree : directory :=
  Directory
    [("patientA",
      Subdir (Directory
        [("study",
          Subdir (Directory
            [("series",
              Subdir (Directory
                [("img1", File); ("img2", File); ("nopix", File);
                 ("bad", File);
                 ("deeper", Subdir (Directory [("img3", File)]))]));
             ("notes", File)]))]));
     ("readme", File)].

Definition two_images : list Path := [series ++ ["img1"]; series ++ ["img2"]].

Definition three_files : list Path := two_images ++ [series ++ ["bad"]].

(** Two workers: the first takes the first file and then stands still
    while the second converts the second file from start to end. *)
Definition second_first : list nat :=
  [0; 1; 1; 1; 1; 1; 0; 0; 0; 0]%nat.

(** The picture the sample array becomes. *)
Definition gradient_image : u8array :=
  {| u8_shape := [2%nat; 2%nat];
     u8_data := [Some 0; Some 85; Some 170; Some 255] |}.

(** The sample world with an encoder that refuses every picture. *)
Definition world_unencodable : World :=
  {| dcmread := dcmread world;
     fromarray_error := λ _, None;
     jpeg_error := λ _, Some (Exception "OSError" "encoder error") |}.

(** The sample world with a Pillow that takes no array. *)
Definition world_no_image : World :=
  {| dcmread := dcmread world;
     fromarray_error := λ _, Some (Exception "TypeError"
                                     "Cannot handle this data type");
     jpeg_error := λ _, None |}.

(** A disk on which a regular file sits where the patient folder should
    be. *)
Definition blocked : gmap Path node :=
  {[ ["out"; "patientA"] := FileNode gradient_image ]}.

(** A disk on which the patient folder holds one picture, under the name
    the count of one leads to. *)
Definition taken : gmap Path node :=
  {[ ["out"; "patientA"; "01.jpg"] := FileNode {| u8_shape := [];
                                                   u8_data := [] |} ]}.


(** A schedule that also names workers the pool does not have. *)
Definition with_strangers : list nat :=
  [0; 3; 0; 0; 1; 0; 0; 2; 0; 0; 0; 0; 0]%nat.

(** An array without elements. *)
Definition no_pixels : ndarray :=
  {| arr_dtype := UInt16; arr_shape := [0%nat; 4%nat]; arr_data := [] |}.

End Samples.
(** * Theorems *)

(** ** File discoverer *)

Section Discoverer.

(** Induction over a directory tree: the property holds for a directory as
    soon as it holds for each of its subdirectories. *)
Lemma directory_tree_ind (P : directory → Prop) :
  (∀ children,
      Forall (λ c, match c.2 with Subdir sub => P sub | _ => True end) children →
      P (Directory children)) →
  ∀ d, P d.
Proof.
  intros step.
  fix IH 1.
  intros [children]. apply step.
  induction children as [|[n e] rest IHrest]; constructor; [|exact IHrest].
  destruct e; simpl; [exact I | exact I | apply IH].
Qed.

Lemma reaches_nonempty d e : ¬ reaches d [] e.
Proof. intros H. inversion H. Qed.

Lemma find_dicom_files_exact (input_path : Path) (d : directory) (depth : Z)
  (q : Path) :
  q ∈ find_dicom_files input_path d depth ↔
  ∃ rel, q = input_path ++ rel
         ∧ Z.of_nat (length rel) = depth + 1
         ∧ reaches d rel File.
Proof.
  revert input_path depth q.
  induction d as [children IH] using directory_tree_ind.
  intros input_path depth q. simpl.
  destruct (Z.eqb_spec depth 0) as [->|Hne];
    rewrite list_elem_of_In, in_flat_map.
  - split.
    + intros [[n e] [Hin Hq]]. simpl in Hq.
      destruct e; simpl in Hq; try contradiction.
      destruct Hq as [<-|[]].
      exists [n]. split; [done|]. split; [done|].
      constructor. by apply list_elem_of_In.
    + intros (rel & -> & Hlen & Hreach).
      destruct rel as [|n [|m rel]]; simpl in Hlen; try lia.
      inversion Hreach as [? ? ? Hin|? ? ? ? ? ? Hsub]; subst.
      * exists (n, File). split; [by apply list_elem_of_In|]. simpl. by left.
      * by apply reaches_nonempty in Hsub.
  - split.
    + intros [[n e] [Hin Hq]]. simpl in Hq.
      destruct e as [| |sub]; simpl in Hq; try contradiction.
      apply list_elem_of_In in Hin.
      rewrite Forall_forall in IH. specialize (IH _ Hin). simpl in IH.
      apply list_elem_of_In, IH in Hq as (rel & -> & Hlen & Hreach).
      exists (n :: rel). rewrite <- app_assoc.
      split; [done|]. split; [simpl; lia|]. by econstructor.
    + intros (rel & -> & Hlen & Hreach).
      inversion Hreach as [? n ? Hin|? n sub rel' ? Hin Hsub]; subst.
      * simpl in Hlen. lia.
      * exists (n, Subdir sub). split; [by apply list_elem_of_In|]. simpl.
        rewrite Forall_forall in IH. specialize (IH _ Hin). simpl in IH.
        apply list_elem_of_In, IH. exists rel'.
        rewrite <- app_assoc.
        split; [done|]. split; [simpl in Hlen; lia | done].
Qed.

(** C3: the discoverer returns exactly the regular files that lie
    [depth] directory levels below the root.  A path is in the result if
    and only if it is the root followed by [depth + 1] names that lead
    through directories to a regular file; so nothing shallower or deeper
    is returned, entries on the way that are not directories lead nowhere,
    and a branch that ends early gives nothing. *)
Theorem find_dicom_files_exact_depth (input_path : Path) (d : directory)
  (depth : Z) (q : Path) :
  q ∈ find_dicom_files input_path d depth ↔
  ∃ rel, q = input_path ++ rel
         ∧ Z.of_nat (length rel) = depth + 1
         ∧ reaches d rel File.
Proof. apply find_dicom_files_exact. Qed.

(** On the sample tree: the file next to the patient folders, the file
    inside the study and the image one level too deep are left out. *)
Example find_dicom_files_sample :
  find_dicom_files ["in"] Samples.tree 3
  = [ Samples.series ++ ["img1"]; Samples.series ++ ["img2"];
      Samples.series ++ ["nopix"]; Samples.series ++ ["bad"] ].
Proof. reflexivity. Qed.

Lemma height_subdir children n sub :
  (n, Subdir sub) ∈ children → (height sub < height (Directory children))%nat.
Proof.
  induction children as [|[m e] rest IH]; intros Hin.
  - by apply elem_of_nil in Hin.
  - apply elem_of_cons in Hin as [Heq|Hin].
    + inversion Heq; subst. simpl. lia.
    + specialize (IH Hin). simpl in *. destruct e; simpl; lia.
Qed.

Lemma find_within_fold budget input_path depth children acc :
  Forall (λ c, match c.2 with
               | Subdir sub =>
                   find_dicom_files_within budget (input_path ++ [c.1]) sub
                                           (depth - 1)
                   = Some (find_dicom_files (input_path ++ [c.1]) sub
                                            (depth - 1))
               | _ => True
               end) children →
  foldl (λ dicom_files subdir,
           match subdir.2 with
           | Subdir sub =>
               found ← find_dicom_files_within budget
                         (input_path ++ [subdir.1]) sub (depth - 1);
               acc ← dicom_files;
               Some (acc ++ found)
           | _ => dicom_files
           end)
        (Some acc) children
  = Some (acc ++ flat_map (fun subdir =>
                    match subdir.2 with
                    | Subdir sub =>
                        find_dicom_files (input_path ++ [subdir.1]) sub
                                         (depth - 1)
                    | _ => []
                    end) children).
Proof.
  revert acc. induction children as [|[n e] rest IH]; intros acc Hall.
  - simpl. by rewrite app_nil_r.
  - inversion Hall as [|? ? Hc Hrest]; subst. simpl in *.
    destruct e as [| |sub]; simpl.
    + by apply IH.
    + by apply IH.
    + rewrite Hc. simpl. rewrite IH by done. by rewrite app_assoc.
Qed.

Lemma find_within_enough (budget : nat) (input_path : Path) (d : directory)
  (depth : Z) :
  (0 ≤ depth ∧ (Z.to_nat depth < budget)%nat) ∨ (height d < budget)%nat →
  find_dicom_files_within budget input_path d depth
  = Some (find_dicom_files input_path d depth).
Proof.
  revert budget input_path depth.
  induction d as [children IH] using directory_tree_ind.
  intros [|budget] input_path depth Hfuel; [lia|].
  simpl. destruct (Z.eqb_spec depth 0) as [->|Hne]; [done|].
  rewrite find_within_fold; [done|].
  apply Forall_forall. intros [n e] Hin.
  rewrite Forall_forall in IH. specialize (IH _ Hin). simpl in *.
  destruct e as [| |sub]; try done.
  apply IH. apply height_subdir in Hin. simpl in Hin. lia.
Qed.

(** C10: the discoverer terminates on every directory tree and every
    depth that is not negative.  Each nested call lowers the depth by one
    and goes one directory down, so [depth + 1] nested calls are enough,
    and so are as many as the tree has levels; with that budget the
    recursion comes back with the answer. *)
Theorem find_dicom_files_terminates (input_path : Path) (d : directory)
  (depth : Z) :
  0 ≤ depth →
  find_dicom_files_within (S (Nat.min (Z.to_nat depth) (height d)))
                          input_path d depth
  = Some (find_dicom_files input_path d depth).
Proof.
  intros Hdepth. apply find_within_enough.
  destruct (Nat.min_spec (Z.to_nat depth) (height d)) as [[_ ->]|[_ ->]]; lia.
Qed.

End Discoverer.

(** ** Patient path resolver *)

Section Resolver.

Lemma parents_from_length n p : length (parents_from n p) = n.
Proof. revert p. induction n as [|n IH]; intros p; simpl; [done|]. by rewrite IH. Qed.

Lemma parents_length p : length (parents p) = length p.
Proof. apply parents_from_length. Qed.

Lemma parents_from_lookup n p k :
  (k < n)%nat → parents_from n p !! k = Some (Nat.iter k parent (parent p)).
Proof.
  revert p k. induction n as [|n IH]; intros p k Hk; [lia|].
  destruct k as [|k]; simpl; [done|].
  rewrite IH by lia. by rewrite <- Nat.iter_succ_r.
Qed.

Lemma get_patient_folder_short dicom_path levels_up :
  (length (parents dicom_path) ≤ levels_up)%nat →
  get_patient_folder dicom_path levels_up = inl (IndexError levels_up).
Proof.
  intros Hlen. unfold get_patient_folder.
  by rewrite (lookup_ge_None_2 _ _ Hlen).
Qed.

Lemma get_patient_folder_deep dicom_path levels_up :
  (levels_up < length (parents dicom_path))%nat →
  get_patient_folder dicom_path levels_up
  = inr (name (Nat.iter levels_up parent (parent dicom_path))).
Proof.
  intros Hlen. unfold get_patient_folder, parents in *.
  rewrite parents_from_length in Hlen.
  by rewrite parents_from_lookup.
Qed.

Lemma parent_take p : parent p = take (length p - 1) p.
Proof.
  unfold parent. rewrite removelast_firstn_len. f_equal. lia.
Qed.

Lemma iter_parent_take k p : Nat.iter k parent p = take (length p - k) p.
Proof.
  induction k as [|k IH]; simpl.
  - by rewrite Nat.sub_0_r, firstn_all.
  - rewrite IH, parent_take, length_take, take_take. f_equal. lia.
Qed.

Lemma name_take p m :
  (m < length p)%nat → name (take (S m) p) = nth m p "".
Proof.
  unfold name. revert m. induction p as [|c p IH]; intros m Hm; simpl in *.
  - lia.
  - destruct m as [|m]; simpl.
    + by destruct p.
    + rewrite <- IH by lia. simpl. by destruct p; [simpl in Hm; lia|].
Qed.

(** The ancestor the resolver names, as a component of the path. *)
Lemma get_patient_folder_component dicom_path levels_up :
  (levels_up + 2 ≤ length dicom_path)%nat →
  get_patient_folder dicom_path levels_up
  = inr (nth (length dicom_path - 2 - levels_up) dicom_path "").
Proof.
  intros Hlen. rewrite get_patient_folder_deep by (rewrite parents_length; lia).
  f_equal. rewrite iter_parent_take, parent_take, length_take, take_take.
  replace ((length dicom_path - 1) `min` length dicom_path - levels_up)%nat
    with (S (length dicom_path - 2 - levels_up)) by lia.
  rewrite Nat.min_l by lia. apply name_take. lia.
Qed.

(** A file that lies exactly [levels_up + 1] components deep has the root
    as that ancestor, and the root has the empty name. *)
Lemma get_patient_folder_root dicom_path levels_up :
  length dicom_path = S levels_up →
  get_patient_folder dicom_path levels_up = inr "".
Proof.
  intros Hlen. rewrite get_patient_folder_deep by (rewrite parents_length; lia).
  f_equal. rewrite iter_parent_take, parent_take, length_take, take_take.
  replace ((length dicom_path - 1) `min` length dicom_path - levels_up)%nat
    with 0%nat by lia.
  done.
Qed.

(** C5: a path with no more ancestors than the offset (so, in particular,
    with fewer) makes the resolver fail with an [IndexError], and no name,
    empty or wrong, is returned; a path with at least [levels_up + 1]
    ancestors gives the name of the directory [levels_up] levels above the
    one that holds the file, which for a path of at least [levels_up + 2]
    components is the component at that place. *)
Theorem get_patient_folder_by_depth (dicom_path : Path) (levels_up : nat) :
  ((length (parents dicom_path) ≤ levels_up)%nat →
   get_patient_folder dicom_path levels_up = inl (IndexError levels_up))
  ∧ ((levels_up + 1 ≤ length (parents dicom_path))%nat →
     get_patient_folder dicom_path levels_up
     = inr (name (Nat.iter levels_up parent (parent dicom_path))))
  ∧ ((levels_up + 2 ≤ length dicom_path)%nat →
     get_patient_folder dicom_path levels_up
     = inr (nth (length dicom_path - 2 - levels_up) dicom_path "")).
Proof.
  split; [|split]; intros Hlen.
  - by apply get_patient_folder_short.
  - apply get_patient_folder_deep. lia.
  - by apply get_patient_folder_component.
Qed.

End Resolver.

(** ** Single-file converter *)

Section Converter.

Context (w : World).

Lemma contains_middle a s b : contains (a +:+ s +:+ b) s.
Proof. by exists a, b. Qed.

Lemma skip_message_contains p : contains (skip_message p) (str p).
Proof. apply contains_middle. Qed.

Lemma error_message_contains p e : contains (error_message p e) (str p).
Proof. apply contains_middle. Qed.

Lemma run_bind {A B} (m : prog A) (f : A → prog B) fs :
  run (bind m f) fs = run (f (run m fs).1) (run m fs).2.
Proof.
  revert fs. induction m as [a|p k IH|p k IH|p img k IH]; intros fs; simpl; auto.
Qed.

Lemma may_return_bind {A B} (m : prog A) (f : A → prog B) b :
  may_return (bind m f) b ↔ ∃ a, may_return m a ∧ may_return (f a) b.
Proof.
  revert b. induction m as [a|p k IH|p k IH|p img k IH]; intros b; simpl.
  - split.
    + intros H. exists a. split; [constructor | done].
    + intros (a' & Ha & Hb). by inversion Ha; subst.
  - split.
    + intros H. inversion H as [|? ? fs ? Hk| |]; subst.
      apply IH in Hk as (a & Ha & Hb). exists a. split; [by econstructor | done].
    + intros (a & Ha & Hb). inversion Ha as [|? ? fs ? Hk| |]; subst.
      apply (may_mkdir _ _ fs). apply IH. eauto.
  - split.
    + intros H. inversion H as [| |? ? fs ? Hk|]; subst.
      apply IH in Hk as (a & Ha & Hb). exists a. split; [by econstructor | done].
    + intros (a & Ha & Hb). inversion Ha as [| |? ? fs ? Hk|]; subst.
      apply (may_glob _ _ fs). apply IH. eauto.
  - split.
    + intros H. inversion H as [| | |? ? ? fs ? Hk]; subst.
      apply IH in Hk as (a & Ha & Hb). exists a. split; [by econstructor | done].
    + intros (a & Ha & Hb). inversion Ha as [| | |? ? ? fs ? Hk]; subst.
      apply (may_save _ _ _ fs). apply IH. eauto.
Qed.

(** What the converter returns is what its body ends in, an exception
    replaced by the error message for the file. *)
Lemma convert_may_return dicom_path output_base_dir s :
  may_return (convert_dicom_to_jpeg w dicom_path output_base_dir) s ↔
  ∃ r, may_return (convert_body w dicom_path output_base_dir) r
       ∧ s = match r with
             | inl e => error_message dicom_path e
             | inr message => message
             end.
Proof.
  unfold convert_dicom_to_jpeg, try_except. rewrite may_return_bind.
  split; intros (r & Hr & Hs); exists r; (split; [done|]).
  - destruct r; by inversion Hs.
  - destruct r; subst; constructor.
Qed.

End Converter.

Section ConverterResults.

Context (w : World).

Ltac returned H :=
  inversion H; subst; clear H.

(** The messages the body of the converter can end in. *)
Lemma convert_body_messages dicom_path output_base_dir message :
  may_return (convert_body w dicom_path output_base_dir) (inr message) →
  message = skip_message dicom_path
  ∨ ∃ new_filename, message = saved_message new_filename.
Proof.
  unfold convert_body, lift, mkdir, glob, save.
  unfold mbind, mret, raising_bind, raising_ret. simpl.
  destruct (dcmread w dicom_path) as [e|dataset]; simpl;
    [intros H; returned H|].
  destruct (PixelData dataset); simpl;
    [|intros H; returned H; by left].
  destruct (get_patient_folder dicom_path 2) as [e|patient_folder]; simpl;
    [intros H; returned H|].
  intros H. inversion H as [|? ? fs ? Hk| |]; subst; clear H.
  destruct (of_error _); simpl in Hk; [returned Hk|].
  inversion Hk as [| |? ? fs2 ? Hk2|]; subst; clear Hk. simpl in Hk2.
  destruct (pixel_array dataset) as [e|a]; simpl in Hk2; [returned Hk2|].
  destruct (normalize a) as [e|a']; simpl in Hk2; [returned Hk2|].
  destruct (Image_fromarray w a') as [e|img]; simpl in Hk2; [returned Hk2|].
  inversion Hk2 as [| | |? ? ? fs3 ? Hk3]; subst; clear Hk2.
  destruct (of_error _); simpl in Hk3; returned Hk3.
  right. eauto.
Qed.

Lemma message_nonempty prefix rest :
  prefix ≠ "" → prefix +:+ rest ≠ "".
Proof. destruct prefix; [done|]. by intros _. Qed.

Lemma convert_result_nonempty dicom_path output_base_dir s :
  may_return (convert_dicom_to_jpeg w dicom_path output_base_dir) s → s ≠ "".
Proof.
  intros (r & Hr & ->)%convert_may_return.
  destruct r as [e|message].
  - by apply message_nonempty.
  - apply convert_body_messages in Hr as [->|[f ->]]; by apply message_nonempty.
Qed.

(** A file pydicom cannot read gives the error message for it. *)
Lemma convert_decode_error dicom_path output_base_dir e :
  dcmread w dicom_path = inl e →
  convert_dicom_to_jpeg w dicom_path output_base_dir
  = Ret (error_message dicom_path e).
Proof.
  intros H. unfold convert_dicom_to_jpeg, try_except, convert_body, lift.
  unfold mbind, raising_bind. by rewrite H.
Qed.

(** So does a file that lies too close to the root. *)
Lemma convert_path_depth_error dicom_path output_base_dir dataset e :
  dcmread w dicom_path = inr dataset →
  PixelData dataset = true →
  get_patient_folder dicom_path 2 = inl e →
  convert_dicom_to_jpeg w dicom_path output_base_dir
  = Ret (error_message dicom_path e).
Proof.
  intros Hread Hpix Hfolder.
  unfold convert_dicom_to_jpeg, try_except, convert_body, lift.
  unfold mbind, raising_bind.
  rewrite Hread. simpl. rewrite Hpix. simpl. by rewrite Hfolder.
Qed.

(** C7: a file whose decoded object has no pixel data gives the skip
    message, which names the file, and the conversion is a program without
    a single disk operation: no directory is made, no file written, the
    disk stays as it is. *)
Theorem convert_skips_without_pixel_data (dicom_path output_base_dir : Path)
  (dataset : Dataset) (fs : gmap Path node) :
  dcmread w dicom_path = inr dataset →
  PixelData dataset = false →
  convert_dicom_to_jpeg w dicom_path output_base_dir
  = Ret (skip_message dicom_path)
  ∧ run (convert_dicom_to_jpeg w dicom_path output_base_dir) fs
    = (skip_message dicom_path, fs)
  ∧ contains (skip_message dicom_path) (str dicom_path).
Proof.
  intros Hread Hpix.
  assert (convert_dicom_to_jpeg w dicom_path output_base_dir
          = Ret (skip_message dicom_path)) as Heq.
  { unfold convert_dicom_to_jpeg, try_except, convert_body, lift.
    unfold mbind, raising_bind.
    rewrite Hread. simpl. by rewrite Hpix. }
  split; [done|]. split; [by rewrite Heq | apply skip_message_contains].
Qed.

End ConverterResults.

(** ** Numbering of the output files *)

Section Numbering.

Lemma format_02d_digits n :
  option_map Nat.of_uint (NilEmpty.uint_of_string (format_02d n)) = Some n.
Proof.
  unfold format_02d, str_nat.
  destruct (_ <? 2)%nat.
  - change ("0" +:+ NilEmpty.string_of_uint (Nat.to_uint n))
      with (NilEmpty.string_of_uint (Decimal.D0 (Nat.to_uint n))).
    rewrite NilEmpty.usu. simpl. f_equal.
    change (Nat.of_uint (Decimal.D0 (Nat.to_uint n)))
      with (Nat.of_uint (Nat.to_uint n)).
    apply Unsigned.of_to.
  - rewrite NilEmpty.usu. simpl. f_equal. apply Unsigned.of_to.
Qed.

Lemma format_02d_inj a b : format_02d a = format_02d b → a = b.
Proof.
  intros H. pose proof (format_02d_digits a) as Ha.
  rewrite H, format_02d_digits in Ha. congruence.
Qed.

(** A decimal numeral of fewer than two digits is below ten. *)
Lemma short_uint_small (d : Decimal.uint) :
  (String.length (NilEmpty.string_of_uint d) < 2)%nat → (Nat.of_uint d < 10)%nat.
Proof.
  destruct d as [|d|d|d|d|d|d|d|d|d|d]; [vm_compute; lia|..];
    (destruct d; [intros _; vm_compute; lia|simpl; lia..]).
Qed.

(** The format pads the numbers below ten, and only those. *)
Lemma format_02d_padding n :
  format_02d n = if (n <? 10)%nat then "0" +:+ str_nat n else str_nat n.
Proof.
  destruct (Nat.ltb_spec n 10) as [Hn|Hn].
  - do 10 (destruct n as [|n]; [done|]). lia.
  - unfold format_02d.
    destruct (String.length (str_nat n) <? 2)%nat eqn:Hlen; [|done].
    apply Nat.ltb_lt, short_uint_small in Hlen.
    rewrite DecimalNat.Unsigned.of_to in Hlen. lia.
Qed.

Lemma length_append s t :
  String.length (s +:+ t) = (String.length s + String.length t)%nat.
Proof. induction s as [|c s IH]; simpl; [done|]. by rewrite IH. Qed.

Lemma append_inj_r s t u : s +:+ u = t +:+ u → s = t.
Proof.
  revert t. induction s as [|c s IH]; intros [|d t] H; simpl in *; try done.
  - apply (f_equal String.length) in H.
    rewrite ?length_append in H. simpl in H. rewrite ?length_append in H. lia.
  - apply (f_equal String.length) in H.
    rewrite ?length_append in H. simpl in H. rewrite ?length_append in H. lia.
  - injection H as -> H. f_equal. by apply IH.
Qed.

Lemma endswith_append s suffix : endswith (s +:+ suffix) suffix = true.
Proof.
  induction s as [|c s IH]; simpl.
  - destruct suffix; simpl; [done|]. by rewrite Ascii.eqb_refl, String.eqb_refl.
  - rewrite IH. apply orb_true_r.
Qed.

Lemma jpg_name_inj i j : jpg_name i = jpg_name j → i = j.
Proof. intros H. by apply format_02d_inj, (append_inj_r _ _ ".jpg"). Qed.

Lemma jpg_name_nonempty i : jpg_name i ≠ "".
Proof.
  unfold jpg_name. intros H. apply (f_equal String.length) in H.
  rewrite length_append in H. simpl in H. lia.
Qed.

Lemma joinpath_jpg folder i : folder // jpg_name i = folder ++ [jpg_name i].
Proof. unfold joinpath. rewrite decide_False; [done | apply jpg_name_nonempty]. Qed.

Lemma parent_child folder c : parent (folder ++ [c]) = folder.
Proof. apply removelast_last. Qed.

Lemma name_child folder c : name (folder ++ [c]) = c.
Proof. apply last_last. Qed.

Lemma jpg_in_child folder i : jpg_in folder (folder ++ [jpg_name i]).
Proof.
  split; [by destruct folder|]. split; [apply parent_child|].
  rewrite name_child. apply endswith_append.
Qed.

Lemma parent_length q : q ≠ [] → S (length (parent q)) = length q.
Proof.
  intros Hq. destruct (exists_last Hq) as (q' & c & ->).
  rewrite parent_child, length_app. simpl. lia.
Qed.

(** Nothing directly inside a folder is the folder or one of its
    ancestors. *)
Lemma jpg_in_not_prefix folder q :
  jpg_in folder q → ¬ q `prefix_of` folder.
Proof.
  intros (Hq & Hparent & _) Hpre.
  apply prefix_length in Hpre. apply parent_length in Hq.
  rewrite Hparent in Hq. lia.
Qed.

Lemma is_directory_spec fs p :
  is_directory fs p = true ↔ p = [] ∨ fs !! p = Some DirNode.
Proof.
  unfold is_directory. destruct p as [|c p]; [by split; auto|].
  repeat case_match; split; intros Hd; try done; try (by right);
    destruct Hd; congruence.
Qed.

End Numbering.

Section Disk.

Implicit Types (fs : gmap Path node) (p q folder : Path).

(** Making directories changes the disk only at the path made and its
    ancestors, where it puts directories. *)
Lemma mkdir_from_ok made rest fs :
  is_directory fs made = true →
  (∀ k content, (0 < k ≤ length rest)%nat →
                fs !! (made ++ take k rest) ≠ Some (FileNode content)) →
  ∃ fs1, mkdir_from made rest fs = inr fs1
         ∧ is_directory fs1 (made ++ rest) = true
         ∧ ∀ q, fs1 !! q = fs !! q
                ∨ (fs1 !! q = Some DirNode ∧ q `prefix_of` made ++ rest).
Proof.
  revert made fs. induction rest as [|c rest IH]; intros made fs Hdir Hfree.
  - exists fs. rewrite app_nil_r. simpl. by auto.
  - simpl.
    assert (∀ k, made ++ take (S k) (c :: rest) = (made ++ [c]) ++ take k rest)
      as Htake by (intros k; simpl; by rewrite <- app_assoc).
    assert (made ++ c :: rest = (made ++ [c]) ++ rest) as Hfolder
      by (by rewrite <- app_assoc).
    pose proof (Hfree 1%nat) as H1. simpl in H1. rewrite take_0 in H1.
    destruct (fs !! (made ++ [c])) as [[|content]|] eqn:Hq.
    + destruct (IH (made ++ [c]) fs) as (fs1 & Hmk & Hd & Hsame).
      { apply is_directory_spec. by right. }
      { intros k content Hk. rewrite <- Htake. apply Hfree. simpl. lia. }
      exists fs1. rewrite Hfolder. by auto.
    + exfalso. apply (H1 content); [simpl; lia | done].
    + destruct (IH (made ++ [c]) (<[made ++ [c] := DirNode]> fs))
        as (fs1 & Hmk & Hd & Hsame).
      { apply is_directory_spec. right. apply lookup_insert_eq. }
      { intros k content Hk. rewrite lookup_insert_ne.
        - rewrite <- Htake. apply Hfree. simpl. lia.
        - intros Heq. apply (f_equal length) in Heq.
          rewrite !length_app, length_take in Heq. simpl in Heq, Hk. lia. }
      exists fs1. rewrite Hfolder. split; [done|]. split; [done|].
      intros q. destruct (Hsame q) as [Hq1|Hq1]; [|by right].
      destruct (decide (q = made ++ [c])) as [->|Hne].
      * right. rewrite Hq1, lookup_insert_eq. split; [done|].
        by apply prefix_app_r.
      * left. by rewrite Hq1, lookup_insert_ne.
Qed.

Lemma unobstructed_take fs folder k content :
  unobstructed fs folder → fs !! take k folder ≠ Some (FileNode content).
Proof. intros Hfree. apply Hfree. apply prefix_take. Qed.

Lemma do_mkdir_ok fs folder :
  unobstructed fs folder →
  ∃ fs1, do_mkdir fs folder = (None, fs1)
         ∧ is_directory fs1 folder = true
         ∧ ∀ q, fs1 !! q = fs !! q
                ∨ (fs1 !! q = Some DirNode ∧ q `prefix_of` folder).
Proof.
  intros Hfree.
  destruct (mkdir_from_ok [] folder fs) as (fs1 & Hmk & Hd & Hsame).
  - done.
  - intros k content _. simpl. by apply unobstructed_take.
  - exists fs1. unfold do_mkdir. by rewrite Hmk.
Qed.

Lemma elem_of_do_glob fs folder q :
  q ∈ do_glob fs folder ↔ jpg_in folder q ∧ is_Some (fs !! q).
Proof.
  unfold do_glob. rewrite list_elem_of_fmap. split.
  - intros ([q' x] & -> & Hin). simpl.
    apply elem_of_map_to_list, map_lookup_filter_Some in Hin as [Hx Hjpg].
    split; [done | by eexists].
  - intros [Hjpg [x Hx]]. exists (q, x). split; [done|].
    by apply elem_of_map_to_list, map_lookup_filter_Some.
Qed.

Lemma do_glob_NoDup fs folder : NoDup (do_glob fs folder).
Proof. apply NoDup_fst_map_to_list. Qed.

Lemma do_save_ok fs folder c img :
  is_directory fs folder = true → fs !! (folder ++ [c]) = None →
  do_save fs (folder ++ [c]) (inr img)
  = (None, <[folder ++ [c] := FileNode img]> fs).
Proof.
  intros Hdir Hnew. unfold do_save.
  assert (is_directory fs (folder ++ [c]) = false) as ->.
  { apply not_true_is_false.
    intros [H|H]%is_directory_spec; [by destruct folder | congruence]. }
  by rewrite parent_child, Hdir.
Qed.

End Disk.

Section Serial.

Context (w : World).

Lemma numbered_glob fs folder k :
  numbered fs folder k →
  do_glob fs folder ≡ₚ (λ i, folder ++ [jpg_name i]) <$> seq 0 k.
Proof.
  intros [_ Hset]. apply NoDup_Permutation.
  - apply do_glob_NoDup.
  - apply NoDup_fmap_2; [|apply NoDup_seq].
    intros i j Heq. by apply app_inj_1 in Heq as [_ [= ?%jpg_name_inj]].
  - intros q. rewrite elem_of_do_glob, list_elem_of_fmap. split.
    + intros [Hjpg Hq]. apply Hset in Hq as (i & Hi & ->); [|done].
      exists i. split; [done|]. apply elem_of_seq. lia.
    + intros (i & -> & Hi%elem_of_seq).
      split; [apply jpg_in_child|]. apply Hset; [apply jpg_in_child|].
      exists i. split; [lia | done].
Qed.

Lemma numbered_count fs folder k :
  numbered fs folder k → length (do_glob fs folder) = k.
Proof.
  intros H%numbered_glob. by rewrite H, length_fmap, length_seq.
Qed.

Lemma absent_numbered fs folder :
  absent fs folder → unobstructed fs folder → numbered fs folder 0.
Proof.
  intros Habs Hfree. split; [done|]. intros q (Hq & Hparent & _). split.
  - intros [x Hx]. rewrite Habs in Hx; [done|].
    destruct (exists_last Hq) as (q' & c & ->).
    rewrite parent_child in Hparent. subst. by apply prefix_app_r.
  - intros (i & Hi & _). lia.
Qed.

Lemma numbered_fresh fs folder k :
  numbered fs folder k → fs !! (folder ++ [jpg_name k]) = None.
Proof.
  intros [_ Hset]. apply eq_None_not_Some. intros Hq.
  apply Hset in Hq as (i & Hi & Heq); [|apply jpg_in_child].
  apply app_inj_1 in Heq as [_ [= ?%jpg_name_inj]]; [lia | done].
Qed.

Lemma numbered_mkdir fs fs1 folder k :
  (∀ q, fs1 !! q = fs !! q
        ∨ (fs1 !! q = Some DirNode ∧ q `prefix_of` folder)) →
  numbered fs folder k → numbered fs1 folder k.
Proof.
  intros Hsame [Hfree Hset]. split.
  - intros q content Hpre. destruct (Hsame q) as [->|[-> _]]; [|done].
    by apply Hfree.
  - intros q Hjpg. rewrite <- Hset by done.
    destruct (Hsame q) as [->|[_ Hpre]]; [done|].
    by apply jpg_in_not_prefix in Hjpg.
Qed.

Lemma numbered_save fs folder k img :
  numbered fs folder k →
  numbered (<[folder ++ [jpg_name k] := FileNode img]> fs) folder (S k).
Proof.
  intros [Hfree Hset]. split.
  - intros q content Hpre. rewrite lookup_insert_ne; [by apply Hfree|].
    intros <-. apply prefix_length in Hpre. rewrite length_app in Hpre.
    simpl in Hpre. lia.
  - intros q Hjpg.
    destruct (decide (q = folder ++ [jpg_name k])) as [->|Hne].
    + rewrite lookup_insert_eq. split; [|by eexists].
      intros _. exists k. split; [lia | done].
    + rewrite lookup_insert_ne by done. rewrite Hset by done. split.
      * intros (i & Hi & ->). exists i. split; [lia | done].
      * intros (i & Hi & ->). exists i. split; [|done].
        destruct (decide (i = k)) as [->|]; [done | lia].
Qed.

(** One conversion into a folder that holds the first [k] numbered files:
    it writes the file numbered [k]. *)
Lemma convert_numbered patient_folder dicom_path output_base_dir fs k :
  convertible w patient_folder dicom_path →
  numbered fs (output_base_dir // patient_folder) k →
  ∃ fs', run (convert_dicom_to_jpeg w dicom_path output_base_dir) fs
         = (saved_message (output_base_dir // patient_folder ++ [jpg_name k]),
            fs')
         ∧ numbered fs' (output_base_dir // patient_folder) (S k).
Proof.
  intros (dataset & a & img & Hread & Hpix & Hfolder & Harr & Hnorm
          & Hfrom & Hjpeg) Hnum.
  set (folder := output_base_dir // patient_folder) in *.
  pose proof (numbered_count _ _ _ Hnum) as Hcount.
  destruct Hnum as [Hfree Hset].
  destruct (do_mkdir_ok fs folder Hfree) as (fs1 & Hmk & Hdir & Hsame).
  unfold convert_dicom_to_jpeg, try_except, convert_body, lift, mkdir, glob,
    save, encode, Image_fromarray.
  unfold mbind, mret, raising_bind, raising_ret.
  rewrite Hread. simpl. rewrite Hpix. simpl. rewrite Hfolder. simpl.
  fold folder. rewrite Hmk. simpl.
  pose proof (numbered_mkdir _ _ _ _ Hsame (conj Hfree Hset)) as Hnum1.
  rewrite (numbered_count _ _ _ Hnum1).
  rewrite Harr. simpl. rewrite Hnorm. simpl. rewrite Hfrom. simpl.
  rewrite Hjpeg. simpl.
  fold (jpg_name k). rewrite joinpath_jpg.
  rewrite do_save_ok by (done || by apply numbered_fresh). simpl.
  eexists. split; [done|]. by apply numbered_save.
Qed.

Lemma convert_each_numbered patient_folder output_base_dir dicom_files fs k :
  Forall (convertible w patient_folder) dicom_files →
  numbered fs (output_base_dir // patient_folder) k →
  (convert_each w output_base_dir dicom_files fs).1
  = (λ i, saved_message (output_base_dir // patient_folder ++ [jpg_name i]))
      <$> seq k (length dicom_files)
  ∧ numbered (convert_each w output_base_dir dicom_files fs).2
             (output_base_dir // patient_folder) (k + length dicom_files).
Proof.
  intros Hall. revert fs k.
  induction Hall as [|d files Hd _ IH]; intros fs k Hnum; simpl.
  - by rewrite Nat.add_0_r.
  - destruct (convert_numbered _ _ output_base_dir _ _ Hd Hnum)
      as (fs' & Hrun & Hnum').
    rewrite Hrun. simpl.
    destruct (IH fs' (S k) Hnum') as [-> Hfinal].
    split; [done|]. by rewrite Nat.add_succ_r.
Qed.

(** The disk a conversion starts on is the one the conversions before it
    left. *)
Lemma convert_each_snoc output_base_dir dicom_files d fs :
  convert_each w output_base_dir (dicom_files ++ [d]) fs
  = let before := convert_each w output_base_dir dicom_files fs in
    let r := run (convert_dicom_to_jpeg w d output_base_dir) before.2 in
    (before.1 ++ [r.1], r.2).
Proof.
  revert fs. induction dicom_files as [|d' files IH]; intros fs; simpl; [done|].
  by rewrite IH.
Qed.

(** C4: [N] files of one patient folder that did not exist, converted one
    after the other.  The results report the files [00.jpg], [01.jpg], ...
    in order: the number of the file in decimal, with one zero in front
    when it is below ten, so two digits up to 99.  The names are all
    different; the folder ends up holding exactly these [N] files; and the
    number of each file is the count of [.jpg] entries in the folder when
    its conversion starts. *)
Theorem serial_numbering (patient_folder : string) (output_base_dir : Path)
  (dicom_files : list Path) (fs : gmap Path node) :
  Forall (convertible w patient_folder) dicom_files →
  absent fs (output_base_dir // patient_folder) →
  unobstructed fs (output_base_dir // patient_folder) →
  let folder := output_base_dir // patient_folder in
  let N := length dicom_files in
  let number (i : nat) :=
    if (i <? 10)%nat then "0" +:+ str_nat i else str_nat i in
  (convert_each w output_base_dir dicom_files fs).1
  = (λ i, "✔ Saved: " +:+ str (folder ++ [number i +:+ ".jpg"])) <$> seq 0 N
  ∧ take 2 (convert_each w output_base_dir dicom_files fs).1
    = take N ["✔ Saved: " +:+ str (folder ++ ["00.jpg"]);
              "✔ Saved: " +:+ str (folder ++ ["01.jpg"])]
  ∧ NoDup ((λ i, number i +:+ ".jpg") <$> seq 0 N)
  ∧ do_glob (convert_each w output_base_dir dicom_files fs).2 folder
    ≡ₚ (λ i, folder ++ [number i +:+ ".jpg"]) <$> seq 0 N
  ∧ ∀ i, (i ≤ N)%nat →
         length (do_glob (convert_each w output_base_dir
                                       (take i dicom_files) fs).2 folder) = i.
Proof.
  intros Hall Habs Hfree folder N number.
  assert (∀ i, jpg_name i = number i +:+ ".jpg") as Hname.
  { intros i. unfold jpg_name, number. by rewrite format_02d_padding. }
  pose proof (absent_numbered _ _ Habs Hfree) as Hnum.
  destruct (convert_each_numbered _ output_base_dir _ _ _ Hall Hnum)
    as [Hres Hfinal].
  fold folder in Hres, Hfinal.
  assert ((convert_each w output_base_dir dicom_files fs).1
          = (λ i, "✔ Saved: " +:+ str (folder ++ [number i +:+ ".jpg"]))
              <$> seq 0 N) as Hres'.
  { rewrite Hres. apply list_fmap_ext. intros _ i _.
    unfold saved_message. by rewrite Hname. }
  split; [exact Hres'|]. split; [|split; [|split]].
  - rewrite Hres'. generalize N. intros [|[|N']]; [done|done|].
    simpl. by rewrite take_0, take_nil.
  - apply NoDup_fmap_2; [|apply NoDup_seq].
    intros i j. rewrite <- !Hname. apply jpg_name_inj.
  - apply numbered_glob in Hfinal. rewrite Hfinal.
    assert ((λ i, folder ++ [jpg_name i]) <$> seq 0 (0 + length dicom_files)
            = (λ i, folder ++ [number i +:+ ".jpg"]) <$> seq 0 N) as ->; [|done].
    apply list_fmap_ext. intros _ i _. by rewrite Hname.
  - intros i Hi.
    destruct (convert_each_numbered _ output_base_dir (take i dicom_files)
                _ _ (Forall_take _ i _ Hall) Hnum) as [_ Hat].
    apply numbered_count in Hat. fold folder in Hat.
    rewrite Hat, length_take. fold N. lia.
Qed.

End Serial.

(** ** Worker pool and orchestrator *)

Section Pool.

Context (fn : Path → prog string) (items : list Path).

Lemma submit_all_inv num_threads fs :
  pool_inv fn items (submit_all fn items num_threads fs).
Proof.
  split; simpl; try done.
  - lia.
  - intros i Hi. lia.
  - intros w i m H. apply lookup_replicate in H as [? _]. done.
Qed.

Lemma queue_head st job rest :
  pool_inv fn items st → queue st = job :: rest →
  ∃ item, items !! length (started st) = Some item
          ∧ job = (length (started st), fn item)
          ∧ rest = drop (S (length (started st)))
                        (imap (λ i item, (i, fn item)) items).
Proof.
  intros Hinv Hq. rewrite (inv_queue _ _ _ Hinv) in Hq.
  assert (imap (λ i item, (i, fn item)) items !! length (started st) = Some job)
    as Hjob.
  { rewrite <- (Nat.add_0_r (length (started st))), <- lookup_drop.
    by rewrite Hq. }
  rewrite list_lookup_imap in Hjob.
  destruct (items !! length (started st)) as [item|] eqn:Hitem; [|done].
  exists item. split; [done|]. simpl in Hjob. injection Hjob as <-.
  split; [done|].
  erewrite drop_S in Hq; [by injection Hq|].
  by rewrite list_lookup_imap, Hitem.
Qed.

Lemma pool_step_inv w st :
  pool_inv fn items st → pool_inv fn items (pool_step w st).
Proof.
  intros Hinv. unfold pool_step.
  destruct (workers st !! w) as [[[i m]|]|] eqn:Hw; [| |done].
  - (* inside a task *)
    assert (∀ m' fs' futures',
      (∀ s, may_return m' s → may_return m s) →
      (∀ j s, futures st !! j = Some s → futures' !! j = Some s) →
      (∀ j s, futures' !! j = Some s → futures st !! j = Some s) →
      pool_inv fn items
        {| queue := queue st; workers := <[w := Some (i, m')]> (workers st);
           futures := futures'; started := started st; disk := fs' |})
      as Hop.
    { intros m' fs' futures' Hres Hfut1 Hfut2.
      destruct Hinv as [H1 H2 H3 H4 H5 H6].
      split; simpl; try done.
      - intros j Hj. destruct (H4 j Hj) as [[s Hs]|(w' & m'' & Hw')].
        + left. exists s. by apply Hfut1.
        + right. destruct (decide (w' = w)) as [->|Hne].
          * rewrite Hw in Hw'. injection Hw' as -> ->.
            exists w, m'. apply list_lookup_insert_eq.
            by eapply lookup_lt_Some.
          * exists w', m''. by rewrite list_lookup_insert_ne.
      - intros w' j m'' Hw'.
        destruct (decide (w' = w)) as [->|Hne].
        + rewrite list_lookup_insert_eq in Hw' by (by eapply lookup_lt_Some).
          injection Hw' as -> ->.
          destruct (H5 _ _ _ Hw) as (item & Hitem & Hret).
          exists item. split; [done|]. intros s Hs. by apply Hret, Hres.
        + rewrite list_lookup_insert_ne in Hw' by done. by eapply H5.
      - intros j s Hs. apply Hfut2 in Hs. by eapply H6. }
    destruct m as [s|p k|p k|p img k].
    + (* the task is over: its result goes into its future *)
      destruct Hinv as [H1 H2 H3 H4 H5 H6].
      split; simpl; try done.
      * intros j Hj. destruct (decide (j = i)) as [->|Hji].
        { left. rewrite lookup_insert_eq. by eexists. }
        destruct (H4 j Hj) as [[s' Hs']|(w' & m'' & Hw')].
        { left. exists s'. by rewrite lookup_insert_ne. }
        right. exists w', m''.
        destruct (decide (w' = w)) as [->|Hne]; [congruence|].
        by rewrite list_lookup_insert_ne.
      * intros w' j m'' Hw'.
        destruct (decide (w' = w)) as [->|Hne].
        { rewrite list_lookup_insert_eq in Hw' by (by eapply lookup_lt_Some).
          done. }
        rewrite list_lookup_insert_ne in Hw' by done. by eapply H5.
      * intros j s' Hs'. destruct (decide (j = i)) as [->|Hji].
        { rewrite lookup_insert_eq in Hs'. injection Hs' as <-.
          destruct (H5 _ _ _ Hw) as (item & Hitem & Hret).
          exists item. split; [done|]. apply Hret. constructor. }
        rewrite lookup_insert_ne in Hs' by done. by eapply H6.
    + apply Hop; [|done|done]. intros s Hs. by econstructor.
    + apply (Hop (k (do_glob (disk st) p)) (disk st) (futures st)); [|done|done].
      intros s Hs. by econstructor.
    + apply Hop; [|done|done]. intros s Hs. by econstructor.
  - (* idle: take the next task *)
    destruct (queue st) as [|job rest] eqn:Hq; [done|].
    destruct (queue_head _ _ _ Hinv Hq) as (item & Hitem & -> & ->).
    destruct Hinv as [H1 H2 H3 H4 H5 H6].
    split; simpl; rewrite ?length_app; simpl; rewrite ?Nat.add_1_r.
    + rewrite seq_S. simpl. by rewrite <- H1.
    + done.
    + by apply lookup_lt_Some in Hitem.
    + intros j Hj. destruct (decide (j = length (started st))) as [->|Hne].
      * right. exists w, (fn item). apply list_lookup_insert_eq.
        by eapply lookup_lt_Some.
      * destruct (H4 j ltac:(lia)) as [?|(w' & m'' & Hw')]; [by left|].
        right. exists w', m''.
        destruct (decide (w' = w)) as [->|Hnew]; [congruence|].
        by rewrite list_lookup_insert_ne.
    + intros w' j m'' Hw'.
      destruct (decide (w' = w)) as [->|Hne].
      * rewrite list_lookup_insert_eq in Hw' by (by eapply lookup_lt_Some).
        injection Hw' as <- <-. eauto.
      * rewrite list_lookup_insert_ne in Hw' by done. by eapply H5.
    + done.
Qed.

Lemma run_schedule_inv schedule st :
  pool_inv fn items st → pool_inv fn items (run_schedule schedule st).
Proof.
  revert st. induction schedule as [|w schedule IH]; intros st Hinv; [done|].
  simpl. apply IH. by apply pool_step_inv.
Qed.

End Pool.

Section Batch.

Context (fn : Path → prog string) (items : list Path).

Lemma finished_queue st : finished st = true → queue st = [].
Proof. unfold finished. by destruct (queue st). Qed.

Lemma finished_workers st w job :
  finished st = true → workers st !! w = Some job → job = None.
Proof.
  unfold finished. destruct (queue st); [|done].
  rewrite forallb_forall. intros Hall Hw.
  apply list_elem_of_lookup_2, list_elem_of_In, Hall in Hw.
  by destruct job.
Qed.

(** When the pool has come to rest, every task was taken once, in
    submission order, and every future holds a result of its own item. *)
Lemma finished_pool st :
  pool_inv fn items st → finished st = true →
  started st = seq 0 (length items)
  ∧ ∃ results, collect (length items) st = Some results
               ∧ Forall2 (λ item s, may_return (fn item) s) items results.
Proof.
  intros Hinv Hfin.
  assert (length (started st) = length items) as Hall.
  { pose proof (inv_queue _ _ _ Hinv) as Hq.
    rewrite (finished_queue _ Hfin) in Hq.
    pose proof (inv_bound _ _ _ Hinv).
    symmetry in Hq. apply (f_equal length) in Hq.
    rewrite length_drop, length_imap in Hq. simpl in Hq. lia. }
  split; [by rewrite <- Hall; apply (inv_started _ _ _ Hinv)|].
  assert (∀ i, (i < length items)%nat → is_Some (futures st !! i)) as Hdone.
  { intros i Hi. rewrite <- Hall in Hi.
    destruct (inv_accounted _ _ _ Hinv i Hi) as [?|(w & m & Hw)]; [done|].
    by apply (finished_workers _ _ _ Hfin) in Hw. }
  destruct (mapM_is_Some_2 (λ i, futures st !! i) (seq 0 (length items)))
    as [results Hres].
  { apply Forall_forall. intros i Hi. apply Hdone.
    apply list_elem_of_lookup in Hi as [j Hj].
    apply lookup_seq in Hj. lia. }
  exists results. split; [done|].
  apply mapM_Some in Hres.
  apply Forall2_same_length_lookup_2.
  { apply Forall2_length in Hres. by rewrite length_seq in Hres. }
  intros i item s Hitem Hs.
  assert (seq 0 (length items) !! i = Some i) as Hi.
  { apply lookup_seq. split; [done|]. by eapply lookup_lt_Some. }
  pose proof (Forall2_lookup_lr _ _ _ _ _ _ Hres Hi Hs) as Hfut. simpl in Hfut.
  destruct (inv_future _ _ _ Hinv _ _ Hfut) as (item' & Hitem' & Hret).
  congruence.
Qed.

End Batch.

Section Progress.

(** A conversion is over after three disk operations at most. *)
Lemma convert_ends_within w dicom_path output_base_dir :
  ends_within 3 (convert_dicom_to_jpeg w dicom_path output_base_dir).
Proof.
  unfold convert_dicom_to_jpeg, try_except, convert_body, lift, mkdir, glob,
    save.
  unfold mbind, mret, raising_bind, raising_ret. simpl.
  destruct (dcmread w dicom_path) as [e|dataset]; simpl; [constructor|].
  destruct (PixelData dataset); simpl; [|constructor].
  destruct (get_patient_folder dicom_path 2) as [e|patient_folder]; simpl;
    [constructor|].
  constructor. intros r. destruct (of_error r); simpl; [constructor|].
  constructor. intros files.
  destruct (pixel_array dataset) as [e|a]; simpl; [constructor|].
  destruct (normalize a) as [e|a']; simpl; [constructor|].
  destruct (Image_fromarray w a') as [e|img]; simpl; [constructor|].
  constructor. intros r'. destruct (of_error r'); simpl; constructor.
Qed.

Lemma run_schedule_app s1 s2 st :
  run_schedule (s1 ++ s2) st = run_schedule s2 (run_schedule s1 st).
Proof. apply foldl_app. Qed.

Lemma alone_add a b : alone (a + b) = alone a ++ alone b.
Proof. apply replicate_add. Qed.

Lemma run_alone_S k st :
  run_schedule (alone (S k)) st = run_schedule (alone k) (pool_step 0 st).
Proof. done. Qed.

(** A pool at rest stays as it is. *)
Lemma finished_stays schedule st :
  finished st = true → run_schedule schedule st = st.
Proof.
  intros Hfin. induction schedule as [|w schedule IH]; [done|].
  simpl. assert (pool_step w st = st) as ->; [|done].
  unfold pool_step.
  destruct (workers st !! w) as [job|] eqn:Hw; [|done].
  rewrite (finished_workers _ _ _ Hfin Hw).
  by rewrite (finished_queue _ Hfin).
Qed.

(** The first worker, left alone, brings its task to an end, and what it
    leaves is what running the task alone leaves. *)
Lemma worker_runs n i m st :
  ends_within n m → workers st !! 0%nat = Some (Some (i, m)) →
  ∃ k, (k ≤ S n)%nat
       ∧ workers (run_schedule (alone k) st) = <[0%nat := None]> (workers st)
       ∧ queue (run_schedule (alone k) st) = queue st
       ∧ futures (run_schedule (alone k) st)
         = <[i := (run m (disk st)).1]> (futures st)
       ∧ disk (run_schedule (alone k) st) = (run m (disk st)).2.
Proof.
  intros Hends. revert st.
  induction Hends as [n a|n p k _ IH|n p k _ IH|n p img k _ IH];
    intros st Hw.
  - exists 1%nat. split; [lia|]. rewrite run_alone_S. simpl.
    unfold pool_step. by rewrite Hw.
  - set (st1 := pool_step 0 st).
    destruct (IH (do_mkdir (disk st) p).1 st1) as (j & Hj & Hws & Hq & Hf & Hd).
    { unfold st1, pool_step. rewrite Hw. simpl.
      apply list_lookup_insert_eq. by eapply lookup_lt_Some. }
    exists (S j). split; [lia|]. rewrite run_alone_S. fold st1.
    rewrite Hws, Hq, Hf, Hd. unfold st1, pool_step. rewrite Hw. simpl.
    by rewrite list_insert_insert_eq.
  - set (st1 := pool_step 0 st).
    destruct (IH (do_glob (disk st) p) st1) as (j & Hj & Hws & Hq & Hf & Hd).
    { unfold st1, pool_step. rewrite Hw. simpl.
      apply list_lookup_insert_eq. by eapply lookup_lt_Some. }
    exists (S j). split; [lia|]. rewrite run_alone_S. fold st1.
    rewrite Hws, Hq, Hf, Hd. unfold st1, pool_step. rewrite Hw. simpl.
    by rewrite list_insert_insert_eq.
  - set (st1 := pool_step 0 st).
    destruct (IH (do_save (disk st) p img).1 st1) as (j & Hj & Hws & Hq & Hf & Hd).
    { unfold st1, pool_step. rewrite Hw. simpl.
      apply list_lookup_insert_eq. by eapply lookup_lt_Some. }
    exists (S j). split; [lia|]. rewrite run_alone_S. fold st1.
    rewrite Hws, Hq, Hf, Hd. unfold st1, pool_step. rewrite Hw. simpl.
    by rewrite list_insert_insert_eq.
Qed.

Lemma idle_finished st :
  queue st = [] → Forall (λ job, job = None) (workers st) →
  finished st = true.
Proof.
  intros Hq Hidle. unfold finished. rewrite Hq.
  apply forallb_forall. intros job Hjob%list_elem_of_In.
  rewrite Forall_forall in Hidle. by rewrite (Hidle _ Hjob).
Qed.

(** With all workers idle, the first worker alone empties the queue, and
    leaves what running the tasks one after the other leaves. *)
Lemma queue_drains n tasks :
  ∀ st, queue st = tasks →
        Forall (λ job, ends_within n job.2) tasks →
        Forall (λ job, job = None) (workers st) →
        (0 < length (workers st))%nat →
        ∃ k, (k ≤ (n + 2) * length tasks)%nat
             ∧ finished (run_schedule (alone k) st) = true
             ∧ futures (run_schedule (alone k) st)
               = (run_each tasks (futures st) (disk st)).1
             ∧ disk (run_schedule (alone k) st)
               = (run_each tasks (futures st) (disk st)).2.
Proof.
  induction tasks as [|[i m] rest IH]; intros st Hq Hends Hidle Hsome.
  - exists 0%nat. split; [simpl; lia|]. split; [by apply idle_finished|done].
  - inversion Hends as [|? ? Hm Hrest]; subst. simpl in Hm.
    assert (workers st !! 0%nat = Some None) as Hw0.
    { destruct (workers st) as [|job ws] eqn:Hws; [simpl in Hsome; lia|].
      inversion Hidle; subst. done. }
    set (st1 := pool_step 0 st).
    assert (workers st1 = <[0%nat := Some (i, m)]> (workers st)
            ∧ queue st1 = rest ∧ futures st1 = futures st
            ∧ disk st1 = disk st) as (Hws1 & Hq1 & Hf1 & Hd1).
    { unfold st1, pool_step. by rewrite Hw0, Hq. }
    destruct (worker_runs n i m st1 Hm) as (j & Hj & Hws2 & Hq2 & Hf2 & Hd2).
    { rewrite Hws1. apply list_lookup_insert_eq. lia. }
    set (st2 := run_schedule (alone j) st1) in *.
    destruct (IH st2) as (k & Hk & Hfin & Hf3 & Hd3).
    + by rewrite Hq2.
    + done.
    + rewrite Hws2, Hws1, list_insert_insert_eq.
      rewrite list_insert_id by done. done.
    + rewrite Hws2, Hws1, !length_insert. done.
    + exists (S (j + k)). split; [simpl; lia|].
      rewrite run_alone_S. fold st1.
      rewrite alone_add, run_schedule_app. fold st2.
      split; [done|]. rewrite Hf3, Hd3, Hf2, Hd2, Hf1, Hd1. done.
Qed.

(** A batch with at least one worker can always be brought to its end:
    the schedule in which the first worker does everything gets there, and
    it leaves what running the tasks one after the other leaves. *)
Lemma batch_finishes (fn : Path → prog string) (items : list Path)
  (num_threads : nat) (fs : gmap Path node) :
  (∀ item, ends_within 3 (fn item)) → (0 < num_threads)%nat →
  let st := run_schedule (alone (5 * length items))
                         (submit_all fn items num_threads fs) in
  finished st = true
  ∧ futures st = (run_each (imap (λ i item, (i, fn item)) items) ∅ fs).1
  ∧ disk st = (run_each (imap (λ i item, (i, fn item)) items) ∅ fs).2.
Proof.
  intros Hends Hthreads.
  destruct (queue_drains 3 (imap (λ i item, (i, fn item)) items)
              (submit_all fn items num_threads fs))
    as (k & Hk & Hfin & Hfut & Hdisk).
  - done.
  - apply Forall_forall. intros [i m] Hin.
    apply list_elem_of_lookup in Hin as [j Hj].
    rewrite list_lookup_imap in Hj.
    destruct (items !! j) as [item|]; [|done].
    injection Hj as <- <-. apply Hends.
  - simpl. apply Forall_forall. intros job Hjob.
    by apply elem_of_replicate in Hjob as [-> _].
  - simpl. by rewrite length_replicate.
  - rewrite length_imap in Hk. simpl in Hk, Hfut, Hdisk.
    replace (5 * length items)%nat
      with (k + (5 * length items - k))%nat by lia.
    rewrite alone_add, run_schedule_app. simpl.
    by rewrite finished_stays.
Qed.

(** Tasks run one after the other are conversions made one after the
    other. *)
Lemma run_each_convert w output_path dicom_files :
  ∀ k results fs,
    let r := run_each (imap (λ i d, ((k + i)%nat,
                                    convert_dicom_to_jpeg w d output_path))
                            dicom_files) results fs in
    r.2 = (convert_each w output_path dicom_files fs).2
    ∧ (∀ j, (j < length dicom_files)%nat →
            r.1 !! (k + j)%nat
            = (convert_each w output_path dicom_files fs).1 !! j)
    ∧ (∀ i, (i < k)%nat → r.1 !! i = results !! i).
Proof.
  induction dicom_files as [|d rest IH]; intros k results fs; simpl.
  - split; [done|]. split; [intros j Hj; lia | done].
  - rewrite (imap_ext _ (λ i d, ((S k + i)%nat,
                                convert_dicom_to_jpeg w d output_path)))
      by (intros; simpl; f_equal; lia).
    destruct (IH (S k)
                (<[(k + 0)%nat :=
                     (run (convert_dicom_to_jpeg w d output_path) fs).1]>
                   results)
                (run (convert_dicom_to_jpeg w d output_path) fs).2)
      as (Hdisk & Hnew & Hold).
    split; [done|]. split.
    + intros [|j] Hj.
      * rewrite Hold by lia. simpl. by rewrite lookup_insert_eq.
      * replace (k + S j)%nat with (S k + j)%nat by lia.
        rewrite Hnew by lia. done.
    + intros i Hi. rewrite Hold by lia. rewrite lookup_insert_ne by lia. done.
Qed.

End Progress.

(** *** Schedules that let every worker move *)

Section Fairness.

Lemma pool_step_workers_length v st :
  length (workers (pool_step v st)) = length (workers st).
Proof.
  unfold pool_step.
  destruct (workers st !! v) as [[[i m]|]|]; [| |done].
  - destruct m; simpl; by rewrite length_insert.
  - destruct (queue st); simpl; [done | by rewrite length_insert].
Qed.

Lemma run_schedule_length schedule st :
  length (workers (run_schedule schedule st)) = length (workers st).
Proof.
  revert st. induction schedule as [|v schedule IH]; intros st; [done|].
  simpl. by rewrite IH, pool_step_workers_length.
Qed.

Lemma sum_list_insert (l : list nat) v b b' :
  l !! v = Some b → (sum_list (<[v := b']> l) + b = sum_list l + b')%nat.
Proof.
  revert v. induction l as [|x l IH]; intros [|v] Hv; simpl in *; try done.
  - injection Hv as ->. lia.
  - specialize (IH v Hv). lia.
Qed.

(** A step does nothing only for a worker that is not there or has
    nothing left to do; any other step uses up work. *)
Lemma pool_work_step v st P :
  pool_work st P →
  (pool_step v st = st ∧ (workers st !! v = None ∨ retired v st))
  ∨ ∃ P', (P' < P)%nat ∧ pool_work (pool_step v st) P'.
Proof.
  intros (bounds & Hjobs & Hqueue & ->). unfold pool_step.
  destruct (workers st !! v) as [job|] eqn:Hv; [|left; by auto].
  destruct (Forall2_lookup_l _ _ _ _ _ Hjobs Hv) as (b & Hb & Hjob).
  assert (∀ job' b', job_work job' b' → (b' < b)%nat →
            ∀ q fut s fs, Forall (λ job, ends_within 3 job.2) q →
              (length q = length (queue st))%nat →
              ∃ P', (P' < 5 * length (queue st) + sum_list bounds)%nat
                    ∧ pool_work {| queue := q;
                                   workers := <[v := job']> (workers st);
                                   futures := fut; started := s; disk := fs |}
                                P') as Hless.
  { intros job' b' Hjob' Hlt q fut s fs Hq Hlen.
    exists (5 * length q + sum_list (<[v := b']> bounds))%nat. split.
    - pose proof (sum_list_insert _ _ _ b' Hb). lia.
    - exists (<[v := b']> bounds). split; [|done].
      by apply Forall2_insert. }
  destruct job as [[i m]|].
  - right. destruct Hjob as (n & Hends & ->).
    destruct m as [s|p k|p k|p picture k].
    + apply (Hless None 0%nat); [done | lia | done | done].
    + inversion Hends as [|n' ? ? Hk| |]; subst.
      eapply (Hless (Some (i, _)) (S n')); [by eexists | lia | done | done].
    + inversion Hends as [| |n' ? ? Hk|]; subst.
      eapply (Hless (Some (i, _)) (S n')); [by eexists | lia | done | done].
    + inversion Hends as [| | |n' ? ? ? Hk]; subst.
      eapply (Hless (Some (i, _)) (S n')); [by eexists | lia | done | done].
  - simpl in Hjob. subst b.
    destruct (queue st) as [|job rest] eqn:Hq;
      [left; split; [done|]; right; by split|].
    right. inversion Hqueue as [|? ? Hjob Hrest]; subst.
    exists (5 * length rest + sum_list (<[v := 4%nat]> bounds))%nat. split.
    + pose proof (sum_list_insert _ _ _ 4%nat Hb). simpl. lia.
    + exists (<[v := 4%nat]> bounds). split; [|done].
      apply Forall2_insert; [done|]. destruct job as [i m]. by exists 3%nat.
Qed.

Lemma retired_step v u st : retired v st → retired v (pool_step u st).
Proof.
  intros [Hv Hq]. unfold retired, pool_step.
  destruct (workers st !! u) as [[[i m]|]|] eqn:Hu; [|by rewrite Hq|done].
  assert (u ≠ v) as Hne by (intros ->; congruence).
  destruct m; simpl; by rewrite list_lookup_insert_ne.
Qed.

Lemma retired_run v schedule st :
  retired v st → retired v (run_schedule schedule st).
Proof.
  revert st. induction schedule as [|u schedule IH]; intros st Hv; [done|].
  simpl. by apply IH, retired_step.
Qed.

Lemma steps_of_cons v u schedule :
  steps_of v (u :: schedule)
  = if decide (u = v) then S (steps_of v schedule) else steps_of v schedule.
Proof. unfold steps_of. rewrite filter_cons. by destruct (decide (u = v)). Qed.

(** Along a schedule, a worker either runs out of things to do or its
    steps all used up work. *)
Lemma work_runs_out schedule :
  ∀ st P, pool_work st P →
    ∃ P', pool_work (run_schedule schedule st) P'
          ∧ ∀ v, (v < length (workers st))%nat →
                 retired v (run_schedule schedule st)
                 ∨ (P' + steps_of v schedule ≤ P)%nat.
Proof.
  induction schedule as [|u schedule IH]; intros st P Hwork.
  - exists P. split; [done|]. intros v _. right. unfold steps_of. simpl. lia.
  - simpl. destruct (pool_work_step u st P Hwork)
      as [[Hsame Hidle]|(P1 & HP1 & Hwork1)].
    + rewrite Hsame. destruct (IH st P Hwork) as (P' & Hwork' & Hall).
      exists P'. split; [done|]. intros v Hv. rewrite steps_of_cons.
      destruct (decide (u = v)) as [->|_]; [|by apply Hall].
      left. apply retired_run. destruct Hidle as [Hnone|?]; [|done].
      apply lookup_ge_None in Hnone. lia.
    + destruct (IH _ P1 Hwork1) as (P' & Hwork' & Hall).
      exists P'. split; [done|]. intros v Hv. rewrite steps_of_cons.
      destruct (Hall v) as [?|Hle]; [by rewrite pool_step_workers_length|by left|].
      right. destruct (decide (u = v)); lia.
Qed.

Lemma sum_list_zero (l : list nat) : sum_list l = 0%nat → Forall (λ b, b = 0%nat) l.
Proof.
  induction l as [|x l IH]; simpl; [done|]. intros H.
  constructor; [lia|]. apply IH. lia.
Qed.

Lemma pool_work_zero st : pool_work st 0 → finished st = true.
Proof.
  intros (bounds & Hjobs & _ & HP).
  apply idle_finished.
  - destruct (queue st); [done|simpl in HP; lia].
  - assert (sum_list bounds = 0%nat) as Hsum%sum_list_zero by lia.
    apply Forall_forall. intros job Hin.
    apply list_elem_of_lookup in Hin as [v Hv].
    destruct (Forall2_lookup_l _ _ _ _ _ Hjobs Hv) as (b & Hb & Hjob).
    rewrite Forall_forall in Hsum.
    pose proof (Hsum b (list_elem_of_lookup_2 _ _ _ Hb)) as ->.
    destruct job as [[i m]|]; [|done]. by destruct Hjob as (n & _ & ?).
Qed.

Lemma all_retired_finished st :
  (0 < length (workers st))%nat →
  (∀ v, (v < length (workers st))%nat → retired v st) →
  finished st = true.
Proof.
  intros Hsome Hall. apply idle_finished.
  - by destruct (Hall 0%nat Hsome).
  - apply Forall_forall. intros job Hin.
    apply list_elem_of_lookup in Hin as [v Hv].
    destruct (Hall v) as [Hv' _]; [by eapply lookup_lt_Some|]. congruence.
Qed.

(** A schedule that gives every worker five steps for each task brings
    the pool to rest. *)
Lemma fair_schedule_finishes (fn : Path → prog string) (items : list Path)
  (num_threads : nat) (schedule : list nat) (fs : gmap Path node) :
  (∀ item, ends_within 3 (fn item)) → (0 < num_threads)%nat →
  gives_each num_threads (5 * length items) schedule →
  finished (run_schedule schedule (submit_all fn items num_threads fs)) = true.
Proof.
  intros Hends Hthreads Hfair.
  set (st0 := submit_all fn items num_threads fs).
  assert (pool_work st0 (5 * length items)) as Hwork.
  { exists (replicate num_threads 0%nat). split; [|split].
    - simpl. apply Forall2_replicate. done.
    - simpl. apply Forall_forall. intros [i m] Hin.
      apply list_elem_of_lookup in Hin as [j Hj].
      rewrite list_lookup_imap in Hj.
      destruct (items !! j) as [item|]; [|done].
      injection Hj as <- <-. apply Hends.
    - simpl. rewrite length_imap.
      assert (sum_list (replicate num_threads 0%nat) = 0%nat) as ->; [|lia].
      clear. induction num_threads; simpl; lia. }
  destruct (work_runs_out schedule st0 _ Hwork) as (P' & Hwork' & Hall).
  assert (length (workers st0) = num_threads) as Hlen
    by (simpl; apply length_replicate).
  destruct (decide (P' = 0%nat)) as [->|Hpos]; [by apply pool_work_zero|].
  apply all_retired_finished.
  - rewrite run_schedule_length. lia.
  - intros v Hv. rewrite run_schedule_length in Hv.
    destruct (Hall v Hv) as [?|Hle]; [done|].
    rewrite Hlen in Hv. specialize (Hfair v Hv). lia.
Qed.

End Fairness.

(** *** The answers a task got *)

Section Trace.

Context (fn : Path → prog string) (items : list Path).

Lemma answers_to_app i log1 log2 :
  answers_to i (log1 ++ log2) = answers_to i log1 ++ answers_to i log2.
Proof. unfold answers_to. by rewrite filter_app, fmap_app. Qed.

Lemma answers_to_own i given : answers_to i [(i, given)] = [given].
Proof. unfold answers_to. rewrite filter_cons. by rewrite decide_True. Qed.

Lemma answers_to_other i j given : i ≠ j → answers_to i [(j, given)] = [].
Proof.
  intros Hne. unfold answers_to. rewrite filter_cons.
  rewrite decide_False; [done|]. simpl. congruence.
Qed.

Lemma submit_all_traced num_threads fs :
  pool_traced fn items (submit_all fn items num_threads fs) [].
Proof.
  split; simpl.
  - intros v i m H. by apply lookup_replicate in H as [? _].
  - intros i s H. by rewrite lookup_empty in H.
  - done.
Qed.

(** What a disk operation of worker [v] adds to the trace and leaves in
    the worker. *)
Lemma traced_operation v st log i m m' given fs' :
  pool_traced fn items st log →
  workers st !! v = Some (Some (i, m)) →
  (∀ more, replay m (given :: more) = replay m' more) →
  pool_traced fn items
    {| queue := queue st; workers := <[v := Some (i, m')]> (workers st);
       futures := futures st; started := started st; disk := fs' |}
    (log ++ [(i, given)]).
Proof.
  intros [Hw Hf Hq] Hv Hnext.
  destruct (Hw _ _ _ Hv) as (Hi & Hnone & Huniq & item & Hitem & Hleft).
  assert (v < length (workers st))%nat as Hlen by (by eapply lookup_lt_Some).
  split; simpl.
  - intros v' j m'' Hv'. destruct (decide (v' = v)) as [->|Hne].
    + rewrite list_lookup_insert_eq in Hv' by done. injection Hv' as <- <-.
      split; [done|]. split; [done|]. split.
      * intros v'' m3 Hv''. destruct (decide (v'' = v)) as [|Hne]; [done|].
        rewrite list_lookup_insert_ne in Hv'' by done. by eapply Huniq.
      * exists item. split; [done|]. intros more.
        rewrite answers_to_app, answers_to_own, <- app_assoc. simpl.
        by rewrite Hleft.
    + rewrite list_lookup_insert_ne in Hv' by done.
      destruct (Hw _ _ _ Hv') as (Hj & Hnone' & Huniq' & item' & Hitem' & Hleft').
      assert (j ≠ i) as Hji.
      { intros ->. apply Hne. by eapply Huniq. }
      split; [done|]. split; [done|]. split.
      * intros v'' m3 Hv''. destruct (decide (v'' = v)) as [->|Hne'].
        { rewrite list_lookup_insert_eq in Hv'' by done. congruence. }
        rewrite list_lookup_insert_ne in Hv'' by done. by eapply Huniq'.
      * exists item'. split; [done|]. intros more.
        by rewrite answers_to_app, answers_to_other, app_nil_r.
  - intros j s Hs. destruct (Hf _ _ Hs) as (Hj & item' & Hitem' & Hret).
    split; [done|]. exists item'. split; [done|].
    assert (j ≠ i) as Hji by (intros ->; congruence).
    by rewrite answers_to_app, answers_to_other, app_nil_r.
  - intros j Hj. rewrite answers_to_app, answers_to_other by lia.
    rewrite app_nil_r. by apply Hq.
Qed.

Lemma pool_step_traced v st log :
  pool_inv fn items st → pool_traced fn items st log →
  pool_traced fn items (pool_step v st) (log ++ seen v st).
Proof.
  intros Hinv Htr. unfold pool_step, seen, observe.
  destruct (workers st !! v) as [[[i m]|]|] eqn:Hv;
    [| |by rewrite app_nil_r].
  - destruct m as [s|p k|p k|p picture k].
    + (* the result is delivered *)
      rewrite app_nil_r. destruct Htr as [Hw Hf Hq].
      destruct (Hw _ _ _ Hv) as (Hi & Hnone & Huniq & item & Hitem & Hleft).
      assert (v < length (workers st))%nat as Hlen
        by (by eapply lookup_lt_Some).
      split; simpl.
      * intros v' j m' Hv'. destruct (decide (v' = v)) as [->|Hne].
        { by rewrite list_lookup_insert_eq in Hv' by done. }
        rewrite list_lookup_insert_ne in Hv' by done.
        destruct (Hw _ _ _ Hv')
          as (Hj & Hnone' & Huniq' & item' & Hitem' & Hleft').
        assert (j ≠ i) as Hji.
        { intros ->. apply Hne. by eapply Huniq. }
        split; [done|]. split; [by rewrite lookup_insert_ne|]. split.
        -- intros v'' m3 Hv''. destruct (decide (v'' = v)) as [->|Hne'].
           { by rewrite list_lookup_insert_eq in Hv'' by done. }
           rewrite list_lookup_insert_ne in Hv'' by done. by eapply Huniq'.
        -- by exists item'.
      * intros j s' Hs'. destruct (decide (j = i)) as [->|Hji].
        { rewrite lookup_insert_eq in Hs'. injection Hs' as <-.
          split; [done|]. exists item. split; [done|].
          specialize (Hleft []). by rewrite app_nil_r in Hleft. }
        rewrite lookup_insert_ne in Hs' by done. by apply Hf.
      * done.
    + by apply (traced_operation v st log i (Mkdir p k)).
    + by apply (traced_operation v st log i (Glob p k)).
    + by apply (traced_operation v st log i (Save p picture k)).
  - (* an idle worker takes the next task *)
    rewrite app_nil_r.
    destruct (queue st) as [|job rest] eqn:Hqueue; [done|].
    destruct (queue_head _ _ _ _ _ Hinv Hqueue) as (item & Hitem & -> & _).
    destruct Htr as [Hw Hf Hq].
    assert (v < length (workers st))%nat as Hlen by (by eapply lookup_lt_Some).
    split; simpl; rewrite ?length_app; simpl.
    + intros v' j m' Hv'. destruct (decide (v' = v)) as [->|Hne].
      * rewrite list_lookup_insert_eq in Hv' by done. injection Hv' as <- <-.
        split; [lia|]. split.
        { destruct (futures st !! length (started st)) as [s|] eqn:Hs; [|done].
          apply Hf in Hs as [? _]. lia. }
        split.
        { intros v'' m3 Hv''. destruct (decide (v'' = v)) as [|Hne]; [done|].
          rewrite list_lookup_insert_ne in Hv'' by done.
          apply Hw in Hv'' as [? _]. lia. }
        exists item. split; [done|]. intros more. by rewrite Hq.
      * rewrite list_lookup_insert_ne in Hv' by done.
        destruct (Hw _ _ _ Hv')
          as (Hj & Hnone' & Huniq' & item' & Hitem' & Hleft').
        split; [lia|]. split; [done|]. split; [|by exists item'].
        intros v'' m3 Hv''. destruct (decide (v'' = v)) as [->|Hne'].
        { rewrite list_lookup_insert_eq in Hv'' by done.
          injection Hv'' as ? _. lia. }
        rewrite list_lookup_insert_ne in Hv'' by done. by eapply Huniq'.
    + intros j s Hs. destruct (Hf _ _ Hs) as [Hj ?]. split; [lia | done].
    + intros j Hj. apply Hq. lia.
Qed.

Lemma observed_cons v schedule st :
  observed (v :: schedule) st = seen v st ++ observed schedule (pool_step v st).
Proof. unfold seen. simpl. by destruct (observe v st). Qed.

Lemma run_schedule_traced schedule :
  ∀ st log, pool_inv fn items st → pool_traced fn items st log →
    pool_traced fn items (run_schedule schedule st)
                (log ++ observed schedule st).
Proof.
  induction schedule as [|v schedule IH]; intros st log Hinv Htr.
  - by rewrite app_nil_r.
  - rewrite observed_cons, app_assoc. simpl. apply IH.
    + by apply pool_step_inv.
    + by apply pool_step_traced.
Qed.

(** When the pool has come to rest, the result collected for each item is
    what the task of that item returns on the answers it got. *)
Lemma finished_traced num_threads schedule fs :
  let st := run_schedule schedule (submit_all fn items num_threads fs) in
  let log := observed schedule (submit_all fn items num_threads fs) in
  finished st = true →
  ∃ results,
    collect (length items) st = Some results
    ∧ length results = length items
    ∧ ∀ i item, items !! i = Some item →
        ∃ s, results !! i = Some s
             ∧ replay (fn item) (answers_to i log) = Some s.
Proof.
  intros st log Hfin.
  assert (pool_inv fn items st) as Hinv
    by apply run_schedule_inv, submit_all_inv.
  pose proof (run_schedule_traced schedule _ []
                (submit_all_inv fn items num_threads fs)
                (submit_all_traced num_threads fs)) as Htr.
  simpl in Htr. fold st log in Htr.
  destruct (finished_pool _ _ _ Hinv Hfin) as (_ & results & Hres & Hall).
  exists results. split; [done|].
  split; [symmetry; by eapply Forall2_length|].
  intros i item Hitem.
  destruct (Forall2_lookup_l _ _ _ _ _ Hall Hitem) as (s & Hs & _).
  exists s. split; [done|].
  apply mapM_Some in Hres.
  assert (seq 0 (length items) !! i = Some i) as Hi.
  { apply lookup_seq. split; [done|]. by eapply lookup_lt_Some. }
  pose proof (Forall2_lookup_lr _ _ _ _ _ _ Hres Hi Hs) as Hfut. simpl in Hfut.
  destruct (traced_future _ _ _ _ Htr _ _ Hfut) as (_ & item' & Hitem' & Hret).
  congruence.
Qed.

End Trace.

Section Caught.

(** The [try] around the body turns the exception the body ends in into
    the value of the handler, whatever the disk answered. *)
Lemma replay_try_except {A} (body : raising A) (handler : exn → A) answers :
  replay (try_except body handler) answers
  = (λ r, match r with inl e => handler e | inr a => a end)
      <$> replay body answers.
Proof.
  unfold try_except. revert body.
  induction answers as [|given rest IH]; intros body.
  - destruct body as [[e|a]| | |]; done.
  - destruct body as [[e|a]|p k|p k|p picture k]; simpl; try done;
      destruct given; try done; apply IH.
Qed.

End Caught.


Section Orchestrator.

Context (w : World).

Lemma batch_rests dicom_files output_path num_threads schedule fs :
  finished (batch w dicom_files output_path num_threads schedule fs) = true →
  started (batch w dicom_files output_path num_threads schedule fs)
  = seq 0 (length dicom_files)
  ∧ ∃ results,
      collect (length dicom_files)
              (batch w dicom_files output_path num_threads schedule fs)
      = Some results
      ∧ Forall2 (λ d s, may_return (convert_dicom_to_jpeg w d output_path) s)
                dicom_files results.
Proof.
  intros Hfin. eapply finished_pool; [|done].
  apply run_schedule_inv, submit_all_inv.
Qed.

Lemma batch_can_finish dicom_files output_path num_threads fs :
  (0 < num_threads)%nat →
  finished (batch w dicom_files output_path num_threads
                  (alone (5 * length dicom_files)) fs) = true.
Proof.
  intros Hthreads.
  apply (batch_finishes (λ d, convert_dicom_to_jpeg w d output_path));
    [|done].
  intros d. apply convert_ends_within.
Qed.

Lemma convert_each_length output_path dicom_files fs :
  length (convert_each w output_path dicom_files fs).1 = length dicom_files.
Proof.
  revert fs. induction dicom_files as [|d rest IH]; intros fs; simpl; [done|].
  by rewrite IH.
Qed.

(** When one worker does everything, the batch is the files converted one
    after the other. *)
Lemma lone_worker_is_serial dicom_files output_path num_threads fs :
  (0 < num_threads)%nat →
  collect (length dicom_files)
          (batch w dicom_files output_path num_threads
                 (alone (5 * length dicom_files)) fs)
  = Some (convert_each w output_path dicom_files fs).1
  ∧ disk (batch w dicom_files output_path num_threads
                (alone (5 * length dicom_files)) fs)
    = (convert_each w output_path dicom_files fs).2.
Proof.
  intros Hthreads.
  destruct (batch_finishes (λ d, convert_dicom_to_jpeg w d output_path)
              dicom_files num_threads fs) as (_ & Hfut & Hdisk);
    [intros d; apply convert_ends_within | done |].
  destruct (run_each_convert w output_path dicom_files 0 ∅ fs)
    as (Hdisk' & Hnew & _).
  simpl in Hnew, Hdisk'. unfold batch. split; [|by rewrite Hdisk].
  apply mapM_Some_2, Forall2_same_length_lookup_2.
  { by rewrite length_seq, convert_each_length. }
  intros j i s Hi Hs. apply lookup_seq in Hi as [-> Hj]. cbv beta.
  change (0 + j)%nat with j. rewrite Hfut, Hnew by done. done.
Qed.

(** The files of one new patient folder, converted by a lone worker, are
    numbered from [00.jpg] on. *)
Corollary lone_worker_numbering patient_folder dicom_files output_path
  num_threads fs :
  (0 < num_threads)%nat →
  Forall (convertible w patient_folder) dicom_files →
  absent fs (output_path // patient_folder) →
  unobstructed fs (output_path // patient_folder) →
  collect (length dicom_files)
          (batch w dicom_files output_path num_threads
                 (alone (5 * length dicom_files)) fs)
  = Some ((λ i, saved_message (output_path // patient_folder ++ [jpg_name i]))
            <$> seq 0 (length dicom_files)).
Proof.
  intros Hthreads Hall Habs Hfree.
  destruct (lone_worker_is_serial dicom_files output_path num_threads fs
              Hthreads) as [-> _].
  destruct (convert_each_numbered w _ output_path _ _ _ Hall
              (absent_numbered _ _ Habs Hfree)) as [-> _].
  done.
Qed.

Lemma fair_batch_finishes dicom_files output_path num_threads schedule fs :
  (0 < num_threads)%nat →
  gives_each num_threads (5 * length dicom_files) schedule →
  finished (batch w dicom_files output_path num_threads schedule fs) = true.
Proof.
  intros Hthreads Hfair.
  apply (fair_schedule_finishes (λ d, convert_dicom_to_jpeg w d output_path));
    [|done|done].
  intros d. apply convert_ends_within.
Qed.

(** C8: whatever the number of workers and whatever the order in which
    they move and finish (the schedule), the list the orchestrator
    collects follows the list of files: it has one result per file, and
    the result at position [i] is what the conversion of the file at
    position [i] returned in this run, that is, what the program of that
    file returns on the answers the disk gave to its own operations.
    Every schedule that gives each worker five steps per file brings the
    pool to rest. *)
Theorem results_in_submission_order (dicom_files : list Path)
  (output_path : Path) (num_threads : nat) (fs : gmap Path node) :
  (∀ schedule,
     (0 < num_threads)%nat →
     gives_each num_threads (5 * length dicom_files) schedule →
     finished (batch w dicom_files output_path num_threads schedule fs) = true)
  ∧ ∀ schedule,
      finished (batch w dicom_files output_path num_threads schedule fs)
      = true →
      ∃ results,
        collect (length dicom_files)
                (batch w dicom_files output_path num_threads schedule fs)
        = Some results
        ∧ length results = length dicom_files
        ∧ ∀ i d, dicom_files !! i = Some d →
            ∃ s, results !! i = Some s
                 ∧ replay (convert_dicom_to_jpeg w d output_path)
                          (answers_to i (batch_log w dicom_files output_path
                                                   num_threads schedule fs))
                   = Some s.
Proof.
  split.
  - intros schedule. apply fair_batch_finishes.
  - intros schedule Hfin.
    apply (finished_traced (λ d, convert_dicom_to_jpeg w d output_path)
             dicom_files num_threads schedule fs Hfin).
Qed.

(** C6: the converter has no way out but its return.  When the body of
    the [try] raises [e], the converter returns the line
    [❌ Error processing <path>: <str(e)>], which contains the path of the
    file.  In a batch no failure stops anything: every schedule that
    gives each worker five steps per file brings the pool to rest,
    whatever fails; and at rest every conversion was started exactly
    once, in submission order, and every file has its result, the message
    of its body or the error line for the exception its body raised in
    this run. *)
Theorem failures_become_results (dicom_files : list Path)
  (output_path : Path) (num_threads : nat) (fs : gmap Path node) :
  (∀ d e, contains ("❌ Error processing " +:+ str d +:+ ": " +:+ exn_str e)
                   (str d))
  ∧ (∀ schedule,
       (0 < num_threads)%nat →
       gives_each num_threads (5 * length dicom_files) schedule →
       finished (batch w dicom_files output_path num_threads schedule fs)
       = true)
  ∧ ∀ schedule,
      finished (batch w dicom_files output_path num_threads schedule fs)
      = true →
      started (batch w dicom_files output_path num_threads schedule fs)
      = seq 0 (length dicom_files)
      ∧ ∃ results,
          collect (length dicom_files)
                  (batch w dicom_files output_path num_threads schedule fs)
          = Some results
          ∧ length results = length dicom_files
          ∧ ∀ i d, dicom_files !! i = Some d →
              ∃ r, replay (convert_body w d output_path)
                          (answers_to i (batch_log w dicom_files output_path
                                                   num_threads schedule fs))
                   = Some r
                   ∧ results !! i
                     = Some match r with
                            | inl e => "❌ Error processing " +:+ str d
                                       +:+ ": " +:+ exn_str e
                            | inr message => message
                            end.
Proof.
  split; [intros d e; apply contains_middle|]. split.
  - intros schedule. apply fair_batch_finishes.
  - intros schedule Hfin.
    destruct (batch_rests _ _ _ _ _ Hfin) as (Hstarted & _).
    split; [done|].
    destruct (finished_traced (λ d, convert_dicom_to_jpeg w d output_path)
                dicom_files num_threads schedule fs Hfin)
      as (results & Hres & Hlen & Hall).
    exists results. split; [done|]. split; [done|].
    intros i d Hd. destruct (Hall i d Hd) as (s & Hs & Hret).
    unfold convert_dicom_to_jpeg in Hret.
    rewrite replay_try_except in Hret.
    fold (batch_log w dicom_files output_path num_threads schedule fs) in Hret.
    destruct (replay (convert_body w d output_path) _) as [r|]; [|done].
    exists r. split; [done|]. simpl in Hret. injection Hret as <-.
    rewrite Hs. by destruct r.
Qed.

Lemma filter_truthy results :
  Forall (λ s, s ≠ "") results →
  filter (λ res, truthy res = true) results = results.
Proof.
  induction 1 as [|s results Hs _ IH]; [done|].
  rewrite filter_cons, IH. rewrite decide_True; [done|].
  unfold truthy. by apply negb_true_iff, String.eqb_neq.
Qed.

(** A run whose pool has come to rest prints the banner, the results and
    the closing line. *)
Lemma convert_dicom_completes input_path input_tree output_path num_threads
  schedule fs :
  find_dicom_files input_path input_tree 3 ≠ [] → 0 < num_threads →
  finished (batch w (find_dicom_files input_path input_tree 3) output_path
                  (Z.to_nat num_threads) schedule fs) = true →
  ∃ banner results,
    convert_dicom w input_path input_tree output_path num_threads schedule fs
    = Completed (banner ++ results ++ ["✅ Conversion complete!"])
        (disk (batch w (find_dicom_files input_path input_tree 3) output_path
                     (Z.to_nat num_threads) schedule fs))
    ∧ length banner = 4%nat
    ∧ Forall2 (λ d s, may_return (convert_dicom_to_jpeg w d output_path) s)
              (find_dicom_files input_path input_tree 3) results.
Proof.
  intros Hfiles Hthreads Hfin. unfold convert_dicom.
  destruct (batch_rests _ _ _ _ _ Hfin) as (_ & results & Hres & Hall).
  destruct (find_dicom_files input_path input_tree 3) as [|d0 files] eqn:Hfind;
    [done|].
  destruct (Z.leb_spec num_threads 0) as [|_]; [lia|].
  rewrite Hres, Hfin.
  eexists [_; _; _; _], results. split; [|split; [reflexivity | exact Hall]].
  rewrite filter_truthy; [reflexivity|].
  apply (Forall2_Forall_r _ _ _ _ Hall).
  apply Forall_forall. intros d _ s. apply convert_result_nonempty.
Qed.

(** C9: the converter returns a non-empty string whichever way it ends,
    so the test before printing lets every result through: a completed run
    prints the four lines of the banner, one line for each discovered file
    in order, and the closing line; and with at least one worker a run can
    always complete. *)
Theorem one_line_per_file (input_path : Path) (input_tree : directory)
  (output_path : Path) (num_threads : Z) (fs : gmap Path node) :
  (∀ d s, may_return (convert_dicom_to_jpeg w d output_path) s → s ≠ "")
  ∧ (0 < num_threads →
     ∃ schedule printed fs',
       convert_dicom w input_path input_tree output_path num_threads
                     schedule fs
       = Completed printed fs')
  ∧ ∀ schedule printed fs',
      find_dicom_files input_path input_tree 3 ≠ [] →
      convert_dicom w input_path input_tree output_path num_threads schedule fs
      = Completed printed fs' →
      ∃ banner results,
        printed = banner ++ results ++ ["✅ Conversion complete!"]
        ∧ length banner = 4%nat
        ∧ Forall2 (λ d s, may_return (convert_dicom_to_jpeg w d output_path) s)
                  (find_dicom_files input_path input_tree 3) results.
Proof.
  split; [intros d s; apply convert_result_nonempty|]. split.
  - intros Hthreads.
    destruct (find_dicom_files input_path input_tree 3) as [|d0 files] eqn:Hfind.
    + exists [], ["❌ No DICOM files found."], fs.
      unfold convert_dicom. by rewrite Hfind.
    + edestruct (convert_dicom_completes input_path input_tree output_path
                   num_threads) as (banner & results & Hrun & _).
      * by rewrite Hfind.
      * done.
      * apply batch_can_finish. lia.
      * eauto.
  - intros schedule printed fs' Hfiles Hrun.
    assert (0 < num_threads ∧
            finished (batch w (find_dicom_files input_path input_tree 3)
                            output_path (Z.to_nat num_threads) schedule fs)
            = true) as [Hthreads Hfin].
    { unfold convert_dicom in Hrun.
      destruct (find_dicom_files input_path input_tree 3); [done|].
      destruct (Z.leb_spec num_threads 0); [done|].
      destruct (collect _ _); [|done].
      destruct (finished _); [done | done]. }
    destruct (convert_dicom_completes _ _ output_path _ schedule fs
                Hfiles Hthreads Hfin)
      as (banner & results & Hrun' & Hbanner & Hall).
    rewrite Hrun' in Hrun. injection Hrun as <- _. eauto.
Qed.

End Orchestrator.

(** ** Pixel arithmetic *)

Section Rounding.
#[local] Open Scope Q_scope.

Lemma pow2_pos e : 0 < 2 ^ e.
Proof. by apply Qpower_0_lt. Qed.

Lemma pow2_nonzero e : ~ 2 ^ e == 0.
Proof. intros H. pose proof (pow2_pos e) as Hp. rewrite H in Hp. by apply Qlt_irrefl in Hp. Qed.

Lemma pow2_add a b : 2 ^ (a + b) == 2 ^ a * 2 ^ b.
Proof. by apply Qpower_plus. Qed.

Lemma pow2_inject k : (0 <= k)%Z -> 2 ^ k == inject_Z (2 ^ k).
Proof. intros Hk. by rewrite Zpower_Qpower. Qed.

Lemma pow2_le a b : (a <= b)%Z -> 2 ^ a <= 2 ^ b.
Proof. intros H. by apply Qpower_le_compat_l. Qed.

Lemma pow2_lt_inv a b : 2 ^ a < 2 ^ b -> (a < b)%Z.
Proof. intros H. by apply (Qpower_lt_compat_l_inv 2). Qed.

Lemma Qabs_positive q : 0 < q -> Qabs q = q.
Proof. destruct q as [[|n|n] d]; by intros H. Qed.

Lemma Qlog2_spec q : 0 < q -> 2 ^ Qlog2 q <= q /\ q < 2 ^ (Qlog2 q + 1).
Proof.
  intros Hq. destruct q as [n d].
  assert (0 < n)%Z as Hn.
  { unfold Qlt in Hq. simpl in Hq. lia. }
  unfold Qlog2. simpl Qnum. simpl Qden.
  set (a := Z.log2 n). set (b := Z.log2 (Z.pos d)).
  destruct (Z.log2_spec n Hn) as [Ha1 Ha2]. fold a in Ha1, Ha2.
  destruct (Z.log2_spec (Z.pos d) ltac:(lia)) as [Hb1 Hb2]. fold b in Hb1, Hb2.
  assert (0 <= a)%Z as Ha0 by apply Z.log2_nonneg.
  assert (0 <= b)%Z as Hb0 by apply Z.log2_nonneg.
  assert (n # d == inject_Z n / inject_Z (Z.pos d)) as Hdiv by apply Qmake_Qdiv.
  assert (0 < inject_Z (Z.pos d)) as Hdpos by (unfold Qlt; simpl; lia).
  (* the two-sided estimate *)
  assert (2 ^ (a - b - 1) < n # d) as Hlow.
  { rewrite Hdiv. apply Qlt_shift_div_l; [done|].
    apply Qlt_le_trans with (2 ^ (a - b - 1) * 2 ^ (b + 1)).
    - apply Qmult_lt_l; [apply pow2_pos|].
      rewrite pow2_inject by lia. rewrite <- Zlt_Qlt.
      replace (Z.succ b) with (b + 1)%Z in Hb2 by lia. done.
    - rewrite <- pow2_add. replace (a - b - 1 + (b + 1))%Z with a by lia.
      rewrite pow2_inject by lia. by rewrite <- Zle_Qle. }
  assert (n # d < 2 ^ (a - b + 1)) as Hhigh.
  { rewrite Hdiv. apply Qlt_shift_div_r; [done|].
    apply Qlt_le_trans with (2 ^ (a - b + 1) * 2 ^ b).
    - rewrite <- pow2_add. replace (a - b + 1 + b)%Z with (a + 1)%Z by lia.
      rewrite pow2_inject by lia. rewrite <- Zlt_Qlt.
      replace (Z.succ a) with (a + 1)%Z in Ha2 by lia. done.
    - apply Qmult_le_l; [apply pow2_pos|].
      rewrite pow2_inject by lia. by rewrite <- Zle_Qle. }
  destruct (Qle_bool (2 ^ (a - b)) (n # d)) eqn:Htest.
  - apply Qle_bool_iff in Htest. split; [done|done].
  - split.
    + by apply Qlt_le_weak.
    + replace (a - b - 1 + 1)%Z with (a - b)%Z by lia.
      apply Qnot_le_lt. intros Hle. apply Qle_bool_iff in Hle. congruence.
Qed.

Lemma Qlog2_mono q1 q2 : 0 < q1 -> q1 <= q2 -> (Qlog2 q1 <= Qlog2 q2)%Z.
Proof.
  intros H1 H12.
  destruct (Qlog2_spec q1 H1) as [Hlo _].
  destruct (Qlog2_spec q2) as [_ Hhi]; [by eapply Qlt_le_trans|].
  assert (2 ^ Qlog2 q1 < 2 ^ (Qlog2 q2 + 1)) as H.
  { eapply Qle_lt_trans; [exact Hlo|]. by eapply Qle_lt_trans. }
  apply pow2_lt_inv in H. lia.
Qed.

Lemma round_half_even_floor s :
  round_half_even s = Qfloor s \/ round_half_even s = (Qfloor s + 1)%Z.
Proof.
  unfold round_half_even. destruct (Qcompare _ _); [|by left|by right].
  destruct (Z.even _); [by left | by right].
Qed.

Lemma round_half_even_mono s t :
  s <= t -> (round_half_even s <= round_half_even t)%Z.
Proof.
  intros Hst. pose proof (Qfloor_resp_le _ _ Hst) as Hfloor.
  destruct (Z.eq_dec (Qfloor s) (Qfloor t)) as [Heq|Hne].
  - unfold round_half_even. rewrite <- Heq.
    assert (s - inject_Z (Qfloor s) <= t - inject_Z (Qfloor s)) as Hfrac.
    { apply Qplus_le_l with (inject_Z (Qfloor s)). by ring_simplify. }
    destruct (Qcompare_spec (s - inject_Z (Qfloor s)) (1 # 2)) as [Hs|Hs|Hs];
      destruct (Qcompare_spec (t - inject_Z (Qfloor s)) (1 # 2)) as [Ht|Ht|Ht];
      try lia; try (destruct (Z.even (Qfloor s)); lia); exfalso.
    + rewrite Hs in Hfrac. by apply Qle_not_lt in Hfrac.
    + rewrite Ht in Hfrac. by apply Qle_not_lt in Hfrac.
    + apply (Qlt_irrefl (1 # 2)).
      eapply Qlt_le_trans; [exact Hs|]. eapply Qle_trans; [exact Hfrac|].
      by apply Qlt_le_weak.
  - destruct (round_half_even_floor s) as [->| ->];
      destruct (round_half_even_floor t) as [->| ->]; lia.
Qed.

Lemma round_half_even_Z z : round_half_even (inject_Z z) = z.
Proof.
  unfold round_half_even. rewrite Qfloor_Z.
  destruct (Qcompare_spec (inject_Z z - inject_Z z) (1 # 2)) as [H|H|H];
    try done; exfalso.
  - assert (inject_Z z - inject_Z z == 0) as H0 by ring.
    rewrite H0 in H. done.
  - assert (inject_Z z - inject_Z z == 0) as H0 by ring.
    rewrite H0 in H. done.
Qed.

Lemma round_binary64_positive q :
  0 < q ->
  round_binary64 q
  = inject_Z (round_half_even (q / 2 ^ ulp_exp q)) * 2 ^ ulp_exp q.
Proof.
  intros Hq. unfold round_binary64.
  destruct (Qeq_bool q 0) eqn:H0; [|done].
  apply Qeq_bool_iff in H0. rewrite H0 in Hq. by apply Qlt_irrefl in Hq.
Qed.

(** A power of two that is a multiple of the unit in the last place of
    [q] and lies below (above) [q] also lies below (above) its rounding. *)
Lemma scaled_pow2 L e : (e <= L)%Z -> 2 ^ L / 2 ^ e == inject_Z (2 ^ (L - e)).
Proof.
  intros H. rewrite <- pow2_inject by lia.
  replace L with ((L - e) + e)%Z at 1 by lia.
  rewrite pow2_add. field. apply pow2_nonzero.
Qed.

Lemma round_binary64_ge_pow2 q L :
  0 < q -> 2 ^ L <= q -> (ulp_exp q <= L)%Z -> 2 ^ L <= round_binary64 q.
Proof.
  intros Hq HL He. rewrite round_binary64_positive by done.
  set (e := ulp_exp q) in *.
  assert (2 ^ L == inject_Z (2 ^ (L - e)) * 2 ^ e) as ->.
  { rewrite <- scaled_pow2 by done. field. apply pow2_nonzero. }
  apply Qmult_le_compat_r; [|apply Qlt_le_weak, pow2_pos].
  rewrite <- Zle_Qle.
  rewrite <- (round_half_even_Z (2 ^ (L - e))).
  apply round_half_even_mono. rewrite <- scaled_pow2 by done.
  apply Qmult_le_compat_r; [done|].
  apply Qlt_le_weak, Qinv_lt_0_compat, pow2_pos.
Qed.

Lemma round_binary64_le_pow2 q L :
  0 < q -> q <= 2 ^ L -> (ulp_exp q <= L)%Z -> round_binary64 q <= 2 ^ L.
Proof.
  intros Hq HL He. rewrite round_binary64_positive by done.
  set (e := ulp_exp q) in *.
  assert (2 ^ L == inject_Z (2 ^ (L - e)) * 2 ^ e) as ->.
  { rewrite <- scaled_pow2 by done. field. apply pow2_nonzero. }
  apply Qmult_le_compat_r; [|apply Qlt_le_weak, pow2_pos].
  rewrite <- Zle_Qle.
  rewrite <- (round_half_even_Z (2 ^ (L - e))).
  apply round_half_even_mono. rewrite <- scaled_pow2 by done.
  apply Qmult_le_compat_r; [done|].
  apply Qlt_le_weak, Qinv_lt_0_compat, pow2_pos.
Qed.

Lemma round_binary64_nonneg q : 0 <= q -> 0 <= round_binary64 q.
Proof.
  intros Hq. unfold round_binary64.
  destruct (Qeq_bool q 0) eqn:H0; [done|].
  apply Qmult_le_0_compat; [|apply Qlt_le_weak, pow2_pos].
  change 0 with (inject_Z 0). rewrite <- Zle_Qle.
  rewrite <- (round_half_even_Z 0). apply round_half_even_mono.
  apply Qle_shift_div_l; [apply pow2_pos|]. by rewrite Qmult_0_l.
Qed.

Lemma ulp_exp_positive q : 0 < q -> ulp_exp q = Z.max (Qlog2 q - 52) (-1074).
Proof. intros Hq. unfold ulp_exp. by rewrite Qabs_positive. Qed.

(** Rounding keeps the order. *)
Lemma round_binary64_mono q1 q2 :
  0 <= q1 -> q1 <= q2 -> round_binary64 q1 <= round_binary64 q2.
Proof.
  intros H1 H12.
  destruct (Qeq_bool q1 0) eqn:H0.
  { unfold round_binary64 at 1. rewrite H0. apply round_binary64_nonneg.
    by eapply Qle_trans. }
  assert (0 < q1) as Hq1.
  { apply Qle_lt_or_eq in H1 as [?|Heq]; [done|].
    symmetry in Heq. apply Qeq_bool_iff in Heq. congruence. }
  assert (0 < q2) as Hq2 by (by eapply Qlt_le_trans).
  pose proof (Qlog2_mono _ _ Hq1 H12) as Hlog.
  pose proof (ulp_exp_positive _ Hq1) as He1.
  pose proof (ulp_exp_positive _ Hq2) as He2.
  destruct (Z.eq_dec (ulp_exp q1) (ulp_exp q2)) as [Heq|Hne].
  - rewrite !round_binary64_positive by done. rewrite Heq.
    apply Qmult_le_compat_r; [|apply Qlt_le_weak, pow2_pos].
    rewrite <- Zle_Qle. apply round_half_even_mono.
    apply Qmult_le_compat_r; [done|].
    apply Qlt_le_weak, Qinv_lt_0_compat, pow2_pos.
  - destruct (Qlog2_spec _ Hq1) as [_ Hup].
    destruct (Qlog2_spec _ Hq2) as [Hlow _].
    apply Qle_trans with (2 ^ Qlog2 q2).
    + apply round_binary64_le_pow2; [done| |lia].
      apply Qlt_le_weak. eapply Qlt_le_trans; [exact Hup|].
      apply pow2_le. lia.
    + apply round_binary64_ge_pow2; [done|done|lia].
Qed.

Lemma round_binary64_comp q1 q2 :
  0 <= q1 -> q1 == q2 -> round_binary64 q1 == round_binary64 q2.
Proof.
  intros H1 H12. apply Qle_antisym; apply round_binary64_mono.
  - done.
  - rewrite H12. apply Qle_refl.
  - by rewrite <- H12.
  - rewrite H12. apply Qle_refl.
Qed.

Lemma round_binary64_1 : round_binary64 1 == 1.
Proof. by vm_compute. Qed.

Lemma round_binary64_255 : round_binary64 (inject_Z 255) == inject_Z 255.
Proof. by vm_compute. Qed.

Lemma round_binary64_2p64 :
  round_binary64 (inject_Z (2 ^ 64)) == inject_Z (2 ^ 64).
Proof. by vm_compute. Qed.

(** Below [2 ^ 64] nothing overflows. *)
Lemma fl_finite q :
  0 <= q -> q <= inject_Z (2 ^ 64) -> fl q = Finite (round_binary64 q).
Proof.
  intros H0 H64. unfold fl.
  destruct (Qle_bool _ _) eqn:Hover; [exfalso|done].
  apply Qle_bool_iff in Hover.
  rewrite Qabs_pos in Hover by (by apply round_binary64_nonneg).
  pose proof (round_binary64_mono _ _ H0 H64) as Hle.
  rewrite round_binary64_2p64 in Hle.
  assert (inject_Z (2 ^ 64) < 2 ^ emax) as Hlt by (by vm_compute).
  apply (Qlt_irrefl (2 ^ emax)).
  eapply Qle_lt_trans; [exact Hover|]. by eapply Qle_lt_trans.
Qed.

Lemma inject_nonneg z : (0 <= z)%Z -> 0 <= inject_Z z.
Proof. intros H. change 0 with (inject_Z 0). by rewrite <- Zle_Qle. Qed.

Lemma divisor_positive d : (0 < d)%Z -> 1 <= round_binary64 (inject_Z d).
Proof.
  intros Hd. rewrite <- round_binary64_1.
  apply round_binary64_mono; [done|].
  change 1 with (inject_Z 1). rewrite <- Zle_Qle. lia.
Qed.

Section Scaled.

Context (x d : Z) (Hx : (0 <= x <= d)%Z) (Hd : (0 < d <= 2 ^ 64)%Z).

Let X := round_binary64 (inject_Z x).
Let D := round_binary64 (inject_Z d).

Lemma dividend_range : 0 <= X /\ X <= D.
Proof.
  split.
  - apply round_binary64_nonneg, inject_nonneg. lia.
  - apply round_binary64_mono; [apply inject_nonneg; lia|].
    rewrite <- Zle_Qle. lia.
Qed.

Lemma quotient_range : 0 <= X / D /\ X / D <= 1.
Proof.
  pose proof (divisor_positive d ltac:(lia)) as HD. fold D in HD.
  destruct dividend_range as [HX0 HXD].
  assert (0 < D) as HD0 by (by eapply Qlt_le_trans; [|exact HD]).
  split.
  - apply Qle_shift_div_l; [done|]. by rewrite Qmult_0_l.
  - apply Qle_shift_div_r; [done|]. by rewrite Qmult_1_l.
Qed.

Lemma rounded_quotient_range :
  0 <= round_binary64 (X / D) /\ round_binary64 (X / D) <= 1.
Proof.
  destruct quotient_range as [H0 H1]. split.
  - by apply round_binary64_nonneg.
  - rewrite <- round_binary64_1. by apply round_binary64_mono.
Qed.

Lemma product_range :
  0 <= round_binary64 (X / D) * round_binary64 (inject_Z 255)
  /\ round_binary64 (X / D) * round_binary64 (inject_Z 255) <= inject_Z 255.
Proof.
  destruct rounded_quotient_range as [H0 H1].
  rewrite round_binary64_255. split.
  - apply Qmult_le_0_compat; [done|]. by apply inject_nonneg.
  - rewrite <- (Qmult_1_l (inject_Z 255)) at 2.
    apply Qmult_le_compat_r; [done|]. by apply inject_nonneg.
Qed.

Lemma scaled_range : 0 <= scaled x d /\ scaled x d <= inject_Z 255.
Proof.
  destruct product_range as [H0 H1]. unfold scaled. fold X D. split.
  - by apply round_binary64_nonneg.
  - rewrite <- round_binary64_255 at 2. by apply round_binary64_mono.
Qed.

Lemma rescale_value :
  multiply (true_divide (of_int x) (of_int d)) (of_int 255)
  = Finite (scaled x d).
Proof.
  pose proof (divisor_positive d ltac:(lia)) as HD. fold D in HD.
  destruct quotient_range as [Hq0 Hq1].
  destruct product_range as [Hp0 Hp1].
  assert (forall q, q <= inject_Z 255 -> q <= inject_Z (2 ^ 64)) as Hsmall.
  { intros q Hq. eapply Qle_trans; [exact Hq|]. by rewrite <- Zle_Qle. }
  unfold of_int.
  rewrite (fl_finite (inject_Z x));
    [|apply inject_nonneg; lia | rewrite <- Zle_Qle; lia].
  rewrite (fl_finite (inject_Z d));
    [|apply inject_nonneg; lia | rewrite <- Zle_Qle; lia].
  rewrite (fl_finite (inject_Z 255)) by done.
  unfold true_divide. fold X D.
  destruct (Qeq_bool D 0) eqn:HD0.
  { apply Qeq_bool_iff in HD0. rewrite HD0 in HD. done. }
  rewrite fl_finite; [|done|].
  2:{ apply Hsmall. eapply Qle_trans; [exact Hq1|]. done. }
  unfold multiply. rewrite fl_finite; [done|done|by apply Hsmall].
Qed.

End Scaled.

Lemma scaled_mono x y d :
  (0 <= x <= y)%Z -> (y <= d)%Z -> (0 < d)%Z -> scaled x d <= scaled y d.
Proof.
  intros Hxy Hyd Hd. unfold scaled.
  pose proof (divisor_positive d Hd) as HD.
  set (D := round_binary64 (inject_Z d)) in *.
  assert (0 < D) as HD0 by (by eapply Qlt_le_trans; [|exact HD]).
  assert (0 <= round_binary64 (inject_Z x)) as HX
    by (apply round_binary64_nonneg, inject_nonneg; lia).
  assert (0 <= round_binary64 (inject_Z x) / D) as HXD.
  { apply Qle_shift_div_l; [done|]. by rewrite Qmult_0_l. }
  apply round_binary64_mono.
  - apply Qmult_le_0_compat; [by apply round_binary64_nonneg|].
    by apply round_binary64_nonneg.
  - apply Qmult_le_compat_r; [|by apply round_binary64_nonneg].
    apply round_binary64_mono; [done|].
    apply Qmult_le_compat_r; [|by apply Qlt_le_weak, Qinv_lt_0_compat].
    apply round_binary64_mono; [apply inject_nonneg; lia|].
    rewrite <- Zle_Qle. lia.
Qed.

Lemma scaled_zero d : (0 < d)%Z -> scaled 0 d == 0.
Proof.
  intros Hd. unfold scaled.
  pose proof (divisor_positive d Hd) as HD.
  set (D := round_binary64 (inject_Z d)) in *.
  change (round_binary64 (inject_Z 0)) with 0.
  assert (round_binary64 (0 / D) == round_binary64 0) as Hq.
  { apply round_binary64_comp.
    - unfold Qdiv. rewrite Qmult_0_l. done.
    - unfold Qdiv. by rewrite Qmult_0_l. }
  change (round_binary64 0) with 0 in Hq.
  transitivity (round_binary64 0); [|done].
  apply round_binary64_comp.
  - rewrite Hq, Qmult_0_l. done.
  - by rewrite Hq, Qmult_0_l.
Qed.

Lemma scaled_full d : (0 < d)%Z -> scaled d d == inject_Z 255.
Proof.
  intros Hd. unfold scaled.
  pose proof (divisor_positive d Hd) as HD.
  set (D := round_binary64 (inject_Z d)) in *.
  assert (~ D == 0) as HD0.
  { intros H0. rewrite H0 in HD. done. }
  assert (round_binary64 (D / D) == 1) as Hq.
  { transitivity (round_binary64 1); [|apply round_binary64_1].
    apply round_binary64_comp.
    - unfold Qdiv. rewrite Qmult_inv_r by done. done.
    - unfold Qdiv. by rewrite Qmult_inv_r. }
  transitivity (round_binary64 (inject_Z 255)); [|apply round_binary64_255].
  apply round_binary64_comp.
  - rewrite Hq, Qmult_1_l, round_binary64_255. done.
  - by rewrite Hq, Qmult_1_l, round_binary64_255.
Qed.

Lemma wrap_in_range dt z : in_range dt z -> wrap dt z = z.
Proof.
  unfold in_range, wrap. intros Hz.
  rewrite Z.mod_small; [lia|].
  destruct dt; unfold min_int, max_int in *; simpl in *; lia.
Qed.

Lemma min_int_nonpos dt : (min_int dt <= 0)%Z.
Proof. by destruct dt. Qed.

Lemma max_int_bound dt : (max_int dt < 2 ^ 64)%Z.
Proof. by destruct dt. Qed.

(** A pixel of an array whose spread [hi - lo] fits the dtype. *)
Lemma rescale_pixel_value dt lo hi p :
  (lo <= p <= hi)%Z -> (lo < hi)%Z -> (hi - lo <= max_int dt)%Z ->
  rescale_pixel dt lo hi p = Some (Qfloor (scaled (p - lo) (hi - lo)))
  /\ (0 <= Qfloor (scaled (p - lo) (hi - lo)) <= 255)%Z.
Proof.
  intros Hp Hlohi Hfit.
  pose proof (min_int_nonpos dt). pose proof (max_int_bound dt).
  unfold rescale_pixel.
  rewrite !wrap_in_range by (unfold in_range; lia).
  rewrite rescale_value by lia.
  destruct (scaled_range (p - lo) (hi - lo)) as [Hs0 Hs255]; [lia|lia|].
  apply Qfloor_resp_le in Hs0 as Hf0. apply Qfloor_resp_le in Hs255 as Hf255.
  rewrite Qfloor_Z in Hf255. change (Qfloor 0) with 0%Z in Hf0.
  split; [|lia].
  unfold astype_uint8, Qtrunc.
  apply Qle_bool_iff in Hs0. rewrite Hs0.
  destruct (Z.leb_spec 0 (Qfloor (scaled (p - lo) (hi - lo)))); [|lia].
  destruct (Z.leb_spec (Qfloor (scaled (p - lo) (hi - lo))) 255); [done|lia].
Qed.

End Rounding.

Section AgainstReference.

(** Every spread up to 48 with every offset inside it. *)
Example agree_small :
  forallb (λ d, forallb (λ x, Reference.agree x d) (seqZ 0 (d + 1)))
          (seqZ 0 49) = true.
Proof. by vm_compute. Qed.

(** Spreads of 8-bit, 12-bit and 16-bit images. *)
Example agree_sampled :
  forallb (λ d, forallb (λ x, Reference.agree x d)
                        [0; 1; 2; 3; d / 3; d / 2; d - 1; d])
          [255; 256; 257; 1000; 4095; 4096; 32767; 32768; 40000; 65535]
  = true.
Proof. by vm_compute. Qed.

(** Values that wrapped inside int16. *)
Example agree_wrapped :
  forallb (λ d, forallb (λ x, Reference.agree x d)
                        [0; 1; 200; 300; 20000; -25536; -32768])
          [-25536; -1; -32768]
  = true.
Proof. by vm_compute. Qed.

End AgainstReference.

Section Normalize.

Lemma foldr_min_spec x xs :
  foldr Z.min x xs ∈ x :: xs ∧ ∀ y, y ∈ x :: xs → foldr Z.min x xs ≤ y.
Proof.
  induction xs as [|z xs [IHin IHle]]; simpl.
  - split; [by left|]. intros y ->%list_elem_of_singleton. lia.
  - split.
    + destruct (Z.min_spec z (foldr Z.min x xs)) as [[_ ->]|[_ ->]].
      * right. by left.
      * apply elem_of_cons in IHin as [->|Hin]; [by left|].
        right. by right.
    + intros y Hy. assert (y = z ∨ y ∈ x :: xs) as [->|Hin].
      { apply elem_of_cons in Hy as [->|Hy]; [right; by left|].
        apply elem_of_cons in Hy as [->|Hy]; [by left|]. right. by right. }
      * lia.
      * specialize (IHle y Hin). lia.
Qed.

Lemma foldr_max_spec x xs :
  foldr Z.max x xs ∈ x :: xs ∧ ∀ y, y ∈ x :: xs → y ≤ foldr Z.max x xs.
Proof.
  induction xs as [|z xs [IHin IHle]]; simpl.
  - split; [by left|]. intros y ->%list_elem_of_singleton. lia.
  - split.
    + destruct (Z.max_spec z (foldr Z.max x xs)) as [[_ ->]|[_ ->]].
      * apply elem_of_cons in IHin as [->|Hin]; [by left|].
        right. by right.
      * right. by left.
    + intros y Hy. assert (y = z ∨ y ∈ x :: xs) as [->|Hin].
      { apply elem_of_cons in Hy as [->|Hy]; [right; by left|].
        apply elem_of_cons in Hy as [->|Hy]; [by left|]. right. by right. }
      * lia.
      * specialize (IHle y Hin). lia.
Qed.

Lemma arr_min_spec a lo :
  arr_min a = inr lo → lo ∈ arr_data a ∧ ∀ p, p ∈ arr_data a → lo ≤ p.
Proof.
  unfold arr_min. destruct (arr_data a) as [|x xs]; [done|].
  intros [= <-]. apply foldr_min_spec.
Qed.

Lemma arr_max_spec a hi :
  arr_max a = inr hi → hi ∈ arr_data a ∧ ∀ p, p ∈ arr_data a → p ≤ hi.
Proof.
  unfold arr_max. destruct (arr_data a) as [|x xs]; [done|].
  intros [= <-]. apply foldr_max_spec.
Qed.

(** What lines 68 and 69 do to an array whose spread fits its dtype:
    every pixel gets a defined value in 0..255, the minimum goes to 0, the
    maximum to 255, and the order of the pixels is kept. *)
Theorem normalize_stretches (a : ndarray) (lo hi : Z) :
  arr_min a = inr lo → arr_max a = inr hi →
  lo < hi → hi - lo ≤ max_int (arr_dtype a) →
  ∃ out,
    normalize a = inr {| u8_shape := arr_shape a; u8_data := Some <$> out |}
    ∧ length out = length (arr_data a)
    ∧ Forall (λ v, 0 ≤ v ≤ 255) out
    ∧ 0 ∈ out ∧ 255 ∈ out
    ∧ ∀ i j p q vp vq,
        arr_data a !! i = Some p → arr_data a !! j = Some q →
        out !! i = Some vp → out !! j = Some vq →
        p ≤ q → vp ≤ vq.
Proof.
  intros Hmin Hmax Hlt Hfit.
  destruct (arr_min_spec _ _ Hmin) as [Hlo_in Hlo].
  destruct (arr_max_spec _ _ Hmax) as [Hhi_in Hhi].
  set (f := λ p, Qfloor (scaled (p - lo) (hi - lo))).
  exists (f <$> arr_data a).
  assert (∀ p, p ∈ arr_data a →
               rescale_pixel (arr_dtype a) lo hi p = Some (f p)
               ∧ 0 ≤ f p ≤ 255) as Hpix.
  { intros p Hp. apply rescale_pixel_value; [|done|done].
    split; [by apply Hlo | by apply Hhi]. }
  split; [|split; [|split; [|split; [|split]]]].
  - unfold normalize. rewrite Hmin, Hmax. f_equal. f_equal.
    rewrite <- list_fmap_compose. apply list_fmap_ext.
    intros i p Hp. simpl. apply Hpix. by eapply list_elem_of_lookup_2.
  - by rewrite length_fmap.
  - apply Forall_fmap, Forall_forall. intros p Hp. by apply Hpix.
  - apply list_elem_of_fmap. exists lo. split; [|done].
    unfold f. rewrite Z.sub_diag.
    rewrite (Qfloor_comp _ _ (scaled_zero (hi - lo) ltac:(lia))). done.
  - apply list_elem_of_fmap. exists hi. split; [|done].
    unfold f. rewrite (Qfloor_comp _ _ (scaled_full (hi - lo) ltac:(lia))).
    by rewrite Qfloor_Z.
  - intros i j p q vp vq Hp Hq Hvp Hvq Hpq.
    rewrite list_lookup_fmap, Hp in Hvp. rewrite list_lookup_fmap, Hq in Hvq.
    injection Hvp as <-. injection Hvq as <-.
    apply list_elem_of_lookup_2 in Hp, Hq.
    apply Qfloor_resp_le, scaled_mono.
    + specialize (Hlo p Hp). lia.
    + specialize (Hhi q Hq). lia.
    + lia.
Qed.

(** X18: unsigned pixel data always fits, since the spread of values
    between 0 and the largest value of the dtype is no larger than that
    value.  So an unsigned array that is not constant is stretched: every
    pixel gets a defined value in 0..255, the minimum goes to 0, the
    maximum to 255, and the order of the pixels is kept. *)
Corollary normalize_stretches_unsigned (a : ndarray) (lo hi : Z) :
  wf_ndarray a → signed (arr_dtype a) = false →
  arr_min a = inr lo → arr_max a = inr hi → lo < hi →
  ∃ out,
    normalize a = inr {| u8_shape := arr_shape a; u8_data := Some <$> out |}
    ∧ Forall (λ v, 0 ≤ v ≤ 255) out
    ∧ 0 ∈ out ∧ 255 ∈ out
    ∧ ∀ i j p q vp vq,
        arr_data a !! i = Some p → arr_data a !! j = Some q →
        out !! i = Some vp → out !! j = Some vq →
        p ≤ q → vp ≤ vq.
Proof.
  intros Hwf Hunsigned Hmin Hmax Hlt.
  destruct (arr_min_spec _ _ Hmin) as [Hlo_in _].
  destruct (arr_max_spec _ _ Hmax) as [Hhi_in _].
  unfold wf_ndarray in Hwf. rewrite Forall_forall in Hwf.
  pose proof (Hwf _ Hlo_in) as [Hlo0 _]. pose proof (Hwf _ Hhi_in) as [_ Hhi1].
  unfold min_int in Hlo0. rewrite Hunsigned in Hlo0. simpl in Hlo0.
  assert (hi - lo ≤ max_int (arr_dtype a)) as Hfit by (unfold in_range in *; lia).
  destruct (normalize_stretches a lo hi Hmin Hmax Hlt Hfit)
    as (out & Hnorm & _ & Hrange & H0 & H255 & Hmono).
  by exists out.
Qed.



(** X19: an array that holds one value throughout, whatever the value
    and the dtype: line 68 divides zero by zero, the result is [nan] in
    every place, and line 69 converts that into bytes numpy does not
    define.  No exception is raised. *)
Lemma normalize_constant (a : ndarray) (c : Z) :
  arr_data a ≠ [] → Forall (λ p, p = c) (arr_data a) →
  normalize a = inr {| u8_shape := arr_shape a;
                       u8_data := (λ _, None) <$> arr_data a |}.
Proof.
  intros Hne Hconst.
  assert (arr_min a = inr c) as Hmin.
  { unfold arr_min. destruct (arr_data a) as [|x xs] eqn:Hd; [done|].
    f_equal. destruct (foldr_min_spec x xs) as [Hin _].
    rewrite Forall_forall in Hconst. by apply Hconst. }
  assert (arr_max a = inr c) as Hmax.
  { unfold arr_max. destruct (arr_data a) as [|x xs] eqn:Hd; [done|].
    f_equal. destruct (foldr_max_spec x xs) as [Hin _].
    rewrite Forall_forall in Hconst. by apply Hconst. }
  unfold normalize. rewrite Hmin, Hmax. f_equal. f_equal.
  apply list_fmap_ext. intros i p Hp.
  apply list_elem_of_lookup_2 in Hp. rewrite Forall_forall in Hconst.
  rewrite (Hconst p Hp). unfold rescale_pixel. rewrite Z.sub_diag.
  by destruct (arr_dtype a).
Qed.

End Normalize.

(** ** The pixel arithmetic at two inputs *)

Section Evaluations.

(** C1: a signed 16-bit image with values between -20000 and 20000.  The
    spread 40000 wraps to -25536 inside int16, so the pixels -19800 and
    -19700 come out of line 68 as -1.99 and -2.99, which uint8 cannot hold:
    line 69 leaves their bytes undefined, and neither the range 0..255 nor
    the order of the pixels is kept. *)
Theorem normalize_wide_signed :
  normalize Samples.wide_signed
  = inr {| u8_shape := [2%nat; 2%nat];
           u8_data := [Some 0; None; None; Some 255] |}.
Proof. by vm_compute. Qed.


(** At the C level the same bytes are left open: the sample image of one
    grey level. *)
Example normalize_flat :
  normalize Samples.flat
  = inr {| u8_shape := [2%nat; 2%nat];
           u8_data := [None; None; None; None] |}.
Proof. by vm_compute. Qed.

(** So the image is not mapped onto 0..255 pixel by pixel. *)
Lemma wide_signed_not_stretched :
  ¬ ∃ out, normalize Samples.wide_signed
           = inr {| u8_shape := [2%nat; 2%nat]; u8_data := Some <$> out |}.
Proof.
  intros [out Hout]. vm_compute in Hout.
  destruct out as [|v0 [|v1 out]]; discriminate.
Qed.

(** The steps behind the first of these. *)
Example wide_signed_trace :
  wrap Int16 (20000 - -20000) = -25536
  ∧ ∃ q1 q2,
      multiply (true_divide (of_int (wrap Int16 (-19800 - -20000)))
                            (of_int (wrap Int16 (20000 - -20000))))
               (of_int 255) = Finite q1
      ∧ Qtrunc q1 = -1
      ∧ multiply (true_divide (of_int (wrap Int16 (-19700 - -20000)))
                              (of_int (wrap Int16 (20000 - -20000))))
                 (of_int 255) = Finite q2
      ∧ Qtrunc q2 = -2.
Proof.
  split; [done|]. eexists _, _.
  split; [by vm_compute|]. split; [by vm_compute|].
  split; by vm_compute.
Qed.

End Evaluations.

(** ** The theorems at the sample inputs *)

Section Witnesses.

Import Samples.

Lemma find_dicom_files_terminates_witness :
  0 ≤ 3
  ∧ find_dicom_files_within (S (Nat.min (Z.to_nat 3) (height tree)))
                            ["in"] tree 3
    = Some (find_dicom_files ["in"] tree 3).
Proof.
  split; [lia|]. apply (find_dicom_files_terminates ["in"] tree 3). lia.
Defined.

Lemma get_patient_folder_by_depth_witness :
  get_patient_folder ["in"; "img1"] 2 = inl (IndexError 2)
  ∧ get_patient_folder (series ++ ["img1"]) 2
    = inr (name (Nat.iter 2 parent (parent (series ++ ["img1"]))))
  ∧ get_patient_folder (series ++ ["img1"]) 2 = inr "patientA".
Proof.
  split; [|split].
  - apply (proj1 (get_patient_folder_by_depth ["in"; "img1"] 2)). simpl. lia.
  - apply (proj1 (proj2 (get_patient_folder_by_depth (series ++ ["img1"]) 2))).
    simpl. lia.
  - apply (proj2 (proj2 (get_patient_folder_by_depth (series ++ ["img1"]) 2))).
    simpl. lia.
Defined.

Lemma convert_skips_without_pixel_data_witness :
  convert_dicom_to_jpeg world (series ++ ["nopix"]) ["out"]
  = Ret (skip_message (series ++ ["nopix"]))
  ∧ run (convert_dicom_to_jpeg world (series ++ ["nopix"]) ["out"]) ∅
    = (skip_message (series ++ ["nopix"]), ∅)
  ∧ contains (skip_message (series ++ ["nopix"])) (str (series ++ ["nopix"])).
Proof.
  eapply (convert_skips_without_pixel_data world (series ++ ["nopix"]) ["out"]).
  - reflexivity.
  - reflexivity.
Defined.

Lemma sample_convertible d :
  d ∈ two_images → convertible world "patientA" d.
Proof.
  intros Hd. eexists _, gradient, _.
  assert (d = series ++ ["img1"] ∨ d = series ++ ["img2"]) as [->| ->].
  { unfold two_images in Hd. apply elem_of_cons in Hd as [->|Hd]; [by left|].
    apply list_elem_of_singleton in Hd as ->. by right. }
  - repeat split; reflexivity.
  - repeat split; reflexivity.
Defined.

Lemma serial_numbering_witness :
  (convert_each world ["out"] two_images ∅).1
  = ["✔ Saved: /out/patientA/00.jpg"; "✔ Saved: /out/patientA/01.jpg"]
  ∧ take 2 (convert_each world ["out"] two_images ∅).1
    = ["✔ Saved: /out/patientA/00.jpg"; "✔ Saved: /out/patientA/01.jpg"]
  ∧ NoDup ["00.jpg"; "01.jpg"]
  ∧ do_glob (convert_each world ["out"] two_images ∅).2 ["out"; "patientA"]
    ≡ₚ [["out"; "patientA"; "00.jpg"]; ["out"; "patientA"; "01.jpg"]]
  ∧ ∀ i, (i ≤ 2)%nat →
         length (do_glob (convert_each world ["out"] (take i two_images) ∅).2
                         ["out"; "patientA"]) = i.
Proof.
  apply (serial_numbering world "patientA" ["out"] two_images ∅).
  - apply Forall_forall. apply sample_convertible.
  - intros q _. apply lookup_empty.
  - intros q content _. rewrite lookup_empty. discriminate.
Defined.

(** Ten rounds of two workers give each worker ten steps. *)
Lemma ten_rounds_each : gives_each 2 (5 * length two_images) (round_robin 2 10).
Proof.
  intros [|[|v]] Hv; [vm_compute; lia | vm_compute; lia | lia].
Defined.

Lemma results_in_submission_order_witness :
  finished (batch world two_images ["out"] 2 (round_robin 2 10) ∅) = true
  ∧ collect 2 (batch world two_images ["out"] 2 second_first ∅)
    = Some ["✔ Saved: /out/patientA/01.jpg"; "✔ Saved: /out/patientA/00.jpg"]
  ∧ replay (convert_dicom_to_jpeg world (series ++ ["img1"]) ["out"])
           (answers_to 0 (batch_log world two_images ["out"] 2 second_first ∅))
    = Some "✔ Saved: /out/patientA/01.jpg"
  ∧ replay (convert_dicom_to_jpeg world (series ++ ["img2"]) ["out"])
           (answers_to 1 (batch_log world two_images ["out"] 2 second_first ∅))
    = Some "✔ Saved: /out/patientA/00.jpg".
Proof.
  split.
  - apply (proj1 (results_in_submission_order world two_images ["out"] 2 ∅));
      [lia | apply ten_rounds_each].
  - destruct (proj2 (results_in_submission_order world two_images ["out"] 2 ∅)
                    second_first) as (results & Hres & Hlen & Hall).
    { vm_compute. reflexivity. }
    assert (results = ["✔ Saved: /out/patientA/01.jpg";
                       "✔ Saved: /out/patientA/00.jpg"]) as ->.
    { vm_compute in Hres. by injection Hres as <-. }
    split; [exact Hres|]. split.
    + destruct (Hall 0%nat (series ++ ["img1"])) as (s & Hs & Hret);
        [reflexivity|].
      injection Hs as <-. exact Hret.
    + destruct (Hall 1%nat (series ++ ["img2"])) as (s & Hs & Hret);
        [reflexivity|].
      injection Hs as <-. exact Hret.
Defined.

(** Fifteen steps of the only worker. *)
Lemma fifteen_steps : gives_each 1 (5 * length three_files) (alone 15).
Proof. intros [|v] Hv; [vm_compute; lia | lia]. Defined.

Lemma failures_become_results_witness :
  contains "❌ Error processing /in/patientA/study/series/bad: not a DICOM file"
           "/in/patientA/study/series/bad"
  ∧ finished (batch world three_files ["out"] 1 (alone 15) ∅) = true
  ∧ started (batch world three_files ["out"] 1 (alone 15) ∅) = [0; 1; 2]%nat
  ∧ collect 3 (batch world three_files ["out"] 1 (alone 15) ∅)
    = Some ["✔ Saved: /out/patientA/00.jpg";
            "✔ Saved: /out/patientA/01.jpg";
            "❌ Error processing /in/patientA/study/series/bad: not a DICOM file"]
  ∧ replay (convert_body world (series ++ ["bad"]) ["out"])
           (answers_to 2 (batch_log world three_files ["out"] 1 (alone 15) ∅))
    = Some (inl (Exception "InvalidDicomError" "not a DICOM file")).
Proof.
  pose proof (failures_become_results world three_files ["out"] 1 ∅)
    as (Hcontains & Hfair & Hrest).
  split.
  { apply (Hcontains (series ++ ["bad"])
                     (Exception "InvalidDicomError" "not a DICOM file")). }
  assert (finished (batch world three_files ["out"] 1 (alone 15) ∅) = true)
    as Hfin by (apply Hfair; [lia | apply fifteen_steps]).
  split; [exact Hfin|].
  destruct (Hrest (alone 15) Hfin) as (Hstarted & results & Hres & Hlen & Hall).
  split; [exact Hstarted|].
  assert (results = ["✔ Saved: /out/patientA/00.jpg";
                     "✔ Saved: /out/patientA/01.jpg";
                     "❌ Error processing /in/patientA/study/series/bad: not a DICOM file"])
    as ->.
  { vm_compute in Hres. by injection Hres as <-. }
  split; [exact Hres|].
  destruct (Hall 2%nat (series ++ ["bad"])) as (r & Hr & Hs); [reflexivity|].
  rewrite Hr. f_equal. destruct r as [e|message].
  - vm_compute in Hr. by injection Hr as <-.
  - vm_compute in Hr. discriminate.
Defined.

Lemma one_line_per_file_witness :
  (∃ schedule printed fs',
     convert_dicom world ["in"] tree ["out"] 1 schedule ∅
     = Completed printed fs')
  ∧ ∃ banner results,
      [ "🚀 Starting DICOM to JPEG conversion with 1 threads...";
        "📂 Found 4 DICOM files.";
        "📂 Input Directory: /in";
        "💾 Output Directory: /out";
        "✔ Saved: /out/patientA/00.jpg";
        "✔ Saved: /out/patientA/01.jpg";
        "Skipping /in/patientA/study/series/nopix - No Pixel Data Found";
        "❌ Error processing /in/patientA/study/series/bad: not a DICOM file";
        "✅ Conversion complete!" ]
      = banner ++ results ++ ["✅ Conversion complete!"]
      ∧ length banner = 4%nat
      ∧ Forall2 (λ d s, may_return (convert_dicom_to_jpeg world d ["out"]) s)
                (find_dicom_files ["in"] tree 3) results.
Proof.
  split.
  - apply (proj1 (proj2 (one_line_per_file world ["in"] tree ["out"] 1 ∅))).
    lia.
  - eapply (proj2 (proj2 (one_line_per_file world ["in"] tree ["out"] 1 ∅))
                  (alone 14) _
                  (disk (batch world (find_dicom_files ["in"] tree 3) ["out"] 1
                               (alone 14) ∅))).
    + vm_compute. discriminate.
    + vm_compute. reflexivity.
Defined.

(** The results of the sample batch in which the second worker finishes
    first: the second file got the number 00, the first file the number
    01, and the list is still in the order of the files. *)
Example second_first_results :
  collect 2 (batch world two_images ["out"] 2 second_first ∅)
  = Some ["✔ Saved: /out/patientA/01.jpg"; "✔ Saved: /out/patientA/00.jpg"]
  ∧ futures (batch world two_images ["out"] 2 (take 6 second_first) ∅)
    = {[ 1%nat := "✔ Saved: /out/patientA/00.jpg" ]}.
Proof. split; by vm_compute. Qed.

(** Two workers inside the same folder at the same time: both count the
    entries before either writes, and both write [00.jpg]. *)
Example same_folder_race :
  collect 2 (batch world two_images ["out"] 2
                   [0; 1; 0; 1; 0; 1; 0; 1; 0; 1]%nat ∅)
  = Some ["✔ Saved: /out/patientA/00.jpg"; "✔ Saved: /out/patientA/00.jpg"].
Proof. by vm_compute. Qed.


End Witnesses.

(** * Further properties *)

(** ** Discoverer and resolver together *)

Section DiscoveredFiles.

Lemma reaches_first d rel e :
  reaches d rel e →
  ∃ n rest, rel = n :: rest
            ∧ (rest = [] ∨ ∃ sub, (n, Subdir sub) ∈ iterdir d).
Proof.
  intros H. inversion H; subst; simpl; eauto 6.
Qed.

(** X1: a file the discoverer finds [levels_up + 1] levels down resolves,
    with that offset, to the name of the directory right below the input
    root that it lies in; the resolver does not fail on it.  The
    orchestrator uses depth 3 and the converter offset 2. *)
Theorem discovered_file_resolves (input_path : Path) (d : directory)
  (levels_up : nat) (q : Path) :
  q ∈ find_dicom_files input_path d (Z.of_nat levels_up + 1) →
  ∃ n rest sub,
    q = input_path ++ n :: rest
    ∧ length rest = S levels_up
    ∧ (n, Subdir sub) ∈ iterdir d
    ∧ get_patient_folder q levels_up = inr n.
Proof.
  intros (rel & -> & Hlen & Hreach)%find_dicom_files_exact.
  destruct (reaches_first _ _ _ Hreach) as (n & rest & -> & Hfirst).
  simpl in Hlen.
  destruct Hfirst as [->|[sub Hsub]]; [simpl in Hlen; lia|].
  exists n, rest, sub. split; [done|]. split; [lia|]. split; [done|].
  rewrite get_patient_folder_component
    by (rewrite length_app; simpl; lia).
  f_equal. rewrite length_app. simpl.
  replace (length input_path + S (length rest) - 2 - levels_up)%nat
    with (length input_path + 0)%nat by lia.
  by rewrite app_nth2_plus.
Qed.

Lemma find_dicom_files_below input_path d depth q :
  q ∈ find_dicom_files input_path d depth →
  ∃ n rest, q = input_path ++ n :: rest.
Proof.
  intros (rel & -> & _ & Hreach)%find_dicom_files_exact.
  destruct (reaches_first _ _ _ Hreach) as (n & rest & -> & _). eauto.
Qed.

Lemma unique_names_subdir children n sub :
  unique_names (Directory children) → (n, Subdir sub) ∈ children →
  unique_names sub.
Proof.
  intros [_ Hsubs] Hin.
  induction children as [|[m e] rest IH]; [by apply elem_of_nil in Hin|].
  simpl in Hsubs. apply elem_of_cons in Hin as [Heq|Hin].
  - inversion Heq; subst. by destruct Hsubs.
  - apply IH; [|done]. destruct e; simpl in Hsubs; tauto.
Qed.

(** Pieces found under different names do not meet. *)
Lemma flat_map_NoDup {A} (f : string * A → list Path) (input_path : Path)
  (children : list (string * A)) :
  NoDup children.*1 →
  (∀ c, c ∈ children → NoDup (f c)) →
  (∀ c q, c ∈ children → q ∈ f c → ∃ rest, q = input_path ++ c.1 :: rest) →
  NoDup (flat_map f children).
Proof.
  induction children as [|c rest IH]; intros Hnames Hpieces Hshape; simpl.
  - constructor.
  - inversion Hnames as [|? ? Hfresh Hrest]; subst.
    apply NoDup_app. split; [apply Hpieces; by left|]. split.
    + intros q Hq Hq'.
      apply list_elem_of_In, in_flat_map in Hq' as (c' & Hc' & Hq').
      apply list_elem_of_In in Hc', Hq'.
      destruct (Hshape c q) as [r1 H1]; [by left | done |].
      destruct (Hshape c' q) as [r2 H2];
        [by right | done |].
      rewrite H1 in H2. apply app_inv_head in H2. injection H2 as Hname _.
      apply Hfresh. rewrite Hname. apply list_elem_of_fmap. by exists c'.
    + apply IH; [done| |].
      * intros c' Hc'. apply Hpieces. by right.
      * intros c' q Hc' Hq. apply Hshape; [by right | done].
Qed.

(** X2: on a tree in which every directory lists a name once, the
    discoverer returns no path twice. *)
Theorem find_dicom_files_NoDup (input_path : Path) (d : directory)
  (depth : Z) :
  unique_names d → NoDup (find_dicom_files input_path d depth).
Proof.
  revert input_path depth.
  induction d as [children IH] using directory_tree_ind.
  intros input_path depth Huniq. simpl.
  destruct (depth =? 0).
  - apply (flat_map_NoDup _ input_path); [by destruct Huniq| |].
    + intros [n e] _. simpl. destruct (is_file e); constructor;
        [by intros ?%elem_of_nil | constructor].
    + intros [n e] q _ Hq. simpl in *.
      destruct (is_file e); [|by apply elem_of_nil in Hq].
      apply list_elem_of_singleton in Hq as ->. by exists [].
  - apply (flat_map_NoDup _ input_path); [by destruct Huniq| |].
    + intros [n e] Hin. simpl. destruct e as [| |sub]; try constructor.
      rewrite Forall_forall in IH. apply (IH _ Hin).
      by eapply unique_names_subdir.
    + intros [n e] q _ Hq. simpl in *.
      destruct e as [| |sub]; try (by apply elem_of_nil in Hq).
      apply find_dicom_files_below in Hq as (m & rest & ->).
      exists (m :: rest). by rewrite <- app_assoc.
Qed.

(** X3: with a negative depth the discoverer finds nothing, whatever the
    tree: the depth never comes down to 0, and the recursion ends where the
    tree does. *)
Theorem find_dicom_files_negative_depth (input_path : Path) (d : directory)
  (depth : Z) :
  depth < 0 → find_dicom_files input_path d depth = [].
Proof.
  intros Hneg.
  destruct (find_dicom_files input_path d depth) as [|q l] eqn:Hfind; [done|].
  assert (q ∈ find_dicom_files input_path d depth) as Hq
    by (rewrite Hfind; by left).
  apply find_dicom_files_exact in Hq as (rel & _ & Hlen & Hreach).
  destruct rel; [by apply reaches_nonempty in Hreach | simpl in Hlen; lia].
Qed.

End DiscoveredFiles.

(** ** The converter on one file *)

Section OneFile.

Context (w : World).

(** The picture goes into the file when every step up to the encoder
    went through. *)
Lemma pixel_stage_inr dataset img :
  pixel_stage w dataset = inr img ↔
  image_stage w dataset = inr img ∧ encode w img = inr img.
Proof.
  unfold pixel_stage, image_stage, Image_fromarray, encode.
  destruct (pixel_array dataset) as [e|a]; [by split; [|intros []]|].
  destruct (normalize a) as [e|img']; [by split; [|intros []]|].
  destruct (fromarray_error w img'); [by split; [|intros []]|].
  split.
  - destruct (jpeg_error w img') eqn:Hjpeg; [done|].
    intros [= <-]. by rewrite Hjpeg.
  - intros [[= <-] Henc]. by destruct (jpeg_error w img').
Qed.

(** The steps of a conversion that gets as far as the disk. *)
Lemma convert_steps dicom_path output_base_dir dataset patient_folder :
  resolves w dicom_path dataset patient_folder →
  let folder := output_base_dir // patient_folder in
  ∃ k1 k2,
    convert_dicom_to_jpeg w dicom_path output_base_dir = Mkdir folder k1
    ∧ (∀ e, k1 (Some e) = Ret (error_message dicom_path e))
    ∧ k1 None = Glob folder k2
    ∧ ∀ files,
        match image_stage w dataset with
        | inl e => k2 files = Ret (error_message dicom_path e)
        | inr img =>
            let new_filename :=
              folder // (format_02d (length files) +:+ ".jpg") in
            ∃ k3, k2 files = Save new_filename (encode w img) k3
                  ∧ (∀ e, k3 (Some e) = Ret (error_message dicom_path e))
                  ∧ k3 None = Ret (saved_message new_filename)
        end.
Proof.
  intros (Hread & Hpix & Hfolder) folder.
  unfold convert_dicom_to_jpeg, try_except, convert_body, lift, mkdir, glob,
    save, image_stage.
  unfold mbind, mret, raising_bind, raising_ret.
  rewrite Hread. simpl. rewrite Hpix. simpl. rewrite Hfolder. simpl.
  fold folder. eexists _, _. split; [reflexivity|].
  split; [done|]. split; [reflexivity|]. intros files. simpl.
  destruct (pixel_array dataset) as [e|a]; simpl; [done|].
  destruct (normalize a) as [e|img]; simpl; [done|].
  destruct (Image_fromarray w img); simpl; [done|].
  eexists. split; [reflexivity|]. split; done.
Qed.

Lemma run_steps dicom_path output_base_dir dataset patient_folder fs :
  resolves w dicom_path dataset patient_folder →
  let folder := output_base_dir // patient_folder in
  let made := do_mkdir fs folder in
  run (convert_dicom_to_jpeg w dicom_path output_base_dir) fs
  = match made.1 with
    | Some e => (error_message dicom_path e, made.2)
    | None =>
        match image_stage w dataset with
        | inl e => (error_message dicom_path e, made.2)
        | inr img =>
            let new_filename :=
              folder // (format_02d (length (do_glob made.2 folder)) +:+ ".jpg")
            in
            let saved := do_save made.2 new_filename (encode w img) in
            (match saved.1 with
             | Some e => error_message dicom_path e
             | None => saved_message new_filename
             end, saved.2)
        end
    end.
Proof.
  intros Hres folder made.
  destruct (convert_steps _ output_base_dir _ _ Hres)
    as (k1 & k2 & -> & Hk1 & Hk1' & Hk2).
  fold folder in Hk1', Hk2 |- *. simpl. fold made.
  destruct made.1 as [e|]; [by rewrite Hk1|].
  rewrite Hk1'. simpl.
  specialize (Hk2 (do_glob made.2 folder)).
  destruct (image_stage w dataset) as [e|img]; [by rewrite Hk2|].
  destruct Hk2 as (k3 & -> & Hk3 & Hk3'). simpl.
  destruct (do_save _ _ _).1; [by rewrite Hk3 | by rewrite Hk3'].
Qed.

(** X4: a file that pydicom cannot read, and a file with pixel data that
    lies fewer than three components below the root, end as the error
    message for the file (for the second, the [IndexError] of the
    resolver); the conversion is then a program without a disk operation,
    so nothing is created. *)
Theorem early_failure_touches_nothing (dicom_path output_base_dir : Path) :
  (∀ e, dcmread w dicom_path = inl e →
        convert_dicom_to_jpeg w dicom_path output_base_dir
        = Ret (error_message dicom_path e))
  ∧ (∀ dataset, dcmread w dicom_path = inr dataset →
                PixelData dataset = true →
                (length dicom_path ≤ 2)%nat →
                convert_dicom_to_jpeg w dicom_path output_base_dir
                = Ret (error_message dicom_path (IndexError 2))).
Proof.
  split.
  - intros e. apply convert_decode_error.
  - intros dataset Hread Hpix Hlen.
    apply (convert_path_depth_error w _ _ dataset); [done|done|].
    apply get_patient_folder_short. by rewrite parents_length.
Qed.

(** X5: when reading the pixel array, rescaling it or wrapping it into an
    image fails (lines 67 to 72), the patient folder has already been
    made: the result is the error message, the folder is on the disk
    afterwards, nothing was opened for writing, and apart from directories
    on the way to the folder the disk is as before. *)
Theorem late_failure_leaves_folder (dicom_path output_base_dir : Path)
  (dataset : Dataset) (patient_folder : string) (fs : gmap Path node)
  (e : exn) :
  resolves w dicom_path dataset patient_folder →
  unobstructed fs (output_base_dir // patient_folder) →
  image_stage w dataset = inl e →
  ∃ fs',
    run (convert_dicom_to_jpeg w dicom_path output_base_dir) fs
    = (error_message dicom_path e, fs')
    ∧ fs' = (do_mkdir fs (output_base_dir // patient_folder)).2
    ∧ is_directory fs' (output_base_dir // patient_folder) = true
    ∧ ∀ q, fs' !! q = fs !! q
           ∨ (fs' !! q = Some DirNode
              ∧ q `prefix_of` output_base_dir // patient_folder).
Proof.
  intros Hres Hfree Hstage.
  destruct (do_mkdir_ok fs _ Hfree) as (fs1 & Hmk & Hdir & Hsame).
  exists fs1. rewrite (run_steps _ _ _ _ _ Hres). simpl.
  rewrite Hmk, Hstage. done.
Qed.

Lemma mkdir_from_obstructed made rest fs k content :
  (0 < k ≤ length rest)%nat →
  fs !! (made ++ take k rest) = Some (FileNode content) →
  ∃ e, mkdir_from made rest fs = inl e.
Proof.
  revert made fs k. induction rest as [|c rest IH]; intros made fs k Hk Hfile.
  - simpl in Hk. lia.
  - simpl. destruct k as [|k]; [lia|].
    destruct (decide (k = 0%nat)) as [->|Hk0].
    + simpl in Hfile. rewrite take_0 in Hfile. rewrite Hfile. eauto.
    + assert (made ++ take (S k) (c :: rest) = (made ++ [c]) ++ take k rest)
        as Heq by (simpl; by rewrite <- app_assoc).
      rewrite Heq in Hfile.
      destruct (fs !! (made ++ [c])) as [[|content']|] eqn:Hq.
      * eapply (IH _ _ k); [simpl in Hk; lia | done].
      * eauto.
      * eapply (IH _ _ k); [simpl in Hk; lia|].
        rewrite lookup_insert_ne; [done|].
        intros Hsame. apply (f_equal length) in Hsame.
        rewrite !length_app, length_take in Hsame. simpl in Hsame, Hk. lia.
Qed.

(** X6: a regular file where the patient folder or one of its ancestors
    should be makes the conversion end as an error message, and the disk
    is left exactly as it was. *)
Theorem obstructed_folder_fails (dicom_path output_base_dir : Path)
  (dataset : Dataset) (patient_folder : string) (fs : gmap Path node)
  (q : Path) (content : u8array) :
  resolves w dicom_path dataset patient_folder →
  q ≠ [] → q `prefix_of` output_base_dir // patient_folder →
  fs !! q = Some (FileNode content) →
  ∃ e, run (convert_dicom_to_jpeg w dicom_path output_base_dir) fs
       = (error_message dicom_path e, fs).
Proof.
  intros Hres Hroot [rest Hq] Hfile.
  set (folder := output_base_dir // patient_folder) in *.
  assert (q = take (length q) folder) as Htake
    by (by rewrite Hq, take_app_length).
  destruct (mkdir_from_obstructed [] folder fs (length q) content)
    as [e He].
  - split.
    + destruct q; [done | simpl; lia].
    + rewrite Hq, length_app. lia.
  - simpl. by rewrite <- Htake.
  - exists e. rewrite (run_steps _ _ _ _ _ Hres). fold folder.
    unfold do_mkdir. by rewrite He.
Qed.

Lemma do_glob_unchanged fs fs1 folder :
  (∀ q, jpg_in folder q → fs1 !! q = fs !! q) →
  do_glob fs1 folder = do_glob fs folder.
Proof.
  intros Hsame. unfold do_glob. f_equal. f_equal.
  apply map_filter_strong_ext_1. intros q x. simpl.
  split; intros [Hjpg Hx]; (split; [done|]).
  - by rewrite <- Hsame.
  - by rewrite Hsame.
Qed.

Lemma do_glob_mkdir fs fs1 folder :
  (∀ q, fs1 !! q = fs !! q
        ∨ (fs1 !! q = Some DirNode ∧ q `prefix_of` folder)) →
  do_glob fs1 folder = do_glob fs folder.
Proof.
  intros Hsame. apply do_glob_unchanged. intros q Hjpg.
  destruct (Hsame q) as [?|[_ Hpre]]; [done|].
  by apply jpg_in_not_prefix in Hjpg.
Qed.

Lemma do_glob_length fs folder :
  length (do_glob fs folder) = size (filter (λ kv, jpg_in folder kv.1) fs).
Proof. unfold do_glob. by rewrite length_fmap, length_map_to_list. Qed.

(** X7: the number in the name is a count, not a free slot.  When the
    folder already holds a file under the name the count leads to, the
    conversion replaces that file without any error, and the count of
    [.jpg] entries is the same afterwards, so the next conversion picks the
    same name again. *)
Theorem existing_name_is_overwritten (dicom_path output_base_dir : Path)
  (dataset : Dataset) (patient_folder : string) (fs : gmap Path node)
  (img old : u8array) :
  resolves w dicom_path dataset patient_folder →
  pixel_stage w dataset = inr img →
  let folder := output_base_dir // patient_folder in
  let new_filename :=
    folder ++ [format_02d (length (do_glob fs folder)) +:+ ".jpg"] in
  unobstructed fs folder →
  fs !! new_filename = Some (FileNode old) →
  ∃ fs',
    run (convert_dicom_to_jpeg w dicom_path output_base_dir) fs
    = (saved_message new_filename, fs')
    ∧ fs' !! new_filename = Some (FileNode img)
    ∧ length (do_glob fs' folder) = length (do_glob fs folder).
Proof.
  intros Hres [Hstage Henc]%pixel_stage_inr folder new_filename Hfree Hold.
  destruct (do_mkdir_ok fs folder Hfree) as (fs1 & Hmk & Hdir & Hsame).
  pose proof (do_glob_mkdir _ _ _ Hsame) as Hglob.
  assert (fs1 !! new_filename = Some (FileNode old)) as Hold1.
  { destruct (Hsame new_filename) as [->|[_ Hpre]]; [done|].
    apply prefix_length in Hpre. unfold new_filename in Hpre.
    rewrite length_app in Hpre. simpl in Hpre. lia. }
  exists (<[new_filename := FileNode img]> fs1).
  rewrite (run_steps _ _ _ _ _ Hres). fold folder. rewrite Hmk. simpl.
  rewrite Hstage, Henc, Hglob.
  fold (jpg_name (length (do_glob fs folder))). rewrite joinpath_jpg.
  fold (jpg_name (length (do_glob fs folder))) in new_filename.
  fold new_filename.
  assert (do_save fs1 new_filename (inr img)
          = (None, <[new_filename := FileNode img]> fs1)) as ->.
  { unfold do_save.
    assert (is_directory fs1 new_filename = false) as ->.
    { apply not_true_is_false.
      intros [H|H]%is_directory_spec; [by destruct folder | congruence]. }
    unfold new_filename. by rewrite parent_child, Hdir. }
  simpl. split; [done|]. split; [apply lookup_insert_eq|].
  rewrite <- Hglob, !do_glob_length.
  rewrite map_filter_insert_True by apply jpg_in_child.
  apply map_size_insert_Some. exists (FileNode old).
  apply map_lookup_filter_Some. split; [done | apply jpg_in_child].
Qed.

(** X20: when the encoder raises, the file has already been opened.  The
    result is the error message with the encoder's exception and the
    patient folder is made; a file that was there under the target name is
    left empty, and a target that was not there is not left behind. *)
Theorem failed_encoding_empties_target (dicom_path output_base_dir : Path)
  (dataset : Dataset) (patient_folder : string) (fs : gmap Path node)
  (img : u8array) (e : exn) :
  resolves w dicom_path dataset patient_folder →
  image_stage w dataset = inr img →
  jpeg_error w img = Some e →
  let folder := output_base_dir // patient_folder in
  let new_filename :=
    folder ++ [format_02d (length (do_glob fs folder)) +:+ ".jpg"] in
  unobstructed fs folder →
  fs !! new_filename ≠ Some DirNode →
  run (convert_dicom_to_jpeg w dicom_path output_base_dir) fs
  = (error_message dicom_path e,
     match fs !! new_filename with
     | Some _ => <[new_filename := FileNode truncated]> (do_mkdir fs folder).2
     | None => (do_mkdir fs folder).2
     end).
Proof.
  intros Hres Hstage Hjpeg folder new_filename Hfree Hnodir.
  destruct (do_mkdir_ok fs folder Hfree) as (fs1 & Hmk & Hdir & Hsame).
  pose proof (do_glob_mkdir _ _ _ Hsame) as Hglob.
  assert (fs1 !! new_filename = fs !! new_filename) as Hnew.
  { destruct (Hsame new_filename) as [->|[_ Hpre]]; [done|].
    apply prefix_length in Hpre. unfold new_filename in Hpre.
    rewrite length_app in Hpre. simpl in Hpre. lia. }
  rewrite (run_steps _ _ _ _ _ Hres). fold folder. rewrite Hmk. simpl.
  rewrite Hstage, Hglob.
  fold (jpg_name (length (do_glob fs folder))). rewrite joinpath_jpg.
  fold (jpg_name (length (do_glob fs folder))) in new_filename.
  fold new_filename.
  unfold do_save, encode. rewrite Hjpeg.
  assert (is_directory fs1 new_filename = false) as ->.
  { apply not_true_is_false.
    intros [H|H]%is_directory_spec; [by destruct folder | congruence]. }
  replace (parent new_filename) with folder
    by (symmetry; apply parent_child).
  rewrite Hdir. simpl. by rewrite Hnew.
Qed.

(** X8: a file that lies exactly three components below the root has the
    root as its third ancestor, whose name is empty: the resolver returns
    the empty name without failing, and the picture is written into the
    output directory itself, not into a patient folder.  The disk after
    the conversion is the disk with the output directory made and the
    picture under the next number directly inside it. *)
Theorem shallow_file_lands_in_output_dir (dicom_path output_base_dir : Path)
  (dataset : Dataset) (fs : gmap Path node) (img : u8array) (k : nat) :
  length dicom_path = 3%nat →
  dcmread w dicom_path = inr dataset →
  PixelData dataset = true →
  pixel_stage w dataset = inr img →
  numbered fs output_base_dir k →
  let new_filename := output_base_dir ++ [format_02d k +:+ ".jpg"] in
  get_patient_folder dicom_path 2 = inr ""
  ∧ run (convert_dicom_to_jpeg w dicom_path output_base_dir) fs
    = (saved_message new_filename,
       <[new_filename := FileNode img]> (do_mkdir fs output_base_dir).2)
  ∧ parent new_filename = output_base_dir
  ∧ fs !! new_filename = None.
Proof.
  intros Hlen Hread Hpix [Hstage Henc]%pixel_stage_inr Hnum new_filename.
  pose proof (get_patient_folder_root dicom_path 2 Hlen) as Hfolder.
  split; [done|].
  split; [|split; [apply parent_child | by apply numbered_fresh]].
  rewrite (run_steps _ _ dataset "" _ (conj Hread (conj Hpix Hfolder))).
  change (output_base_dir // "") with output_base_dir.
  destruct Hnum as [Hfree Hset].
  destruct (do_mkdir_ok fs output_base_dir Hfree) as (fs1 & Hmk & Hdir & Hsame).
  pose proof (numbered_mkdir _ _ _ _ Hsame (conj Hfree Hset)) as Hnum1.
  rewrite Hmk. simpl. rewrite Hstage, Henc.
  rewrite (numbered_count _ _ _ Hnum1).
  fold (jpg_name k). rewrite joinpath_jpg.
  rewrite do_save_ok by (done || by apply numbered_fresh). done.
Qed.

End OneFile.

(** ** What a batch does to the disk *)

Section Growth.

Implicit Types (fs : gmap Path node) (root p q : Path).

Lemma grown_refl root fs : grown root fs fs.
Proof. split; auto. Qed.

Lemma grown_trans root fs1 fs2 fs3 :
  grown root fs1 fs2 → grown root fs2 fs3 → grown root fs1 fs3.
Proof.
  intros [K1 D1 E1 F1] [K2 D2 E2 F2]. split.
  - auto.
  - auto.
  - intros q H1 H2. by rewrite E2, E1.
  - intros q content H3. destruct (F2 _ _ H3) as [H2|?]; [|by right].
    by apply F1.
Qed.

Lemma mkdir_from_changes made rest fs fs1 :
  mkdir_from made rest fs = inr fs1 →
  ∀ q, fs1 !! q = fs !! q
       ∨ (fs !! q = None ∧ fs1 !! q = Some DirNode
          ∧ q `prefix_of` made ++ rest).
Proof.
  revert made fs. induction rest as [|c rest IH]; intros made fs Hmk q.
  - simpl in Hmk. injection Hmk as <-. by left.
  - simpl in Hmk.
    assert (made ++ c :: rest = (made ++ [c]) ++ rest) as Hfolder
      by (by rewrite <- app_assoc).
    destruct (fs !! (made ++ [c])) as [[|content]|] eqn:Hq; [|done|].
    + rewrite Hfolder. by apply IH.
    + destruct (IH _ _ Hmk q) as [Heq|(Hnone & Hdir & Hpre)].
      * destruct (decide (q = made ++ [c])) as [->|Hne].
        -- right. rewrite Heq, lookup_insert_eq, Hfolder.
           split; [done|]. split; [done|]. by apply prefix_app_r.
        -- left. by rewrite Heq, lookup_insert_ne.
      * right. rewrite Hfolder. split; [|done].
        destruct (decide (q = made ++ [c])) as [->|Hne].
        -- done.
        -- by rewrite lookup_insert_ne in Hnone.
Qed.

Lemma do_mkdir_grown root fs p :
  root `prefix_of` p → grown root fs (do_mkdir fs p).2.
Proof.
  intros Hroot. unfold do_mkdir.
  destruct (mkdir_from [] p fs) as [e|fs1] eqn:Hmk; [apply grown_refl|].
  pose proof (mkdir_from_changes _ _ _ _ Hmk) as Hch. simpl in *. split.
  - intros q Hq. destruct (Hch q) as [->|(_ & -> & _)]; [done | by eexists].
  - intros q Hq. destruct (Hch q) as [->|(Hnone & _)]; [done | congruence].
  - intros q H1 H2. destruct (Hch q) as [?|(_ & _ & Hpre)]; [done|].
    destruct (prefix_weak_total _ _ _ Hpre Hroot); done.
  - intros q content Hq. left.
    destruct (Hch q) as [Heq|(_ & Hdir & _)]; [by rewrite <- Heq | congruence].
Qed.

Lemma do_save_grown root fs p picture :
  root `prefix_of` p → p ≠ root → grown root fs (do_save fs p picture).2.
Proof.
  intros Hroot Hne. unfold do_save.
  destruct (is_directory fs p) eqn:Hdir; [apply grown_refl|].
  destruct (is_directory fs (parent p)); [|apply grown_refl].
  assert (∀ content, grown root fs (<[p := FileNode content]> fs)) as Hins.
  { intros content. split.
    - intros q Hq. destruct (decide (q = p)) as [->|?].
      + rewrite lookup_insert_eq. by eexists.
      + by rewrite lookup_insert_ne.
    - intros q Hq. destruct (decide (q = p)) as [->|?].
      + assert (is_directory fs p = true) as Habs
          by (apply is_directory_spec; by right).
        congruence.
      + by rewrite lookup_insert_ne.
    - intros q H1 H2. rewrite lookup_insert_ne; [done|]. by intros <-.
    - intros q content' Hq. destruct (decide (q = p)) as [->|?].
      + by right.
      + left. by rewrite lookup_insert_ne in Hq. }
  destruct picture as [e|img]; simpl; [|apply Hins].
  destruct (fs !! p); [apply Hins | apply grown_refl].
Qed.

Lemma convert_confined w dicom_path output_base_dir :
  confined output_base_dir
           (convert_dicom_to_jpeg w dicom_path output_base_dir).
Proof.
  assert (∀ name, output_base_dir `prefix_of` output_base_dir // name)
    as Hjoin.
  { intros name. unfold joinpath. destruct (decide (name = "")); [done|].
    by apply prefix_app_r. }
  unfold convert_dicom_to_jpeg, try_except, convert_body, lift, mkdir, glob,
    save.
  unfold mbind, mret, raising_bind, raising_ret. simpl.
  destruct (dcmread w dicom_path) as [e|dataset]; simpl; [constructor|].
  destruct (PixelData dataset); simpl; [|constructor].
  destruct (get_patient_folder dicom_path 2) as [e|patient_folder]; simpl;
    [constructor|].
  constructor; [apply Hjoin|]. intros r.
  destruct (of_error r); simpl; [constructor|].
  constructor. intros files.
  destruct (pixel_array dataset) as [e|a]; simpl; [constructor|].
  destruct (normalize a) as [e|a']; simpl; [constructor|].
  destruct (Image_fromarray w a') as [e|img]; simpl; [constructor|].
  fold (jpg_name (length files)). rewrite joinpath_jpg.
  constructor.
  - etrans; [apply Hjoin|]. by apply prefix_app_r.
  - intros Heq. pose proof (Hjoin patient_folder) as Hpre.
    apply prefix_length in Hpre. apply (f_equal length) in Heq.
    rewrite length_app in Heq. simpl in Heq. lia.
  - intros r'. destruct (of_error r'); simpl; constructor.
Qed.

Lemma pool_step_grown root w st :
  pool_confined root st →
  pool_confined root (pool_step w st)
  ∧ grown root (disk st) (disk (pool_step w st)).
Proof.
  intros Hst. pose proof Hst as [Hq Hw]. unfold pool_step.
  destruct (workers st !! w) as [[[i m]|]|] eqn:Hlook.
  - pose proof (Hw _ _ _ Hlook) as Hm.
    assert (∀ m', confined root m' →
              ∀ w' j m'', <[w := Some (i, m')]> (workers st) !! w'
                          = Some (Some (j, m'')) → confined root m'')
      as Hins.
    { intros m' Hm' w' j m'' Hl. destruct (decide (w' = w)) as [->|Hne].
      - rewrite list_lookup_insert_eq in Hl by (by eapply lookup_lt_Some).
        by injection Hl as <- <-.
      - rewrite list_lookup_insert_ne in Hl by done. by eapply Hw. }
    inversion Hm as [a Ha|p k Hp Hk Ha|p k Hk Ha|p img k Hp Hne Hk Ha];
      subst; simpl.
    + split; [|apply grown_refl]. split; [done|]. simpl.
      intros w' j m'' Hl. destruct (decide (w' = w)) as [->|Hne].
      * rewrite list_lookup_insert_eq in Hl by (by eapply lookup_lt_Some).
        done.
      * rewrite list_lookup_insert_ne in Hl by done. by eapply Hw.
    + split; [|by apply do_mkdir_grown]. split; [done|]. simpl.
      by apply Hins.
    + split; [|apply grown_refl]. split; [done|]. simpl. by apply Hins.
    + split; [|by apply do_save_grown]. split; [done|]. simpl.
      by apply Hins.
  - destruct (queue st) as [|[i m] rest] eqn:Hqueue.
    + split; [done | apply grown_refl].
    + inversion Hq as [|? ? Hm Hrest]; subst. simpl.
      split; [|apply grown_refl]. split; [done|]. simpl.
      intros w' j m'' Hl. destruct (decide (w' = w)) as [->|Hne].
      * rewrite list_lookup_insert_eq in Hl by (by eapply lookup_lt_Some).
        by injection Hl as <- <-.
      * rewrite list_lookup_insert_ne in Hl by done. by eapply Hw.
  - split; [done | apply grown_refl].
Qed.

Lemma run_schedule_grown root schedule st :
  pool_confined root st →
  grown root (disk st) (disk (run_schedule schedule st)).
Proof.
  revert st. induction schedule as [|w schedule IH]; intros st Hst.
  - apply grown_refl.
  - simpl. destruct (pool_step_grown root w st Hst) as [Hst' Hgrown].
    eapply grown_trans; [exact Hgrown|]. by apply IH.
Qed.

(** X9: whatever the number of workers and their interleaving, and
    whether conversions succeed or fail, a batch only adds to the disk: no
    entry disappears, a directory stays a directory, nothing changes away
    from the output directory and its ancestors, and every file that is
    new or replaced lies below the output directory. *)
Theorem batch_only_grows (w : World) (dicom_files : list Path)
  (output_path : Path) (num_threads : nat) (schedule : list nat)
  (fs : gmap Path node) :
  grown output_path fs
        (disk (batch w dicom_files output_path num_threads schedule fs)).
Proof.
  apply (run_schedule_grown output_path schedule
           (submit_all (λ d, convert_dicom_to_jpeg w d output_path)
                       dicom_files num_threads fs)).
  split; simpl.
  - apply Forall_forall. intros [i m] Hin.
    apply list_elem_of_lookup in Hin as [j Hj].
    rewrite list_lookup_imap in Hj.
    destruct (dicom_files !! j) as [d|]; [|done].
    injection Hj as <- <-. apply convert_confined.
  - intros w' i m Hl. apply lookup_replicate in Hl as [? _]. done.
Qed.

End Growth.

(** ** One worker, and two in the same folder *)

Section Threads.

Context (w : World).

Lemma pool_step_no_worker v st :
  (length (workers st) ≤ v)%nat → pool_step v st = st.
Proof.
  intros Hv. unfold pool_step. by rewrite (lookup_ge_None_2 _ _ Hv).
Qed.

(** With one worker only its own steps count. *)
Lemma run_schedule_one_worker schedule st :
  length (workers st) = 1%nat →
  ∃ k, run_schedule schedule st = run_schedule (alone k) st.
Proof.
  revert st. induction schedule as [|v schedule IH]; intros st Hone.
  - by exists 0%nat.
  - simpl. destruct v as [|v].
    + destruct (IH (pool_step 0 st)) as [k Hk].
      { by rewrite pool_step_workers_length. }
      exists (S k). by rewrite run_alone_S.
    + rewrite pool_step_no_worker by (rewrite Hone; lia). by apply IH.
Qed.

(** X10: with a pool of one worker the interleaving does not matter:
    every schedule that lets the pool come to rest gives the results and
    the disk of converting the files one after the other, in the order of
    the list. *)
Theorem one_thread_is_serial (dicom_files : list Path) (output_path : Path)
  (schedule : list nat) (fs : gmap Path node) :
  finished (batch w dicom_files output_path 1 schedule fs) = true →
  collect (length dicom_files)
          (batch w dicom_files output_path 1 schedule fs)
  = Some (convert_each w output_path dicom_files fs).1
  ∧ disk (batch w dicom_files output_path 1 schedule fs)
    = (convert_each w output_path dicom_files fs).2.
Proof.
  intros Hfin.
  destruct (lone_worker_is_serial w dicom_files output_path 1 fs)
    as [Hres Hdisk]; [lia|].
  pose proof (batch_can_finish w dicom_files output_path 1 fs) as Hfin5.
  unfold batch in *.
  set (st0 := submit_all _ dicom_files 1 fs) in *.
  destruct (run_schedule_one_worker schedule st0) as [k Hk]; [done|].
  rewrite Hk in Hfin |- *.
  assert (run_schedule (alone k) st0
          = run_schedule (alone (5 * length dicom_files)) st0) as ->; [|done].
  destruct (Nat.le_ge_cases k (5 * length dicom_files)) as [Hle|Hge].
  - replace (5 * length dicom_files)%nat
      with (k + (5 * length dicom_files - k))%nat at 1 by lia.
    rewrite alone_add, run_schedule_app.
    by rewrite (finished_stays (alone (5 * length dicom_files - k))).
  - replace k with (5 * length dicom_files + (k - 5 * length dicom_files))%nat
      by lia.
    rewrite alone_add, run_schedule_app.
    rewrite (finished_stays (alone (k - 5 * length dicom_files))); [done|].
    apply Hfin5. lia.
Qed.

End Threads.

Section SameFolder.

Context (w : World).

(** The steps of the pool, one lemma for each thing a worker can be
    about to do. *)
Lemma step_take v st job rest :
  workers st !! v = Some None → queue st = job :: rest →
  pool_step v st
  = {| queue := rest; workers := <[v := Some job]> (workers st);
       futures := futures st; started := started st ++ [job.1];
       disk := disk st |}.
Proof. intros Hw Hq. unfold pool_step. by rewrite Hw, Hq. Qed.

Lemma step_mkdir v st i p k :
  workers st !! v = Some (Some (i, Mkdir p k)) →
  pool_step v st
  = {| queue := queue st;
       workers := <[v := Some (i, k (do_mkdir (disk st) p).1)]> (workers st);
       futures := futures st; started := started st;
       disk := (do_mkdir (disk st) p).2 |}.
Proof. intros Hw. unfold pool_step. by rewrite Hw. Qed.

Lemma step_glob v st i p k :
  workers st !! v = Some (Some (i, Glob p k)) →
  pool_step v st
  = {| queue := queue st;
       workers := <[v := Some (i, k (do_glob (disk st) p))]> (workers st);
       futures := futures st; started := started st; disk := disk st |}.
Proof. intros Hw. unfold pool_step. by rewrite Hw. Qed.

Lemma step_save v st i p img k :
  workers st !! v = Some (Some (i, Save p img k)) →
  pool_step v st
  = {| queue := queue st;
       workers := <[v := Some (i, k (do_save (disk st) p img).1)]> (workers st);
       futures := futures st; started := started st;
       disk := (do_save (disk st) p img).2 |}.
Proof. intros Hw. unfold pool_step. by rewrite Hw. Qed.

Lemma step_ret v st i s :
  workers st !! v = Some (Some (i, Ret s)) →
  pool_step v st
  = {| queue := queue st; workers := <[v := None]> (workers st);
       futures := <[i := s]> (futures st); started := started st;
       disk := disk st |}.
Proof. intros Hw. unfold pool_step. by rewrite Hw. Qed.


(** A second [mkdir] of the same path finds every directory in place. *)
Lemma mkdir_from_again made rest fs fs1 :
  mkdir_from made rest fs = inr fs1 → mkdir_from made rest fs1 = inr fs1.
Proof.
  revert made fs. induction rest as [|c rest IH]; intros made fs Hmk; [done|].
  simpl in Hmk |- *.
  assert (fs1 !! (made ++ [c]) = Some DirNode) as ->.
  { destruct (fs !! (made ++ [c])) as [[|content]|] eqn:Hq; [|done|].
    - destruct (mkdir_from_changes _ _ _ _ Hmk (made ++ [c]))
        as [->|(Hnone & _)]; congruence.
    - destruct (mkdir_from_changes _ _ _ _ Hmk (made ++ [c]))
        as [->|(Hnone & _)]; by rewrite lookup_insert_eq in *. }
  destruct (fs !! (made ++ [c])) as [[|content]|]; [|done|]; by eapply IH.
Qed.

Lemma do_mkdir_again fs fs1 p :
  do_mkdir fs p = (None, fs1) → do_mkdir fs1 p = (None, fs1).
Proof.
  unfold do_mkdir. destruct (mkdir_from [] p fs) as [e|fs'] eqn:Hmk; [done|].
  intros [= ->]. by rewrite (mkdir_from_again _ _ _ _ Hmk).
Qed.

(** A file written into a directory leaves it a directory. *)
Lemma is_directory_insert_child fs p c x :
  is_directory fs p = true → is_directory (<[p ++ [c] := x]> fs) p = true.
Proof.
  rewrite !is_directory_spec. intros [->|Hp]; [by left|right].
  rewrite lookup_insert_ne; [done|].
  intros Heq%(f_equal length). rewrite length_app in Heq. simpl in Heq. lia.
Qed.

(** [save] onto a file that is there replaces it. *)
Lemma do_save_over fs folder c img old :
  is_directory fs folder = true →
  fs !! (folder ++ [c]) = Some (FileNode old) →
  do_save fs (folder ++ [c]) (inr img)
  = (None, <[folder ++ [c] := FileNode img]> fs).
Proof.
  intros Hdir Hold. unfold do_save.
  assert (is_directory fs (folder ++ [c]) = false) as ->.
  { apply not_true_is_false.
    intros [H|H]%is_directory_spec; [by destruct folder | congruence]. }
  by rewrite parent_child, Hdir.
Qed.

(** One step of the pool on a state that is written out. *)
Ltac pstep lem :=
  match goal with
  | |- context [pool_step ?v ?st] =>
      lazymatch st with
      | Build_pool _ _ _ _ _ =>
          erewrite (lem v st) by reflexivity;
          cbn [queue workers futures started disk fst snd app insert list_insert]
      end
  end.

(** X11: the count and the write are two steps, and nothing holds the
    folder between them.  Two files of the same patient, converted by two
    workers that take turns, in a folder that is not there yet: both
    workers count no entry, both write [00.jpg], both report it as saved,
    and the folder ends with one picture, that of the second file. *)
Theorem same_folder_same_name (d1 d2 output_path : Path)
  (ds1 ds2 : Dataset) (patient_folder : string) (img1 img2 : u8array)
  (fs : gmap Path node) :
  resolves w d1 ds1 patient_folder → resolves w d2 ds2 patient_folder →
  pixel_stage w ds1 = inr img1 → pixel_stage w ds2 = inr img2 →
  absent fs (output_path // patient_folder) →
  unobstructed fs (output_path // patient_folder) →
  let folder := output_path // patient_folder in
  let st := batch w [d1; d2] output_path 2
                  [0; 1; 0; 1; 0; 1; 0; 1; 0; 1]%nat fs in
  finished st = true
  ∧ collect 2 st = Some [saved_message (folder ++ ["00.jpg"]);
                         saved_message (folder ++ ["00.jpg"])]
  ∧ disk st !! (folder ++ ["00.jpg"]) = Some (FileNode img2)
  ∧ length (do_glob (disk st) folder) = 1%nat.
Proof.
  intros Hr1 Hr2 Hs1 Hs2 Habs Hfree folder st.
  destruct (convert_steps w _ output_path _ _ Hr1) as (k1 & k2 & E1 & _ & Hk1 & Hk2).
  destruct (convert_steps w _ output_path _ _ Hr2) as (j1 & j2 & F1 & _ & Hj1 & Hj2).
  fold folder in E1, Hk1, Hk2, F1, Hj1, Hj2.
  apply pixel_stage_inr in Hs1 as [Hs1 Henc1].
  apply pixel_stage_inr in Hs2 as [Hs2 Henc2].
  rewrite Hs1 in Hk2. rewrite Hs2 in Hj2.
  rewrite Henc1 in Hk2. rewrite Henc2 in Hj2.
  pose proof (absent_numbered _ _ Habs Hfree) as Hnum0. fold folder in Hnum0.
  destruct (do_mkdir_ok fs folder Hfree) as (fs1 & Hmk & Hdir & Hsame).
  pose proof (numbered_mkdir _ _ _ _ Hsame Hnum0) as Hnum1.
  pose proof (do_mkdir_again _ _ _ Hmk) as Hmk1.
  pose proof (numbered_count _ _ _ Hnum1) as Hcount.
  set (new := folder ++ [jpg_name 0]).
  destruct (Hk2 (do_glob fs1 folder)) as (k3 & Hsave1 & _ & Hret1).
  destruct (Hj2 (do_glob fs1 folder)) as (j3 & Hsave2 & _ & Hret2).
  rewrite Hcount in Hsave1, Hsave2, Hret1, Hret2.
  fold (jpg_name 0) in Hsave1, Hsave2, Hret1, Hret2.
  rewrite joinpath_jpg in Hsave1, Hsave2, Hret1, Hret2.
  fold new in Hsave1, Hsave2, Hret1, Hret2.
  subst st. unfold batch, submit_all. simpl imap. rewrite E1, F1.
  cbn [run_schedule foldl replicate].
  pstep step_take. pstep step_take.
  pstep step_mkdir. rewrite Hmk. cbn [fst snd]. rewrite Hk1.
  pstep step_mkdir. rewrite Hmk1. cbn [fst snd]. rewrite Hj1.
  pstep step_glob. rewrite Hsave1.
  pstep step_glob. rewrite Hsave2.
  assert (fs1 !! new = None) as Hfresh by apply (numbered_fresh _ _ _ Hnum1).
  assert (do_save fs1 new (inr img1) = (None, <[new := FileNode img1]> fs1))
    as Hsv1 by (by apply do_save_ok).
  assert (do_save (<[new := FileNode img1]> fs1) new (inr img2)
          = (None, <[new := FileNode img2]> (<[new := FileNode img1]> fs1)))
    as Hsv2.
  { apply (do_save_over _ folder _ img2 img1);
      [by apply is_directory_insert_child | by rewrite lookup_insert_eq]. }
  rewrite insert_insert_eq in Hsv2.
  pstep step_save. rewrite Hsv1. cbn [fst snd]. rewrite Hret1.
  pstep step_save. rewrite Hsv2. cbn [fst snd]. rewrite Hret2.
  pstep step_ret. pstep step_ret.
  pose proof (numbered_save _ _ _ img2 Hnum1) as Hnum2. fold new in Hnum2.
  split; [done|]. split; [done|]. split; [apply lookup_insert_eq|].
  apply (numbered_count _ _ _ Hnum2).
Qed.

(** X12: [mkdir(parents=True, exist_ok=True)] can be repeated: a second
    call on the disk the first one left gives the same answer, no error
    if the first gave none and the same error otherwise, and changes
    nothing. *)
Theorem mkdir_twice (fs : gmap Path node) (p : Path) :
  do_mkdir (do_mkdir fs p).2 p = ((do_mkdir fs p).1, (do_mkdir fs p).2).
Proof.
  destruct (do_mkdir fs p) as [[e|] fs1] eqn:Hmk; simpl.
  - unfold do_mkdir in Hmk |- *.
    destruct (mkdir_from [] p fs) as [e'|fs'] eqn:Hfrom; [|done].
    injection Hmk as <- <-. by rewrite Hfrom.
  - by apply (do_mkdir_again fs).
Qed.

End SameFolder.

Section Orchestration.

Context (w : World).


(** X14: with a file to convert and a number of threads that is zero or
    negative, the four lines of the banner are printed and the
    construction of the pool raises [ValueError]; no file is converted. *)
Theorem nonpositive_threads_raise (input_path : Path)
  (input_tree : directory) (output_path : Path) (num_threads : Z)
  (schedule : list nat) (fs : gmap Path node) (rel : list string) :
  length rel = 4%nat → reaches input_tree rel File → num_threads ≤ 0 →
  ∃ banner,
    convert_dicom w input_path input_tree output_path num_threads schedule fs
    = Raised banner (ValueError "max_workers must be greater than 0")
    ∧ length banner = 4%nat.
Proof.
  intros Hlen Hreach Hthreads. unfold convert_dicom.
  assert (input_path ++ rel ∈ find_dicom_files input_path input_tree 3)
    as Hin.
  { apply find_dicom_files_exact. exists rel. split; [done|].
    split; [lia | done]. }
  destruct (find_dicom_files input_path input_tree 3) as [|q qs];
    [by apply elem_of_nil in Hin|].
  assert ((num_threads <=? 0) = true) as -> by lia.
  by eexists.
Qed.

End Orchestration.

Section Pixels.

#[local] Open Scope Q_scope.

(** A negative integer rounds to a negative number. *)
Lemma round_binary64_negative_int z :
  (z < 0)%Z → round_binary64 (inject_Z z) < 0.
Proof.
  intros Hz. unfold round_binary64.
  assert (inject_Z z < 0) as Hq.
  { change 0 with (inject_Z 0). rewrite <- Zlt_Qlt. lia. }
  destruct (Qeq_bool (inject_Z z) 0) eqn:H0.
  { apply Qeq_bool_iff in H0. rewrite H0 in Hq. by apply Qlt_irrefl in Hq. }
  set (e := ulp_exp (inject_Z z)).
  set (a := inject_Z (Z.abs z)).
  assert (1 <= a) as Ha.
  { unfold a. change 1 with (inject_Z 1). rewrite <- Zle_Qle. lia. }
  assert (0 < a) as Ha0 by (by eapply Qlt_le_trans; [|exact Ha]).
  destruct (Qlog2_spec a Ha0) as [Hlo _].
  assert (0 <= Qlog2 a)%Z as Hl.
  { change 0%Z with (Qlog2 1). by apply Qlog2_mono. }
  assert (e = Qlog2 a - 52)%Z as He.
  { unfold e, ulp_exp. change (Qabs (inject_Z z)) with a.
    unfold prec, emin. lia. }
  assert (inject_Z z == - a) as Hza.
  { unfold a. rewrite <- inject_Z_opp. f_equiv. lia. }
  assert (inject_Z z / 2 ^ e <= inject_Z (-2)) as Hs.
  { apply Qle_shift_div_r; [apply pow2_pos|].
    rewrite Hza.
    assert (2 * 2 ^ e <= a) as Hbig.
    { eapply Qle_trans; [|exact Hlo].
      replace (Qlog2 a) with (52 + e)%Z by lia. rewrite pow2_add.
      apply Qmult_le_compat_r; [by vm_compute|].
      apply Qlt_le_weak, pow2_pos. }
    apply Qopp_le_compat in Hbig.
    eapply Qle_trans; [exact Hbig|].
    apply Qle_lteq. right. change (inject_Z (-2)) with (-(2)). ring. }
  assert (round_half_even (inject_Z z / 2 ^ e) <= -1)%Z as Hr.
  { pose proof (Qfloor_resp_le _ _ Hs) as Hf. rewrite Qfloor_Z in Hf.
    destruct (round_half_even_floor (inject_Z z / 2 ^ e)) as [->| ->]; lia. }
  apply (Qlt_le_trans _ (0 * 2 ^ e)); [|rewrite Qmult_0_l; apply Qle_refl].
  apply Qmult_lt_compat_r; [apply pow2_pos|].
  change 0 with (inject_Z 0). rewrite <- Zlt_Qlt. lia.
Qed.

(** Zero is a float64. *)
Lemma fl_zero q : q == 0 → fl q = Finite 0.
Proof.
  intros Hq. unfold fl, round_binary64.
  apply Qeq_bool_iff in Hq. by rewrite Hq.
Qed.

(** Zero divided by the conversion of an integer that is not zero. *)
Lemma zero_divided z :
  z ≠ 0%Z → (z <= 2 ^ 64)%Z → true_divide (of_int 0) (of_int z) = Finite 0.
Proof.
  intros Hz Hmax. change (of_int 0) with (Finite 0). unfold of_int.
  assert (∀ r, ¬ r == 0 → true_divide (Finite 0) (Finite r) = Finite 0)
    as Hdiv.
  { intros r Hr. simpl. destruct (Qeq_bool r 0) eqn:H0.
    - by apply Qeq_bool_iff in H0.
    - apply fl_zero. unfold Qdiv. ring. }
  destruct (Z.lt_total z 0) as [Hneg|[->|Hpos]]; [|done|].
  - pose proof (round_binary64_negative_int z Hneg) as Hr.
    unfold fl. destruct (Qle_bool _ _); [done|].
    apply Hdiv. intros H0. rewrite H0 in Hr. by apply Qlt_irrefl in Hr.
  - rewrite fl_finite.
    + apply Hdiv. intros H0. pose proof (divisor_positive z Hpos) as Hd.
      rewrite H0 in Hd. by apply Hd.
    + apply inject_nonneg. lia.
    + by rewrite <- Zle_Qle.
Qed.

(** The spread of an array that is not constant does not wrap to zero. *)
Lemma wrap_spread dt lo hi :
  in_range dt lo → in_range dt hi → (lo < hi)%Z →
  wrap dt (hi - lo) ≠ 0%Z ∧ (wrap dt (hi - lo) <= 2 ^ 64)%Z.
Proof.
  unfold in_range, wrap. intros Hlo Hhi Hlt.
  destruct dt; cbv [min_int max_int bits signed] in *;
    change (8 - 1)%Z with 7%Z in *; change (16 - 1)%Z with 15%Z in *;
    change (32 - 1)%Z with 31%Z in *; change (64 - 1)%Z with 63%Z in *;
    repeat match goal with
           | H : context [(2 ^ ?k)%Z] |- _ =>
               let v := eval vm_compute in (2 ^ k)%Z in
               change (2 ^ k)%Z with v in H
           | |- context [(2 ^ ?k)%Z] =>
               let v := eval vm_compute in (2 ^ k)%Z in
               change (2 ^ k)%Z with v
           end.
  all: Z.to_euclidean_division_equations; lia.
Qed.

(** The minimum through lines 68 and 69. *)
Lemma rescale_darkest dt lo hi :
  in_range dt lo → in_range dt hi → (lo < hi)%Z →
  rescale_pixel dt lo hi lo = Some 0%Z.
Proof.
  intros Hlo Hhi Hlt. unfold rescale_pixel.
  destruct (wrap_spread dt lo hi Hlo Hhi Hlt) as [Hne Hmax].
  rewrite Z.sub_diag.
  assert (wrap dt 0 = 0%Z) as ->.
  { apply wrap_in_range. by destruct dt. }
  rewrite zero_divided by done.
  by vm_compute.
Qed.

End Pixels.

Section Normalized.

(** X15: in an array that is not constant the smallest value always
    becomes 0, in every place where it stands, for every dtype; this holds
    also when the spread does not fit the dtype and the subtraction of
    line 68 wraps around for the larger values. *)
Theorem darkest_pixel_is_black (a : ndarray) (lo hi : Z) (img : u8array)
  (i : nat) :
  wf_ndarray a → arr_min a = inr lo → arr_max a = inr hi → lo ≠ hi →
  normalize a = inr img →
  arr_data a !! i = Some lo → u8_data img !! i = Some (Some 0).
Proof.
  intros Hwf Hmin Hmax Hne Hnorm Hi.
  unfold normalize in Hnorm. rewrite Hmin, Hmax in Hnorm.
  injection Hnorm as <-. simpl.
  rewrite list_lookup_fmap, Hi. simpl. f_equal.
  destruct (arr_min_spec _ _ Hmin) as [Hlo_in Hlo].
  destruct (arr_max_spec _ _ Hmax) as [Hhi_in _].
  unfold wf_ndarray in Hwf. rewrite Forall_forall in Hwf.
  apply rescale_darkest; [by apply Hwf | by apply Hwf |].
  specialize (Hlo hi Hhi_in). lia.
Qed.

(** X16: lines 68 and 69 raise exactly when the pixel array has no
    element (the minimum of an empty array is a [ValueError]); on every
    other array they give an array of the same shape with one byte for
    each pixel. *)
Theorem normalize_raises_iff_empty (a : ndarray) :
  (arr_data a = [] ↔ ∃ e, normalize a = inl e)
  ∧ ∀ img, normalize a = inr img →
           u8_shape img = arr_shape a
           ∧ length (u8_data img) = length (arr_data a).
Proof.
  unfold normalize, arr_min, arr_max.
  destruct (arr_data a) as [|x xs] eqn:Hd.
  - split; [|done]. split; [by eexists | done].
  - split.
    + split; [done|]. by intros [e He].
    + intros img [= <-]. simpl. by rewrite length_map.
Qed.

End Normalized.


Section Names.

(** X17: the format [02d] of line 64 is a least width: a count below ten
    gets one zero in front, a count from ten on is written as it is, and
    nothing is cut off when it needs three digits or more. *)
Theorem format_02d_pads_one_digit (n : nat) :
  ((n < 10)%nat → format_02d n = "0" +:+ str_nat n)
  ∧ ((10 ≤ n)%nat → format_02d n = str_nat n).
Proof.
  split.
  - intros Hn. do 10 (destruct n as [|n]; [done|]). lia.
  - intros Hn. unfold format_02d.
    destruct (String.length (str_nat n) <? 2)%nat eqn:Hlen; [|done].
    apply Nat.ltb_lt, short_uint_small in Hlen.
    rewrite DecimalNat.Unsigned.of_to in Hlen. lia.
Qed.

End Names.

(** ** The further properties at the sample inputs *)

Section MoreWitnesses.

Import Samples.

Lemma discovered_file_resolves_witness :
  ∃ n rest sub,
    series ++ ["img1"] = ["in"] ++ n :: rest
    ∧ length rest = 3%nat
    ∧ (n, Subdir sub) ∈ iterdir tree
    ∧ get_patient_folder (series ++ ["img1"]) 2 = inr n.
Proof.
  apply (discovered_file_resolves ["in"] tree 2 (series ++ ["img1"])).
  vm_compute. left.
Defined.

Lemma find_dicom_files_NoDup_witness :
  NoDup (find_dicom_files ["in"] tree 3).
Proof.
  apply (find_dicom_files_NoDup ["in"] tree 3).
  simpl. repeat split; apply (bool_decide_unpack _); vm_compute; exact I.
Defined.

Lemma find_dicom_files_negative_depth_witness :
  find_dicom_files ["in"] tree (-1) = [].
Proof. apply (find_dicom_files_negative_depth ["in"] tree (-1)). lia. Defined.

Lemma early_failure_touches_nothing_witness :
  convert_dicom_to_jpeg world (series ++ ["bad"]) ["out"]
  = Ret (error_message (series ++ ["bad"])
                       (Exception "InvalidDicomError" "not a DICOM file"))
  ∧ convert_dicom_to_jpeg world ["in"; "img1"] ["out"]
    = Ret (error_message ["in"; "img1"] (IndexError 2)).
Proof.
  split.
  - apply (proj1 (early_failure_touches_nothing world (series ++ ["bad"])
                                                ["out"])).
    reflexivity.
  - apply (proj2 (early_failure_touches_nothing world ["in"; "img1"] ["out"])
                 {| PixelData := true; pixel_array := inr gradient |}).
    + reflexivity.
    + reflexivity.
    + simpl. lia.
Defined.

Lemma late_failure_leaves_folder_witness :
  ∃ fs',
    run (convert_dicom_to_jpeg world_no_image (series ++ ["img1"]) ["out"]) ∅
    = (error_message (series ++ ["img1"])
                     (Exception "TypeError" "Cannot handle this data type"),
       fs')
    ∧ fs' = (do_mkdir ∅ (["out"] // "patientA")).2
    ∧ is_directory fs' (["out"] // "patientA") = true
    ∧ ∀ q, fs' !! q = (∅ : gmap Path node) !! q
           ∨ (fs' !! q = Some DirNode ∧ q `prefix_of` ["out"] // "patientA").
Proof.
  apply (late_failure_leaves_folder world_no_image (series ++ ["img1"])
           ["out"] {| PixelData := true; pixel_array := inr gradient |}
           "patientA" ∅).
  - repeat split; reflexivity.
  - intros q content _. rewrite lookup_empty. discriminate.
  - vm_compute. reflexivity.
Defined.

Lemma obstructed_folder_fails_witness :
  ∃ e, run (convert_dicom_to_jpeg world (series ++ ["img1"]) ["out"]) blocked
       = (error_message (series ++ ["img1"]) e, blocked).
Proof.
  apply (obstructed_folder_fails world (series ++ ["img1"]) ["out"]
           {| PixelData := true; pixel_array := inr gradient |}
           "patientA" blocked ["out"; "patientA"] gradient_image).
  - repeat split; reflexivity.
  - discriminate.
  - reflexivity.
  - vm_compute. reflexivity.
Defined.

(** Nothing is in the way of the patient folder on the disk [taken]. *)
Lemma taken_unobstructed : unobstructed taken (["out"] // "patientA").
Proof.
  intros q content Hq Hfile.
  apply prefix_length in Hq.
  destruct (decide (q = ["out"; "patientA"; "01.jpg"])) as [->|Hne].
  - simpl in Hq. lia.
  - unfold taken in Hfile. by rewrite lookup_singleton_ne in Hfile.
Defined.

Lemma existing_name_is_overwritten_witness :
  ∃ fs',
    run (convert_dicom_to_jpeg world (series ++ ["img1"]) ["out"]) taken
    = (saved_message ["out"; "patientA"; "01.jpg"], fs')
    ∧ fs' !! ["out"; "patientA"; "01.jpg"] = Some (FileNode gradient_image)
    ∧ length (do_glob fs' ["out"; "patientA"]) = 1%nat.
Proof.
  assert (length (do_glob taken (["out"] // "patientA")) = 1%nat) as Hcount
    by (vm_compute; reflexivity).
  pose proof (existing_name_is_overwritten world (series ++ ["img1"]) ["out"]
                {| PixelData := true; pixel_array := inr gradient |}
                "patientA" taken gradient_image
                {| u8_shape := []; u8_data := [] |}) as H.
  cbv zeta in H. rewrite Hcount in H. apply H.
  - repeat split; reflexivity.
  - vm_compute. reflexivity.
  - apply taken_unobstructed.
  - vm_compute. reflexivity.
Defined.

(** The empty disk. *)
Lemma empty_disk_absent p : absent (∅ : gmap Path node) p.
Proof. intros q _. apply lookup_empty. Defined.

Lemma empty_disk_unobstructed p : unobstructed (∅ : gmap Path node) p.
Proof. intros q content _. rewrite lookup_empty. discriminate. Defined.

Lemma shallow_file_lands_in_output_dir_witness :
  get_patient_folder ["in"; "patientA"; "img1"] 2 = inr ""
  ∧ run (convert_dicom_to_jpeg world ["in"; "patientA"; "img1"] ["out"]) ∅
    = ("✔ Saved: /out/00.jpg",
       <[["out"; "00.jpg"] := FileNode gradient_image]>
         (do_mkdir ∅ ["out"]).2)
  ∧ parent ["out"; "00.jpg"] = ["out"]
  ∧ (∅ : gmap Path node) !! ["out"; "00.jpg"] = None.
Proof.
  apply (shallow_file_lands_in_output_dir world ["in"; "patientA"; "img1"]
           ["out"] {| PixelData := true; pixel_array := inr gradient |}
           ∅ gradient_image 0).
  - reflexivity.
  - reflexivity.
  - reflexivity.
  - vm_compute. reflexivity.
  - apply absent_numbered;
      [apply empty_disk_absent | apply empty_disk_unobstructed].
Defined.

Lemma failed_encoding_empties_target_witness :
  run (convert_dicom_to_jpeg world_unencodable (series ++ ["img1"]) ["out"])
      taken
  = ("❌ Error processing /in/patientA/study/series/img1: encoder error",
     <[["out"; "patientA"; "01.jpg"] := FileNode truncated]>
       (do_mkdir taken ["out"; "patientA"]).2)
  ∧ run (convert_dicom_to_jpeg world_unencodable (series ++ ["img1"]) ["out"])
        ∅
    = ("❌ Error processing /in/patientA/study/series/img1: encoder error",
       (do_mkdir ∅ ["out"; "patientA"]).2).
Proof.
  split.
  - apply (failed_encoding_empties_target world_unencodable
             (series ++ ["img1"]) ["out"]
             {| PixelData := true; pixel_array := inr gradient |}
             "patientA" taken gradient_image
             (Exception "OSError" "encoder error")).
    + repeat split; reflexivity.
    + vm_compute. reflexivity.
    + reflexivity.
    + apply taken_unobstructed.
    + vm_compute. discriminate.
  - rewrite (failed_encoding_empties_target world_unencodable
               (series ++ ["img1"]) ["out"]
               {| PixelData := true; pixel_array := inr gradient |}
               "patientA" ∅ gradient_image
               (Exception "OSError" "encoder error")).
    + reflexivity.
    + repeat split; reflexivity.
    + vm_compute. reflexivity.
    + reflexivity.
    + apply empty_disk_unobstructed.
    + vm_compute. discriminate.
Defined.


Lemma one_thread_is_serial_witness :
  collect (length two_images)
          (batch world two_images ["out"] 1 with_strangers ∅)
  = Some (convert_each world ["out"] two_images ∅).1
  ∧ disk (batch world two_images ["out"] 1 with_strangers ∅)
    = (convert_each world ["out"] two_images ∅).2.
Proof.
  apply (one_thread_is_serial world two_images ["out"] with_strangers ∅).
  vm_compute. reflexivity.
Defined.

Lemma same_folder_same_name_witness :
  finished (batch world two_images ["out"] 2
                  [0; 1; 0; 1; 0; 1; 0; 1; 0; 1]%nat ∅) = true
  ∧ collect 2 (batch world two_images ["out"] 2
                     [0; 1; 0; 1; 0; 1; 0; 1; 0; 1]%nat ∅)
    = Some [saved_message (["out"; "patientA"] ++ ["00.jpg"]);
            saved_message (["out"; "patientA"] ++ ["00.jpg"])]
  ∧ disk (batch world two_images ["out"] 2
                [0; 1; 0; 1; 0; 1; 0; 1; 0; 1]%nat ∅)
      !! (["out"; "patientA"] ++ ["00.jpg"])
    = Some (FileNode gradient_image)
  ∧ length (do_glob (disk (batch world two_images ["out"] 2
                                 [0; 1; 0; 1; 0; 1; 0; 1; 0; 1]%nat ∅))
                    ["out"; "patientA"]) = 1%nat.
Proof.
  apply (same_folder_same_name world (series ++ ["img1"]) (series ++ ["img2"])
           ["out"] {| PixelData := true; pixel_array := inr gradient |}
           {| PixelData := true; pixel_array := inr gradient |}
           "patientA" gradient_image gradient_image ∅).
  - repeat split; reflexivity.
  - repeat split; reflexivity.
  - vm_compute. reflexivity.
  - vm_compute. reflexivity.
  - apply empty_disk_absent.
  - apply empty_disk_unobstructed.
Defined.

Lemma nonpositive_threads_raise_witness :
  ∃ banner,
    convert_dicom world ["in"] tree ["out"] 0 [] ∅
    = Raised banner (ValueError "max_workers must be greater than 0")
    ∧ length banner = 4%nat.
Proof.
  apply (nonpositive_threads_raise world ["in"] tree ["out"] 0 [] ∅
           ["patientA"; "study"; "series"; "img1"]).
  - reflexivity.
  - unfold tree.
    eapply reaches_down; [left|].
    eapply reaches_down; [left|].
    eapply reaches_down; [left|].
    apply reaches_here. left.
  - lia.
Defined.

Lemma darkest_pixel_is_black_witness :
  match normalize wide_signed with
  | inr img => u8_data img !! 0%nat = Some (Some 0)
  | inl _ => False
  end.
Proof.
  destruct (normalize wide_signed) as [e|img] eqn:Hnorm.
  - vm_compute in Hnorm. discriminate.
  - apply (darkest_pixel_is_black wide_signed (-20000) 20000 img 0).
    + unfold wf_ndarray. simpl. repeat constructor; vm_compute; discriminate.
    + reflexivity.
    + reflexivity.
    + lia.
    + exact Hnorm.
    + reflexivity.
Defined.

Lemma normalize_raises_iff_empty_witness :
  (∃ e, normalize no_pixels = inl e)
  ∧ u8_shape gradient_image = arr_shape gradient
  ∧ length (u8_data gradient_image) = length (arr_data gradient).
Proof.
  split.
  - apply (proj1 (proj1 (normalize_raises_iff_empty no_pixels))). reflexivity.
  - apply (proj2 (normalize_raises_iff_empty gradient) gradient_image).
    vm_compute. reflexivity.
Defined.

Lemma format_02d_pads_one_digit_witness :
  format_02d 7 = "0" +:+ str_nat 7 ∧ format_02d 100 = str_nat 100.
Proof.
  split.
  - apply (proj1 (format_02d_pads_one_digit 7)). lia.
  - apply (proj2 (format_02d_pads_one_digit 100)). lia.
Defined.

Lemma normalize_stretches_unsigned_witness :
  ∃ out,
    normalize gradient
    = inr {| u8_shape := arr_shape gradient; u8_data := Some <$> out |}
    ∧ Forall (λ v, 0 ≤ v ≤ 255) out
    ∧ 0 ∈ out ∧ 255 ∈ out
    ∧ ∀ i j p q vp vq,
        arr_data gradient !! i = Some p → arr_data gradient !! j = Some q →
        out !! i = Some vp → out !! j = Some vq →
        p ≤ q → vp ≤ vq.
Proof.
  apply (normalize_stretches_unsigned gradient 0 3).
  - unfold wf_ndarray. simpl. repeat constructor; vm_compute; discriminate.
  - reflexivity.
  - reflexivity.
  - reflexivity.
  - lia.
Defined.

Lemma normalize_constant_witness :
  normalize flat = inr {| u8_shape := arr_shape flat;
                          u8_data := (λ _, None) <$> arr_data flat |}.
Proof.
  apply (normalize_constant flat 7).
  - discriminate.
  - simpl. repeat constructor.
Defined.

End MoreWitnesses.
